(** * CSV database seeder (src/database/populate.py)

    A shallow embedding of [CSVDatabaseSeeder] and of [main]: the pandas
    preprocessing of the movie CSV, the generic get-or-create resolution of
    reference rows, the chunked movie insertion with its re-query of the
    generated identifiers, the association builder and the single
    transaction that [seed] runs them in. *)

From Stdlib Require Import String Ascii.
From stdpp Require Import gmap list sorting.

#[local] Set Warnings "-clear-no-such-hyp".

Local Open Scope N_scope.

(** ** Python strings

    A [str] is a sequence of code points.  [py] turns a literal into one. *)

Abbreviation str := (list N).

Definition py (s : string) : str := N_of_ascii <$> list_ascii_of_string s.

Definition comma : N := 44.
Definition hyphen : N := 45.
Definition nbsp : N := 160.

Module PyStr.

(** [str.isspace] on one code point; the same class is what [\s] matches
    in a [re] pattern over [str]. *)
Definition isspace (c : N) : bool :=
  ((9 <=? c) && (c <=? 13)) || ((28 <=? c) && (c <=? 32))
  || (c =? 133) || (c =? 160) || (c =? 5760)
  || ((8192 <=? c) && (c <=? 8202))
  || (c =? 8232) || (c =? 8233) || (c =? 8239) || (c =? 8287)
  || (c =? 12288).

(** [s.lstrip()], [s.rstrip()], [s.strip()] *)
Fixpoint lstrip (s : str) : str :=
  match s with
  | [] => []
  | c :: s' => if isspace c then lstrip s' else s
  end.

Definition rstrip (s : str) : str := reverse (lstrip (reverse s)).

Definition strip (s : str) : str := rstrip (lstrip s).

(** [s.split(sep)] for a one-character separator: never empty, and the
    empty string splits into one empty token. *)
Fixpoint split (sep : N) (s : str) : list str :=
  match s with
  | [] => [[]]
  | c :: s' =>
      if c =? sep then [] :: split sep s'
      else match split sep s' with
           | t :: ts => (c :: t) :: ts
           | [] => [[c]]
           end
  end.

(** [sep.join(l)] *)
Fixpoint join (sep : N) (l : list str) : str :=
  match l with
  | [] => []
  | [t] => t
  | t :: ts => t ++ sep :: join sep ts
  end.

(** [s.replace(c, '')]: every occurrence of one character removed. *)
Definition remove_char (c : N) (s : str) : str :=
  filter (λ x, x ≠ c) s.

(** [re.sub(r'\s+', '', s)]: every run of white space removed, which
    leaves exactly the characters that are not white space. *)
Definition remove_whitespace (s : str) : str :=
  filter (λ x, isspace x = false) s.

(** The order of [str]: code points compared left to right, a proper
    prefix before its extensions. *)
Fixpoint leb (a b : str) : bool :=
  match a, b with
  | [], _ => true
  | _ :: _, [] => false
  | x :: a', y :: b' =>
      if x <? y then true else if x =? y then leb a' b' else false
  end.

Definition le (a b : str) : Prop := leb a b = true.

#[global] Instance le_dec a b : Decision (le a b).
Proof. unfold le. apply _. Defined.

(** [sorted(set(l))]: the set is a [gset], whose iteration order is as
    arbitrary as Python's; [sorted] is a merge sort under [le]. *)
Definition sorted (l : list str) : list str := merge_sort le l.

Definition set_of (l : list str) : gset str := list_to_set l.

Definition sorted_set (l : list str) : list str :=
  sorted (elements (set_of l)).

End PyStr.

(** ** The crew column (populate.py, lines 55-59) *)

Definition Unknown : str := py "Unknown".

(** [lambda x: ','.join(sorted(set(x.split(',')))) if x != 'Unknown' else x] *)
Definition crew_lambda (x : str) : str :=
  if bool_decide (x ≠ Unknown)
  then PyStr.join comma (PyStr.sorted_set (PyStr.split comma x))
  else x.

(** [.str.replace(r'\s+', '', regex=True).apply(lambda ...)] on one cell *)
Definition crew_cell (x : str) : str :=
  crew_lambda (PyStr.remove_whitespace x).

(** ** Exceptions and results *)

Inductive sa_exc := OperationalError | NoResultFound | MultipleResultsFound.

Inductive exn :=
| SQLAlchemyError (what : sa_exc)
| KeyError (key : str)
| IndexError
| ValueError.

Inductive result (A : Type) :=
| Ok (a : A)
| Raise (e : exn).
Arguments Ok {A} a.
Arguments Raise {A} e.

(** ** What the seeder takes from its libraries and from the model package

    The float type of the numeric columns with its [0.0], what
    [pd.to_numeric] and [pd.to_datetime(format='%Y-%m-%d')] make of the text
    of one cell ([None] when it does not parse), and the role names of
    [UserGroupEnum], whose declaration lives in the model package. *)

Record date := Date { year : N; month : N; day : N }.

#[global] Instance date_eq_dec : EqDecision date.
Proof. solve_decision. Defined.

Class Env := {
  float : Type;
  zero : float;
  parse_numeric : str → option float;
  parse_datetime : str → option date;
  UserGroupEnum : list str;
}.

(** ** Data frames

    A frame is its list of rows.  [T] is the cell type of the text columns
    crew, genre, country, orig_lang and status, [D] of date_x and [F] of the
    numeric columns; an [option] cell is one that may be NaN (NaT). *)

Record Row (T D F : Type) := mkRow {
  names : option str;
  date_x : D;
  score : F;
  genre : T;
  overview : option str;
  crew : T;
  orig_lang : T;
  budget_x : F;
  revenue : F;
  country : T;
  status : T;
}.
Arguments mkRow {T D F}.
Arguments names {T D F}.
Arguments date_x {T D F}.
Arguments score {T D F}.
Arguments genre {T D F}.
Arguments overview {T D F}.
Arguments crew {T D F}.
Arguments orig_lang {T D F}.
Arguments budget_x {T D F}.
Arguments revenue {T D F}.
Arguments country {T D F}.
Arguments status {T D F}.

(** One record of the CSV file: the text of its eleven cells. *)
Record csv_record := CsvRecord {
  c_names : str; c_date_x : str; c_score : str; c_genre : str;
  c_overview : str; c_crew : str; c_orig_lang : str; c_budget_x : str;
  c_revenue : str; c_country : str; c_status : str;
}.

Module Pandas.

(** The texts [read_csv] reads as NaN by default. *)
Definition STR_NA_VALUES : list str :=
  py <$> [ ""; "#N/A"; "#N/A N/A"; "#NA"; "-1.#IND"; "-1.#QNAN"; "-NaN";
           "-nan"; "1.#IND"; "1.#QNAN"; "<NA>"; "N/A"; "NA"; "NULL";
           "NaN"; "None"; "n/a"; "nan"; "null" ]%string.

Definition read_cell (s : str) : option str :=
  if bool_decide (s ∈ STR_NA_VALUES) then None else Some s.

Definition read_csv (file : list csv_record)
  : list (Row (option str) (option str) (option str)) :=
  (λ c, mkRow (read_cell (c_names c)) (read_cell (c_date_x c))
              (read_cell (c_score c)) (read_cell (c_genre c))
              (read_cell (c_overview c)) (read_cell (c_crew c))
              (read_cell (c_orig_lang c)) (read_cell (c_budget_x c))
              (read_cell (c_revenue c)) (read_cell (c_country c))
              (read_cell (c_status c))) <$> file.

(** [drop_duplicates(subset=..., keep='first')]: a row goes when an
    earlier row has the same key; NaN keys count as equal. *)
Fixpoint drop_duplicates_from {A K : Type} `{EqDecision K}
    (key : A → K) (seen : list K) (data : list A) : list A :=
  match data with
  | [] => []
  | r :: data' =>
      if bool_decide (key r ∈ seen)
      then drop_duplicates_from key seen data'
      else r :: drop_duplicates_from key (key r :: seen) data'
  end.

Definition drop_duplicates {A K : Type} `{EqDecision K}
    (key : A → K) (data : list A) : list A :=
  drop_duplicates_from key [] data.

(** [fillna(v)] on one cell *)
Definition fillna {A : Type} (v : A) (c : option A) : A := default v c.

Inductive errors := errors_raise | errors_coerce.

(** One cell of [to_datetime] / [to_numeric]: NaN stays NaN; a text that
    does not parse raises under [errors='raise'] and becomes NaN under
    [errors='coerce']. *)
Definition convert_cell {A : Type} (parse : str → option A) (mode : errors)
    (c : option str) : result (option A) :=
  match c with
  | None => Ok None
  | Some s =>
      match parse s, mode with
      | Some v, _ => Ok (Some v)
      | None, errors_coerce => Ok None
      | None, errors_raise => Raise ValueError
      end
  end.

End Pandas.

(** ** The database

    Rows of the entity tables carry their generated [id] and their column
    values; the association tables hold bare (movie_id, ref_id) pairs. *)

Record obj (A : Type) := Obj { id_of : nat; values : A }.
Arguments Obj {A}.
Arguments id_of {A}.
Arguments values {A}.

Inductive model :=
  UserGroupModel | CountryModel | GenreModel | ActorModel | LanguageModel.

Inductive assoc_table :=
  MoviesGenresModel | ActorsMoviesModel | MoviesLanguagesModel.

Inductive table_name :=
| EntityTable (m : model)
| MovieModel
| AssocTable (t : assoc_table).

Inductive stmt :=
| SELECT (t : table_name)
| INSERT (t : table_name) (rows : nat)
| FLUSH
| COMMIT
| ROLLBACK.

Definition is_write (s : stmt) : bool :=
  match s with INSERT _ _ => true | _ => false end.

Inductive printed :=
| InvalidDatesWarning (invalid_dates : nat)
| PreprocessingCsv
| CsvSaved
| UserGroupsSeeded
| SeedingCompleted
| SQLAlchemyErrorMsg (e : exn)
| UnexpectedErrorMsg (e : exn)
| SeedingCompletedSuccessfully
| FailedToSeed (e : exn)
| AlreadyPopulated.

Definition CHUNK_SIZE : nat := 1000.

Abbreviation entity := (obj (gmap str str)).

Section Seeder.
Context `{Env}.

(** The values of one movie as [_prepare_movies_data] builds them. *)
Record movie := Movie {
  m_name : option str;
  m_date : date;
  m_score : float;
  m_overview : option str;
  m_status : str;
  m_budget : float;
  m_revenue : float;
  m_country_id : nat;
}.

Record store := Store {
  user_groups : list entity;
  countries : list entity;
  genres : list entity;
  actors : list entity;
  languages : list entity;
  movies : list (obj movie);
  movies_genres : list (nat * nat);
  actors_movies : list (nat * nat);
  movies_languages : list (nat * nat);
}.

Definition table (m : model) (s : store) : list entity :=
  match m with
  | UserGroupModel => user_groups s
  | CountryModel => countries s
  | GenreModel => genres s
  | ActorModel => actors s
  | LanguageModel => languages s
  end.

Definition set_table (m : model) (t : list entity) (s : store) : store :=
  match m with
  | UserGroupModel =>
      Store t (countries s) (genres s) (actors s) (languages s) (movies s)
            (movies_genres s) (actors_movies s) (movies_languages s)
  | CountryModel =>
      Store (user_groups s) t (genres s) (actors s) (languages s) (movies s)
            (movies_genres s) (actors_movies s) (movies_languages s)
  | GenreModel =>
      Store (user_groups s) (countries s) t (actors s) (languages s) (movies s)
            (movies_genres s) (actors_movies s) (movies_languages s)
  | ActorModel =>
      Store (user_groups s) (countries s) (genres s) t (languages s) (movies s)
            (movies_genres s) (actors_movies s) (movies_languages s)
  | LanguageModel =>
      Store (user_groups s) (countries s) (genres s) (actors s) t (movies s)
            (movies_genres s) (actors_movies s) (movies_languages s)
  end.

Definition set_movies (t : list (obj movie)) (s : store) : store :=
  Store (user_groups s) (countries s) (genres s) (actors s) (languages s) t
        (movies_genres s) (actors_movies s) (movies_languages s).

Definition assoc (a : assoc_table) (s : store) : list (nat * nat) :=
  match a with
  | MoviesGenresModel => movies_genres s
  | ActorsMoviesModel => actors_movies s
  | MoviesLanguagesModel => movies_languages s
  end.

Definition set_assoc (a : assoc_table) (t : list (nat * nat)) (s : store)
  : store :=
  match a with
  | MoviesGenresModel =>
      Store (user_groups s) (countries s) (genres s) (actors s) (languages s)
            (movies s) t (actors_movies s) (movies_languages s)
  | ActorsMoviesModel =>
      Store (user_groups s) (countries s) (genres s) (actors s) (languages s)
            (movies s) (movies_genres s) t (movies_languages s)
  | MoviesLanguagesModel =>
      Store (user_groups s) (countries s) (genres s) (actors s) (languages s)
            (movies s) (movies_genres s) (actors_movies s) t
  end.

(** A multi-row INSERT: the rows go to the end of the table, each with the
    next free identifier (one more than the largest in use). *)
Definition next_id {A : Type} (t : list (obj A)) : nat :=
  S (max_list (id_of <$> t)).

Definition new_rows {A : Type} (t : list (obj A)) (vals : list A)
  : list (obj A) :=
  imap (λ i v, Obj (next_id t + i)%nat v) vals.

Definition insert_values {A : Type} (t : list (obj A)) (vals : list A)
  : list (obj A) :=
  t ++ new_rows t vals.

(** ** The session and the rest of the world the seeder touches

    [committed] is what the database holds; [working] is what the open
    transaction sees.  [faults = Some n] lets [n] more statements through
    and fails the next one with a data-layer error (a constraint violation
    or a lost connection alike).  [log] keeps the statements sent, newest
    first; [console] what was printed, newest first. *)

Abbreviation frame := (list (Row str date float)).

Record world := World {
  committed : store;
  working : store;
  in_tx : bool;
  faults : option nat;
  log : list stmt;
  console : list printed;
  csv_file : list csv_record;
  csv_saved : option frame;
}.

Definition view (w : world) : store :=
  if in_tx w then working w else committed w.

Definition M (A : Type) : Type := world → result A * world.

Definition ret {A} (a : A) : M A := λ w, (Ok a, w).

Definition bind {A B} (m : M A) (f : A → M B) : M B :=
  λ w, match m w with
       | (Ok a, w') => f a w'
       | (Raise e, w') => (Raise e, w')
       end.

Definition raise {A} (e : exn) : M A := λ w, (Raise e, w).

(** [try: m  except ...: handler(e)] *)
Definition try_except {A} (m : M A) (handler : exn → M A) : M A :=
  λ w, match m w with
       | (Ok a, w') => (Ok a, w')
       | (Raise e, w') => handler e w'
       end.

Definition lift {A} (r : result A) : M A := λ w, (r, w).

Definition gets {A} (f : world → A) : M A := λ w, (Ok (f w), w).

Definition modify (f : world → world) : M unit := λ w, (Ok tt, f w).

Notation "'let*' x ':=' m 'in' k" := (bind m (λ x, k))
  (at level 10, x pattern, m at level 100, k at level 200).
Notation "m ;; k" := (bind m (λ _, k))
  (at level 100, k at level 200, right associativity).

(** [for x in l: acc = body(acc, x)] *)
Fixpoint foldM {A B} (body : B → A → M B) (acc : B) (l : list A) : M B :=
  match l with
  | [] => ret acc
  | x :: l' => let* acc' := body acc x in foldM body acc' l'
  end.

(** [for x in l: body(x)] *)
Definition for_each {A} (l : list A) (body : A → M unit) : M unit :=
  foldM (λ _ x, body x) tt l.

Definition print (p : printed) : M unit :=
  modify (λ w, World (committed w) (working w) (in_tx w) (faults w) (log w)
                     (p :: console w) (csv_file w) (csv_saved w)).

Definition to_csv (data : frame) : M unit :=
  modify (λ w, World (committed w) (working w) (in_tx w) (faults w) (log w)
                     (console w) (csv_file w) (Some data)).

(** *** The session *)

Definition set_session (c wk : store) (tx : bool) (w : world) : world :=
  World c wk tx (faults w) (log w) (console w) (csv_file w) (csv_saved w).

Definition sent (s : stmt) (w : world) : world :=
  World (committed w) (working w) (in_tx w) (faults w) (s :: log w)
        (console w) (csv_file w) (csv_saved w).

(** Every statement may fail with a data-layer error before it has any
    effect. *)
Definition tick : M unit := λ w,
  match faults w with
  | Some O =>
      (Raise (SQLAlchemyError OperationalError),
       World (committed w) (working w) (in_tx w) None (log w)
             (console w) (csv_file w) (csv_saved w))
  | Some (S n) =>
      (Ok tt,
       World (committed w) (working w) (in_tx w) (Some n) (log w)
             (console w) (csv_file w) (csv_saved w))
  | None => (Ok tt, w)
  end.

(** The first statement outside a transaction begins one on the committed
    state. *)
Definition autobegin (w : world) : world :=
  if in_tx w then w else set_session (committed w) (committed w) true w.

(** [await session.execute(select(...))] *)
Definition execute_select {A} (t : table_name) (q : store → A) : M A :=
  tick ;;
  modify autobegin ;;
  modify (sent (SELECT t)) ;;
  gets (λ w, q (working w)).

(** [await session.execute(insert(...).values(rows))] *)
Definition execute_insert (t : table_name) (rows : nat) (f : store → store)
  : M unit :=
  tick ;;
  modify autobegin ;;
  modify (sent (INSERT t rows)) ;;
  modify (λ w, set_session (committed w) (f (working w)) (in_tx w) w).

Definition flush : M unit :=
  tick ;; modify (sent FLUSH).

Definition commit : M unit :=
  tick ;;
  modify (sent COMMIT) ;;
  modify (λ w, set_session (view w) (view w) false w).

Definition rollback : M unit :=
  modify (sent ROLLBACK) ;;
  modify (λ w, set_session (committed w) (committed w) false w).

Definition in_transaction : M bool := gets in_tx.

(** [async with AsyncSQLiteSessionLocal() as session: yield session]
    (session_sqlite.py): a new session on the committed state, closed when
    the block is left, however it is left; closing drops an open
    transaction. *)
Definition get_db_contextmanager {A} (block : M A) : M A := λ w,
  let (r, w') := block (set_session (committed w) (committed w) false w) in
  (r, set_session (committed w') (committed w') false w').

(** [result.scalar_one()] *)
Definition scalar_one {A} (rows : list A) : result A :=
  match rows with
  | [a] => Ok a
  | [] => Raise (SQLAlchemyError NoResultFound)
  | _ => Raise (SQLAlchemyError MultipleResultsFound)
  end.

(** [i in range(0, n, step)] and [l[i:i + step]] *)
Definition range_step (n step : nat) : list nat :=
  (λ k, k * step)%nat <$> seq 0 ((n + step - 1) / step)%nat.

Definition slice {A} (l : list A) (start stop : nat) : list A :=
  take (stop - start) (drop start l).

Definition chunks {A} (l : list A) : list (list A) :=
  (λ i, slice l i (i + CHUNK_SIZE)) <$> range_step (length l) CHUNK_SIZE.

(** ** CSVDatabaseSeeder *)

(** [is_db_populated] (lines 43-45) *)
Definition is_db_populated : M bool :=
  let* first := execute_select MovieModel (λ st, head (movies st)) in
  ret (bool_decide (is_Some first)).

(** *** [_preprocess_csv] (lines 47-78) *)

Definition map_text {T T' D F} (f : T → T') (r : Row T D F) : Row T' D F :=
  mkRow (names r) (date_x r) (score r) (f (genre r)) (overview r)
        (f (crew r)) (f (orig_lang r)) (budget_x r) (revenue r)
        (f (country r)) (f (status r)).

Definition normalize_text {D F} (r : Row str D F) : Row str D F :=
  mkRow (names r) (date_x r) (score r)
        (PyStr.remove_char nbsp (genre r)) (overview r)
        (crew_cell (crew r))
        (PyStr.remove_whitespace (orig_lang r))
        (budget_x r) (revenue r) (country r)
        (PyStr.strip (status r)).

Definition set_date_x {T D D' F} (d : D') (r : Row T D F) : Row T D' F :=
  mkRow (names r) d (score r) (genre r) (overview r) (crew r) (orig_lang r)
        (budget_x r) (revenue r) (country r) (status r).

Definition set_numeric {T D F F'} (sc bu re : F') (r : Row T D F)
  : Row T D F' :=
  mkRow (names r) (date_x r) sc (genre r) (overview r) (crew r)
        (orig_lang r) bu re (country r) (status r).

#[local] Instance result_ret : MRet result := @Ok.
#[local] Instance result_bind : MBind result := λ A B f r,
  match r with
  | Ok a => f a
  | Raise e => Raise e
  end.

Fixpoint traverse {A B} (f : A → result B) (l : list A) : result (list B) :=
  match l with
  | [] => Ok []
  | x :: l' => y ← f x; ys ← traverse f l'; Ok (y :: ys)
  end.

(** [pd.to_datetime(data['date_x'], format='%Y-%m-%d', errors=mode)],
    assigned back to the column *)
Definition to_datetime {T F} (mode : Pandas.errors)
    (data : list (Row T (option str) F))
  : result (list (Row T (option date) F)) :=
  traverse (λ r, d ← Pandas.convert_cell parse_datetime mode (date_x r);
                 Ok (set_date_x d r)) data.

(** [data.dropna(subset=['date_x'])], then [.dt.date] *)
Definition dropna_date_x {T F} (data : list (Row T (option date) F))
  : list (Row T date F) :=
  omap (λ r, d ← date_x r; Some (set_date_x d r)) data.

(** [pd.to_numeric(data[col], errors=mode).fillna(0.0)] for budget_x,
    revenue and score *)
Definition to_numeric_fillna {T D} (mode : Pandas.errors)
    (data : list (Row T D (option str))) : result (list (Row T D float)) :=
  bu ← traverse (λ r, Pandas.convert_cell parse_numeric mode (budget_x r))
                data;
  re ← traverse (λ r, Pandas.convert_cell parse_numeric mode (revenue r))
                data;
  sc ← traverse (λ r, Pandas.convert_cell parse_numeric mode (score r))
                data;
  Ok (zip_with (λ r '(s, (b, v)),
        set_numeric (Pandas.fillna zero s) (Pandas.fillna zero b)
                    (Pandas.fillna zero v) r)
      data (zip sc (zip bu re))).

Definition isna_sum {T F} (data : list (Row T (option date) F)) : nat :=
  length (filter (λ r, date_x r = None) data).

Definition _preprocess_csv : M frame :=
  let* file := gets csv_file in
  let data := Pandas.read_csv file in
  let data := Pandas.drop_duplicates (λ r, (names r, date_x r)) data in
  let data := map_text (Pandas.fillna Unknown) <$> data in
  let data := normalize_text <$> data in
  let* data := lift (to_datetime Pandas.errors_coerce data) in
  let invalid_dates := isna_sum data in
  (if bool_decide (0 < invalid_dates)%nat
   then print (InvalidDatesWarning invalid_dates) else ret tt) ;;
  let data := dropna_date_x data in
  let* data := lift (to_numeric_fillna Pandas.errors_coerce data) in
  print PreprocessingCsv ;;
  to_csv data ;;
  print CsvSaved ;;
  ret data.

(** *** [_seed_user_groups] (lines 80-88) *)

Definition _seed_user_groups : M unit :=
  let* existing_groups :=
    execute_select (EntityTable UserGroupModel)
                   (λ st, length (user_groups st)) in
  if bool_decide (existing_groups = 0%nat) then
    let groups := (λ g, {[ py "name" := g ]} : gmap str str)
                    <$> UserGroupEnum in
    execute_insert (EntityTable UserGroupModel) (length groups)
      (λ st, set_table UserGroupModel
               (insert_values (user_groups st) groups) st) ;;
    flush ;;
    print UserGroupsSeeded
  else ret tt.

(** *** [_get_or_create_bulk] (lines 90-119) *)

(** [getattr(obj, unique_field)] *)
Definition getattr (o : entity) (field : str) : option str :=
  values o !! field.

(** [column.in_(chunk)] on one row: NULL is in no list. *)
Definition in_ (v : option str) (chunk : list str) : bool :=
  match v with
  | Some k => bool_decide (k ∈ chunk)
  | None => false
  end.

(** [select(model).where(getattr(model, unique_field).in_(chunk))] *)
Definition select_in (m : model) (field : str) (chunk : list str)
  : M (list entity) :=
  execute_select (EntityTable m)
    (λ st, filter (λ o, in_ (getattr o field) chunk = true) (table m st)).

(** [for obj in result.scalars().all():
       existing_dict[getattr(obj, unique_field)] = obj];
    a selected row has a value in the column. *)
Definition merge_objs (field : str) (d : gmap str entity)
    (objs : list entity) : gmap str entity :=
  foldl (λ d o, match getattr o field with
                | Some k => <[k := o]> d
                | None => d
                end) d objs.

Definition select_merge (m : model) (field : str) (items : list str)
    (d : gmap str entity) : M (gmap str entity) :=
  foldM (λ d chunk,
           let* result := select_in m field chunk in
           ret (merge_objs field d result))
        d (chunks items).

Definition _get_or_create_bulk (m : model) (items : list str)
    (unique_field : str) : M (gmap str entity) :=
  let* existing_dict :=
    match items with
    | [] => ret ∅
    | _ => select_merge m unique_field items ∅
    end in
  let new_items := filter (λ item, existing_dict !! item = None) items in
  let new_records :=
    (λ item, {[ unique_field := item ]} : gmap str str) <$> new_items in
  match new_records with
  | [] => ret existing_dict
  | _ =>
      for_each (chunks new_records) (λ chunk,
        execute_insert (EntityTable m) (length chunk)
          (λ st, set_table m (insert_values (table m st) chunk) st) ;;
        flush) ;;
      select_merge m unique_field new_items existing_dict
  end.

(** *** [_bulk_insert] (lines 121-135) *)

Definition _bulk_insert (a : assoc_table) (data_list : list (nat * nat))
  : M unit :=
  let total_records := length data_list in
  if bool_decide (total_records = 0%nat) then ret tt
  else
    let num_chunks := ((total_records + CHUNK_SIZE - 1) / CHUNK_SIZE)%nat in
    for_each (seq 0 num_chunks) (λ chunk_index,
      let start := (chunk_index * CHUNK_SIZE)%nat in
      let stop := (start + CHUNK_SIZE)%nat in
      let chunk := slice data_list start stop in
      match chunk with
      | [] => ret tt
      | _ => execute_insert (AssocTable a) (length chunk)
               (λ st, set_assoc a (assoc a st ++ chunk) st)
      end) ;;
    flush.

(** *** [_prepare_reference_data] (lines 137-150) *)

(** [{x.strip() for cell in column for x in cell.split(',') if x.strip()}] *)
Definition stripped_set (column : list str) : gset str :=
  list_to_set
    (cell ← column;
     x ← PyStr.split comma cell;
     if bool_decide (PyStr.strip x ≠ []) then [PyStr.strip x] else []).

(** [list(column.unique())]: the distinct values in order of appearance *)
Definition unique (column : list str) : list str :=
  Pandas.drop_duplicates (λ x, x) column.

Definition _prepare_reference_data (data : frame)
  : M (gmap str entity * gmap str entity * gmap str entity
       * gmap str entity) :=
  let countries := unique (country <$> data) in
  let genres := stripped_set (genre <$> data) in
  let actors := stripped_set (crew <$> data) in
  let languages := stripped_set (orig_lang <$> data) in
  let* country_map := _get_or_create_bulk CountryModel countries (py "code") in
  let* genre_map :=
    _get_or_create_bulk GenreModel (elements genres) (py "name") in
  let* actor_map :=
    _get_or_create_bulk ActorModel (elements actors) (py "name") in
  let* language_map :=
    _get_or_create_bulk LanguageModel (elements languages) (py "name") in
  ret (country_map, genre_map, actor_map, language_map).

(** *** [_prepare_movies_data] (lines 152-167) *)

(** [d[k]] on a dict *)
Definition getitem {V} (d : gmap str V) (k : str) : result V :=
  match d !! k with
  | Some v => Ok v
  | None => Raise (KeyError k)
  end.

(** [l[i]] on a list *)
Definition index {A} (l : list A) (i : nat) : result A :=
  match l !! i with
  | Some x => Ok x
  | None => Raise IndexError
  end.

Definition _prepare_movies_data (data : frame)
    (country_map : gmap str entity) : result (list movie) :=
  traverse (λ row,
      country ← getitem country_map (country row);
      Ok (Movie (names row) (date_x row) (score row) (overview row)
                (status row) (budget_x row) (revenue row) (id_of country)))
    data.

(** *** [_prepare_associations] (lines 169-192) *)

(** One of the three inner loops: a pair is appended for every token that
    is not empty once stripped. *)
Fixpoint append_pairs (ref_map : gmap str entity) (movie_id : nat)
    (acc : list (nat * nat)) (tokens : list str) : result (list (nat * nat)) :=
  match tokens with
  | [] => Ok acc
  | name :: tokens' =>
      let name := PyStr.strip name in
      if bool_decide (name ≠ [])
      then o ← getitem ref_map name;
           append_pairs ref_map movie_id (acc ++ [(movie_id, id_of o)]) tokens'
      else append_pairs ref_map movie_id acc tokens'
  end.

Fixpoint associations_from (i : nat) (data : frame) (movie_ids : list nat)
    (genre_map actor_map language_map : gmap str entity)
    (acc : list (nat * nat) * list (nat * nat) * list (nat * nat))
  : result (list (nat * nat) * list (nat * nat) * list (nat * nat)) :=
  match data with
  | [] => Ok acc
  | row :: data' =>
      let '(movie_genres_data, movie_actors_data, movie_languages_data) :=
        acc in
      movie_id ← index movie_ids i;
      movie_genres_data ←
        append_pairs genre_map movie_id movie_genres_data
                     (PyStr.split comma (genre row));
      movie_actors_data ←
        append_pairs actor_map movie_id movie_actors_data
                     (PyStr.split comma (crew row));
      movie_languages_data ←
        append_pairs language_map movie_id movie_languages_data
                     (PyStr.split comma (orig_lang row));
      associations_from (S i) data' movie_ids genre_map actor_map
        language_map
        (movie_genres_data, movie_actors_data, movie_languages_data)
  end.

Definition _prepare_associations (data : frame) (movie_ids : list nat)
    (genre_map actor_map language_map : gmap str entity)
  : result (list (nat * nat) * list (nat * nat) * list (nat * nat)) :=
  associations_from 0 data movie_ids genre_map actor_map language_map
                    ([], [], []).

(** *** [seed] (lines 194-240) *)

(** [column == value] in a WHERE clause: NULL equals nothing. *)
Definition sql_eq (column value : option str) : bool :=
  match column, value with
  | Some a, Some b => bool_decide (a = b)
  | _, _ => false
  end.

(** [select(MovieModel.id).where(and_(MovieModel.name == movie['name'],
                                      MovieModel.date == movie['date']))] *)
Definition select_movie_id (mv : movie) : M (list nat) :=
  execute_select MovieModel
    (λ st, id_of <$>
             filter (λ o, sql_eq (m_name (values o)) (m_name mv)
                          && bool_decide (m_date (values o) = m_date mv)
                          = true)
                    (movies st)).

(** The movie insertion loop (lines 208-222) *)
Definition insert_movies (movies_data : list movie) : M (list nat) :=
  foldM (λ movie_ids chunk,
      execute_insert MovieModel (length chunk)
        (λ st, set_movies (insert_values (movies st) chunk) st) ;;
      flush ;;
      foldM (λ movie_ids mv,
          let* result := select_movie_id mv in
          let* movie_id := lift (scalar_one result) in
          ret (movie_ids ++ [movie_id]))
        movie_ids chunk)
    [] (chunks movies_data).

Definition is_SQLAlchemyError (e : exn) : bool :=
  match e with SQLAlchemyError _ => true | _ => false end.

Definition seed_body : M unit :=
  let* open := in_transaction in
  (if open then rollback else ret tt) ;;
  _seed_user_groups ;;
  let* data := _preprocess_csv in
  let* (country_map, genre_map, actor_map, language_map) :=
    _prepare_reference_data data in
  let* movies_data := lift (_prepare_movies_data data country_map) in
  let* movie_ids := insert_movies movies_data in
  let* (movie_genres_data, movie_actors_data, movie_languages_data) :=
    lift (_prepare_associations data movie_ids genre_map actor_map
                                language_map) in
  _bulk_insert MoviesGenresModel movie_genres_data ;;
  _bulk_insert ActorsMoviesModel movie_actors_data ;;
  _bulk_insert MoviesLanguagesModel movie_languages_data ;;
  commit ;;
  print SeedingCompleted.

Definition seed : M unit :=
  try_except seed_body
    (λ e, (if is_SQLAlchemyError e
           then print (SQLAlchemyErrorMsg e)
           else print (UnexpectedErrorMsg e)) ;;
          raise e).

(** *** [main] (lines 243-254) *)

Definition main : M unit :=
  get_db_contextmanager
    (let* populated := is_db_populated in
     if negb populated then
       try_except (seed ;; print SeedingCompletedSuccessfully)
                  (λ e, print (FailedToSeed e))
     else print AlreadyPopulated).

End Seeder.

Abbreviation frame := (list (Row str date float)).

Notation "'let*' x ':=' m 'in' k" := (bind m (λ x, k))
  (at level 10, x pattern, m at level 100, k at level 200).
Notation "m ;; k" := (bind m (λ _, k))
  (at level 100, k at level 200, right associativity).

(** ** A concrete environment

    [strptime_Ymd] reads the three fields of ['%Y-%m-%d']: a four-digit
    year, then month and day of one or two digits each, the day within the
    month.  Numbers are read from plain digit strings. *)

Module Strptime.

Definition digit (c : N) : option N :=
  if (48 <=? c) && (c <=? 57) then Some (c - 48) else None.

Definition number (s : str) : option N :=
  match s with
  | [] => None
  | _ => foldl (λ acc c, n ← acc; d ← digit c; Some (10 * n + d))
               (Some 0) s
  end.

Definition is_leap (y : N) : bool :=
  ((y mod 4 =? 0) && negb (y mod 100 =? 0)) || (y mod 400 =? 0).

Definition days_in_month (y m : N) : N :=
  if m =? 2 then (if is_leap y then 29 else 28)
  else if (m =? 4) || (m =? 6) || (m =? 9) || (m =? 11) then 30
  else 31.

Definition strptime_Ymd (s : str) : option date :=
  match PyStr.split hyphen s with
  | [ys; ms; ds] =>
      y ← number ys; m ← number ms; d ← number ds;
      if bool_decide (length ys = 4%nat)
         && bool_decide (1 ≤ length ms ≤ 2)%nat
         && bool_decide (1 ≤ length ds ≤ 2)%nat
         && (1 <=? m) && (m <=? 12)
         && (1 <=? d) && (d <=? days_in_month y m)
      then Some (Date y m d) else None
  | _ => None
  end.

End Strptime.

Definition demo_env : Env := {|
  float := Z;
  zero := 0%Z;
  parse_numeric := λ s, Z.of_N <$> Strptime.number s;
  parse_datetime := Strptime.strptime_Ymd;
  UserGroupEnum := py <$> ["user"; "moderator"; "admin"]%string;
|}.

Definition empty_store `{Env} : store := Store [] [] [] [] [] [] [] [] [].

Definition fresh_world `{Env} (file : list csv_record) (faults : option nat)
  : world :=
  World empty_store empty_store false faults [] [] file None.

Definition demo_csv : list csv_record :=
  [ CsvRecord (py "Alien") (py "1979-05-25") (py "85") (py "Horror, Sci-Fi,")
              (py "In space") (py "b, a, a") (py " English") (py "N/A")
              (py "100") (py "US") (py " Released ");
    CsvRecord (py "Alien") (py "1979-05-25") (py "1") (py "x") (py "dup")
              (py "z") (py "q") (py "1") (py "1") (py "AU") (py "Released");
    CsvRecord (py "Bad") (py "2024-13-40") (py "1") (py "Drama") (py "o")
              (py "c") (py "French") (py "1") (py "1") (py "FR")
              (py "Released");
    CsvRecord (py "Heat") (py "1995-12-15") (py "x") (py "Crime")
              (py "") (py "NA") (py "English, French") (py "60")
              (py "187") (py "US") (py "") ].

(** ** The crew column as the specification words it *)

(** Split on comma, take the white space out of every token, drop the
    duplicates, sort, join with a comma. *)
Definition crew_canonical (x : str) : str :=
  PyStr.join comma
    (PyStr.sorted_set (PyStr.remove_whitespace <$> PyStr.split comma x)).

(** ** Preprocessing as the specification words it

    A row of the de-duplicated file survives when its date parses; missing
    text becomes "Unknown", a number that is missing or does not parse
    becomes 0.0, and the text columns are normalised. *)

Definition text_or_unknown (c : option str) : str :=
  match c with Some s => s | None => Unknown end.

Definition number_or_zero `{Env} (c : option str) : float :=
  match c ≫= parse_numeric with Some v => v | None => zero end.

Definition cleaned `{Env} (r : Row (option str) (option str) (option str))
  : option (Row str date float) :=
  match date_x r ≫= parse_datetime with
  | None => None
  | Some d =>
      Some (mkRow (names r) d (number_or_zero (score r))
                  (PyStr.remove_char nbsp (text_or_unknown (genre r)))
                  (overview r)
                  (crew_canonical (text_or_unknown (crew r)))
                  (PyStr.remove_whitespace (text_or_unknown (orig_lang r)))
                  (number_or_zero (budget_x r))
                  (number_or_zero (revenue r))
                  (text_or_unknown (country r))
                  (PyStr.strip (text_or_unknown (status r))))
  end.

(** The frame between the text normalisation and the numeric columns: one
    row after [fillna], the column rewrites and [to_datetime]; and the
    numeric columns of one row filled in. *)
Definition stage `{Env} (r : Row (option str) (option str) (option str))
  : Row str (option date) (option str) :=
  let r' := normalize_text (map_text (Pandas.fillna Unknown) r) in
  set_date_x (date_x r' ≫= parse_datetime) r'.

Definition fill_numeric `{Env} (r : Row str date (option str))
  : Row str date float :=
  set_numeric (number_or_zero (score r)) (number_or_zero (budget_x r))
              (number_or_zero (revenue r)) r.

(** A row that only has a crew cell. *)
Definition crew_row (c : str) : Row str unit unit :=
  mkRow None tt tt [] None c [] tt tt [] [].

(** The row a dict built from a SELECT ends up holding for key [k]: the last
    row of the table whose [field] is [k]. *)
Fixpoint last_with (field k : str) (t : list entity) : option entity :=
  match t with
  | [] => None
  | o :: t' =>
      match last_with field k t' with
      | Some o' => Some o'
      | None => if bool_decide (getattr o field = Some k) then Some o else None
      end
  end.

(** ** Associations as the specification words them

    The tokens of a multi-value cell: split on comma, trim, drop the empty
    ones; and one (movie_id, ref_id) pair for each of them. *)
Definition nonempty_tokens (cell : str) : list str :=
  filter (λ t, t ≠ []) (PyStr.strip <$> PyStr.split comma cell).

Definition ref_id (ref_map : gmap str entity) (t : str) : nat :=
  match ref_map !! t with
  | Some o => id_of o
  | None => 0%nat
  end.

Definition pairs_for (ref_map : gmap str entity) (movie_id : nat)
    (cell : str) : list (nat * nat) :=
  (λ t, (movie_id, ref_id ref_map t)) <$> nonempty_tokens cell.

(** The WHERE clause of the identifier re-query, as a predicate on rows. *)
Definition matches `{Env} (mv : movie) (o : obj movie) : Prop :=
  sql_eq (m_name (values o)) (m_name mv)
  && bool_decide (m_date (values o) = m_date mv) = true.

#[global] Instance matches_dec `{Env} mv o : Decision (matches mv o).
Proof. unfold matches. apply _. Defined.

(** ** Transactions

    A statement failed during a run from [w] to [w']: the pending fault of
    [w] has been consumed. *)
Definition statement_failed `{Env} (w w' : world) : Prop :=
  is_Some (faults w) ∧ faults w' = None.

(** A run that only read: the transaction sees what it saw, and no INSERT
    was sent. *)
Definition reads_only `{Env} (w w' : world) : Prop :=
  view w' = view w ∧
  ∃ l, log w' = l ++ log w ∧ Forall (λ s, is_write s = false) l.

(** An action that commits nothing, and that re-raises the data-layer error
    of a statement that fails in it. *)
Definition tx_safe `{Env} {A} (m : M A) : Prop :=
  ∀ w r w', m w = (r, w') →
    committed w' = committed w ∧
    (statement_failed w w' → r = Raise (SQLAlchemyError OperationalError)).

(** An action that ends in a commit of everything or persists nothing. *)
Definition all_or_nothing `{Env} (m : M unit) : Prop :=
  ∀ w r w', m w = (r, w') →
    match r with
    | Ok _ => in_tx w' = false ∧ committed w' = working w'
    | Raise _ => committed w' = committed w
    end ∧
    (statement_failed w w' → r = Raise (SQLAlchemyError OperationalError)).

(** An action that returns whenever no statement fails. *)
Definition returns `{Env} {A} (m : M A) : Prop :=
  ∀ w, faults w = None → ∃ a w', m w = (Ok a, w') ∧ faults w' = None.

(** The natural key of a movie, and of a movie row. *)
Definition movie_key `{Env} (mv : movie) : option str * date :=
  (m_name mv, m_date mv).

Definition row_key `{Env} (o : obj movie) : option str * date :=
  movie_key (values o).

(** ** Sample data for running the seeder *)

(** The run returned. *)
Definition completes `{Env} {A} (x : result A * world) : bool :=
  match x with
  | (Ok _, _) => true
  | (Raise _, _) => false
  end.

(** What the run returned, or [d] when it raised. *)
Definition returned `{Env} {A} (d : A) (x : result A * world) : A :=
  match x with
  | (Ok a, _) => a
  | (Raise _, _) => d
  end.

Section Demo.
#[local] Existing Instance demo_env.

Definition demo_data : frame :=
  [ mkRow (Some (py "Alien")) (Date 1979 5 25) 85%Z (py "Horror, Sci-Fi,")
          (Some (py "In space")) (py "a,b") (py "English") 0%Z 100%Z
          (py "US") (py "Released");
    mkRow (Some (py "Heat")) (Date 1995 12 15) 0%Z (py "Crime") None
          (py "Unknown") (py "English, French") 60%Z 187%Z (py "US")
          (py "Unknown") ].

Definition demo_country_map : gmap str entity :=
  {[ py "US" := Obj 1 {[ py "code" := py "US" ]} ]}.

Definition demo_movies : list movie :=
  [ Movie (Some (py "Alien")) (Date 1979 5 25) 85%Z (Some (py "In space"))
          (py "Released") 0%Z 100%Z 1;
    Movie (Some (py "Heat")) (Date 1995 12 15) 0%Z None (py "Unknown")
          60%Z 187%Z 1 ].

(** A database that already holds a genre and a movie. *)
Definition demo_store : store :=
  Store [] [Obj 1 {[ py "code" := py "US" ]}]
        [Obj 7 {[ py "name" := py "Drama" ]}] [] []
        [Obj 3 (Movie (Some (py "Alien")) (Date 1979 5 25) 85%Z None
                      (py "Released") 0%Z 100%Z 1)]
        [] [] [].

Definition demo_world : world :=
  World demo_store demo_store false None [] [] demo_csv None.

Definition demo_items : list str := [py "Action"; py "Drama"].

(** One row whose genre cell ends in a comma. *)
Definition action_row : Row str date float :=
  mkRow (Some (py "Speed")) (Date 1994 6 10) 0%Z (py "Action,") None
        (py "a") (py "English") 0%Z 0%Z (py "US") (py "Released").

Definition action_genres : gmap str entity :=
  {[ py "Action" := Obj 3 {[ py "name" := py "Action" ]} ]}.
Definition action_actors : gmap str entity :=
  {[ py "a" := Obj 4 {[ py "name" := py "a" ]} ]}.
Definition action_languages : gmap str entity :=
  {[ py "English" := Obj 6 {[ py "name" := py "English" ]} ]}.

End Demo.

(** ** Further vocabulary for the properties of the seeder *)

(** The values of the unique field in a table, in row order. *)
Definition keys_of (field : str) (t : list entity) : list str :=
  omap (λ o, getattr o field) t.

(** The items no row of the table has as its unique field. *)
Definition absent (field : str) (t : list entity) (items : list str)
  : list str :=
  filter (λ k, last_with field k t = None) items.

(** The row counts of the INSERTs a chunked loop sends, oldest first. *)
Definition chunk_sizes {A} (l : list A) : list nat := length <$> chunks l.

(** Records that can be inserted after the rows of a movie table: each has
    a name, no two share a (name, date) key, and none shares its key with a
    row of the table. *)
Definition insertable `{Env} (t : list (obj movie)) (movies_data : list movie)
  : Prop :=
  Forall (λ mv, is_Some (m_name mv)) movies_data ∧
  NoDup (movie_key <$> movies_data) ∧
  ∀ o, o ∈ t → row_key o ∉ movie_key <$> movies_data.

(** An action that raises nothing but data-layer errors. *)
Definition data_layer_only `{Env} {A} (m : M A) : Prop :=
  ∀ w e w', m w = (Raise e, w') → is_SQLAlchemyError e = true.

(** The natural key of a row of the cleaned frame. *)
Definition frame_key {T F} (r : Row T date F) : option str * date :=
  (names r, date_x r).

(** A reference table once [items] have been resolved in it: the rows it
    had, then one new row per item that no row had in [field]; and what the
    returned dict holds for a key. *)
Definition resolved (field : str) (t : list entity) (items : list str)
  : list entity :=
  insert_values t
    ((λ item, {[ field := item ]} : gmap str str) <$> absent field t items).

Definition resolves (field : str) (t : list entity) (items : list str)
    (d : gmap str entity) : Prop :=
  ∀ k : str, d !! k = if bool_decide (k ∈ items) then last_with field k t
                      else None.

(** The rows of [UserGroupModel] after [_seed_user_groups]. *)
Definition seeded_groups `{Env} (t : list entity) : list entity :=
  match t with
  | [] => imap (λ i g, Obj (S i) ({[ py "name" := g ]} : gmap str str))
               UserGroupEnum
  | _ => t
  end.

(** The frame [_preprocess_csv] makes of a file. *)
Definition preprocessed `{Env} (file : list csv_record) : frame :=
  omap cleaned
    (Pandas.drop_duplicates (λ r, (names r, date_x r)) (Pandas.read_csv file)).

(** The rows of a frame can be inserted after the rows of a movie table:
    each has a name, no two share a (names, date_x) key, and none shares its
    key with a row of the table. *)
Definition frame_insertable `{Env} (t : list (obj movie)) (data : frame)
  : Prop :=
  Forall (λ r, is_Some (names r)) data ∧
  NoDup (frame_key <$> data) ∧
  ∀ o, o ∈ t → row_key o ∉ frame_key <$> data.

(** A session with an open transaction and pending work. *)
Section Pending.
#[local] Existing Instance demo_env.

Definition pending_world : world :=
  World empty_store demo_store true None [] [] demo_csv None.

End Pending.

(** * Properties *)

(** ** Strings *)

Module PyStrFacts.
Import PyStr.

Lemma leb_total a b : leb a b = true ∨ leb b a = true.
Proof.
  revert b. induction a as [|x a IH]; intros [|y b]; simpl; auto.
  destruct (N.ltb_spec x y), (N.ltb_spec y x); auto; try lia.
  assert (x = y) as -> by lia. rewrite N.eqb_refl. apply IH.
Qed.

Lemma leb_trans a b c : leb a b = true → leb b c = true → leb a c = true.
Proof.
  revert b c. induction a as [|x a IH]; intros [|y b] [|z c]; simpl; auto;
    try discriminate.
  destruct (N.ltb_spec x y), (N.ltb_spec y z), (N.ltb_spec x z);
    auto; try lia.
  - destruct (N.eqb_spec y z); [lia | discriminate].
  - destruct (N.eqb_spec x y); [lia | discriminate].
  - destruct (N.eqb_spec x y); [|discriminate].
    destruct (N.eqb_spec y z); [|discriminate].
    destruct (N.eqb_spec x z); [|lia]. apply IH.
Qed.

#[global] Instance le_total : Total le.
Proof. intros a b. apply leb_total. Qed.

#[global] Instance le_transitive : Transitive le.
Proof. intros a b c. apply leb_trans. Qed.

Lemma split_not_nil sep s : split sep s ≠ [].
Proof.
  destruct s as [|c s]; simpl; [done|].
  destruct (c =? sep); [done|]. by destruct (split sep s).
Qed.

Lemma split_filter (P : N → Prop) `{∀ c, Decision (P c)} sep s :
  P sep → split sep (filter P s) = filter P <$> split sep s.
Proof.
  intros Hsep. induction s as [|c s IH]; [done|].
  simpl. destruct (N.eqb_spec c sep) as [->|Hne].
  - rewrite filter_cons_True by done. simpl. rewrite N.eqb_refl.
    by rewrite IH.
  - pose proof (split_not_nil sep s) as Hs.
    destruct (decide (P c)).
    + rewrite filter_cons_True by done. simpl.
      destruct (N.eqb_spec c sep); [done|]. rewrite IH.
      destruct (split sep s); [done|]. simpl.
      by rewrite filter_cons_True.
    + rewrite filter_cons_False by done. rewrite IH.
      destruct (split sep s); [done|]. simpl.
      by rewrite filter_cons_False.
Qed.

Lemma split_remove_whitespace s :
  split comma (remove_whitespace s) = remove_whitespace <$> split comma s.
Proof. by apply split_filter. Qed.

Lemma split_no_sep sep s t : t ∈ split sep s → sep ∉ t.
Proof.
  revert t. induction s as [|c s IH]; intros t; simpl.
  - intros ->%list_elem_of_singleton. apply not_elem_of_nil.
  - destruct (N.eqb_spec c sep) as [->|Hne].
    + intros [->|?]%elem_of_cons; [apply not_elem_of_nil | by apply IH].
    + pose proof (split_not_nil sep s).
      destruct (split sep s) as [|t0 ts]; [done|].
      intros [->|?]%elem_of_cons.
      * intros [?|?]%elem_of_cons; [done|].
        by apply (IH t0); [left|].
      * apply IH. by right.
Qed.

Lemma split_no_sep_id sep t : sep ∉ t → split sep t = [t].
Proof.
  induction t as [|c t IH]; [done|].
  intros Hn. simpl. destruct (N.eqb_spec c sep) as [->|?].
  - exfalso. apply Hn. by left.
  - rewrite IH; [done|]. intros ?. apply Hn. by right.
Qed.

Lemma split_app_sep sep t s :
  sep ∉ t → split sep (t ++ sep :: s) = t :: split sep s.
Proof.
  induction t as [|c t IH]; intros Hn; simpl.
  - by rewrite N.eqb_refl.
  - destruct (N.eqb_spec c sep) as [->|?].
    + exfalso. apply Hn. by left.
    + rewrite IH; [done|]. intros ?. apply Hn. by right.
Qed.

Lemma split_join sep l :
  l ≠ [] → Forall (λ t, sep ∉ t) l → split sep (join sep l) = l.
Proof.
  induction l as [|t l IH]; [done|].
  intros _ Hall. apply Forall_cons in Hall as [Ht Hl].
  destruct l as [|t' l].
  - simpl. by apply split_no_sep_id.
  - change (join sep (t :: t' :: l)) with (t ++ sep :: join sep (t' :: l)).
    rewrite split_app_sep by done. f_equal. by apply IH.
Qed.

Lemma sorted_set_elem_of l t : t ∈ sorted_set l ↔ t ∈ l.
Proof.
  unfold sorted_set, sorted, set_of.
  rewrite merge_sort_Permutation, elem_of_elements.
  apply elem_of_list_to_set.
Qed.

Lemma sorted_set_NoDup l : NoDup (sorted_set l).
Proof.
  unfold sorted_set, sorted. rewrite merge_sort_Permutation.
  apply NoDup_elements.
Qed.

Lemma sorted_set_Sorted l : Sorted le (sorted_set l).
Proof. apply Sorted_merge_sort, _. Qed.

Lemma sorted_set_not_nil l : l ≠ [] → sorted_set l ≠ [].
Proof.
  destruct l as [|t l]; [done|]. intros _ Hnil.
  assert (t ∈ sorted_set (t :: l)) as Hin
    by (apply sorted_set_elem_of; by left).
  rewrite Hnil in Hin. by apply not_elem_of_nil in Hin.
Qed.

End PyStrFacts.

(** ** The crew column *)

Example crew_cell_b_a_a : crew_cell (py "b, a, a") = py "a,b".
Proof. vm_compute. reflexivity. Qed.

Example crew_cell_john : crew_cell (py "John Smith, Al") = py "Al,JohnSmith".
Proof. vm_compute. reflexivity. Qed.

Section Crew.
Import PyStr PyStrFacts.

Lemma elem_of_join sep l c :
  c ∈ join sep l → c = sep ∨ ∃ t, t ∈ l ∧ c ∈ t.
Proof.
  induction l as [|t l IH]; [by intros ?%not_elem_of_nil|].
  destruct l as [|t' l].
  - simpl. intros ?. right. exists t. split; [by left | done].
  - change (join sep (t :: t' :: l)) with (t ++ sep :: join sep (t' :: l)).
    intros [?|[->|Hin]%elem_of_cons]%elem_of_app.
    + right. exists t. split; [by left | done].
    + by left.
    + destruct (IH Hin) as [?|(t0 & ? & ?)]; [by left|].
      right. exists t0. split; [by right | done].
Qed.

Lemma crew_cell_canonical x : crew_cell x = crew_canonical x.
Proof.
  unfold crew_cell, crew_lambda, crew_canonical.
  rewrite <- split_remove_whitespace.
  case_bool_decide as Hx; [done|].
  rewrite Hx. by vm_compute.
Qed.

Lemma crew_tokens x :
  split comma (crew_cell x)
  = sorted_set (remove_whitespace <$> split comma x).
Proof.
  rewrite crew_cell_canonical. unfold crew_canonical.
  apply split_join.
  - apply sorted_set_not_nil. intros Hnil%fmap_nil_inv.
    by apply split_not_nil in Hnil.
  - apply Forall_forall. intros t Ht.
    rewrite sorted_set_elem_of, list_elem_of_fmap in Ht.
    destruct Ht as (t0 & -> & Ht0).
    apply split_no_sep in Ht0. intros Hin%list_elem_of_filter.
    by destruct Hin.
Qed.

End Crew.

(** C6.  For every crew value other than "Unknown", preprocessing yields the
    comma-join of the sorted, duplicate-free list of the comma-separated
    tokens of the value, each with its white space taken out: the cell equals
    [crew_canonical] of the value, and the joined tokens are in
    non-decreasing [str] order, pairwise distinct, and exactly the stripped
    tokens of the input. *)
Theorem crew_sorted_unique_join {D F : Type} (r : Row str D F) :
  crew r ≠ Unknown →
  crew (normalize_text r) = crew_canonical (crew r) ∧
  ∃ tokens,
    crew (normalize_text r) = PyStr.join comma tokens ∧
    Sorted PyStr.le tokens ∧
    NoDup tokens ∧
    ∀ t, t ∈ tokens ↔
         t ∈ PyStr.remove_whitespace <$> PyStr.split comma (crew r).
Proof.
  intros _. simpl. split; [apply crew_cell_canonical|].
  exists (PyStr.sorted_set
            (PyStr.remove_whitespace <$> PyStr.split comma (crew r))).
  split; [apply crew_cell_canonical|].
  split; [apply PyStrFacts.sorted_set_Sorted|].
  split; [apply PyStrFacts.sorted_set_NoDup|].
  apply PyStrFacts.sorted_set_elem_of.
Qed.

Lemma crew_sorted_unique_join_witness :
  crew (crew_row (py "b, a, a")) ≠ Unknown ∧
  crew (normalize_text (crew_row (py "b, a, a"))) = py "a,b".
Proof.
  assert (crew (crew_row (py "b, a, a")) ≠ Unknown) as Hne
    by (vm_compute; discriminate).
  split; [exact Hne|].
  destruct (crew_sorted_unique_join (crew_row (py "b, a, a")) Hne) as [-> _].
  vm_compute. reflexivity.
Defined.

(** C9.  Crew preprocessing takes out every white-space character, also
    inside a name: no white space is left in the cell, and its comma-separated
    tokens are exactly the tokens of the input with all their white space
    removed, so that "John Smith" becomes the token "JohnSmith". *)
Theorem crew_whitespace_removed_everywhere (x : str) :
  Forall (λ c, PyStr.isspace c = false) (crew_cell x) ∧
  (∀ t', t' ∈ PyStr.split comma (crew_cell x) ↔
         ∃ t, t ∈ PyStr.split comma x ∧ t' = PyStr.remove_whitespace t) ∧
  (py "John Smith" ∈ PyStr.split comma x →
   py "JohnSmith" ∈ PyStr.split comma (crew_cell x)
   ∧ py "John Smith" ∉ PyStr.split comma (crew_cell x)).
Proof.
  assert (∀ t', t' ∈ PyStr.split comma (crew_cell x) ↔
            ∃ t, t ∈ PyStr.split comma x ∧ t' = PyStr.remove_whitespace t)
    as Htok.
  { intros t'. rewrite crew_tokens, PyStrFacts.sorted_set_elem_of.
    rewrite list_elem_of_fmap.
    split; [intros (t & -> & ?) | intros (t & ? & ->)]; eauto. }
  split; [|split; [exact Htok|]].
  - apply Forall_forall. intros c Hc.
    rewrite crew_cell_canonical in Hc.
    apply elem_of_join in Hc as [->|(t & Ht & Hc)]; [done|].
    rewrite PyStrFacts.sorted_set_elem_of, list_elem_of_fmap in Ht.
    destruct Ht as (t0 & -> & _).
    by apply list_elem_of_filter in Hc as [? _].
  - intros Hin. split.
    + apply Htok. exists (py "John Smith"). split; [done|]. by vm_compute.
    + intros (t & _ & Ht)%Htok.
      assert (32 ∈ PyStr.remove_whitespace t) as Hsp.
      { rewrite <- Ht. vm_compute. do 4 right. left. }
      by apply list_elem_of_filter in Hsp as [? _].
Qed.

(** ** Preprocessing *)

Section Preprocess.
Context `{Env}.

Lemma traverse_coerce {A B} (parse : str → option B) (f : A → option str)
    (l : list A) :
  traverse (λ r, Pandas.convert_cell parse Pandas.errors_coerce (f r)) l
  = Ok ((λ r, f r ≫= parse) <$> l).
Proof.
  induction l as [|r l IH]; [done|].
  simpl. rewrite IH. unfold Pandas.convert_cell.
  destruct (f r) as [s|]; [|done]. simpl. by destruct (parse s).
Qed.

Lemma to_datetime_coerce {T F} (data : list (Row T (option str) F)) :
  to_datetime Pandas.errors_coerce data
  = Ok ((λ r, set_date_x (date_x r ≫= parse_datetime) r) <$> data).
Proof.
  unfold to_datetime. induction data as [|r data IH]; [done|].
  simpl. rewrite IH. unfold Pandas.convert_cell.
  destruct (date_x r) as [s|]; [|done]. simpl.
  by destruct (parse_datetime s).
Qed.

Lemma zip_with_numeric {T D} (data : list (Row T D (option str))) :
  zip_with (λ r '(s, (b, v)),
      set_numeric (Pandas.fillna zero s) (Pandas.fillna zero b)
                  (Pandas.fillna zero v) r)
    data
    (zip ((λ r, score r ≫= parse_numeric) <$> data)
       (zip ((λ r, budget_x r ≫= parse_numeric) <$> data)
            ((λ r, revenue r ≫= parse_numeric) <$> data)))
  = (λ r, set_numeric (number_or_zero (score r))
                      (number_or_zero (budget_x r))
                      (number_or_zero (revenue r)) r) <$> data.
Proof.
  induction data as [|r data IH]; [done|].
  simpl. f_equal. exact IH.
Qed.

Lemma to_numeric_fillna_coerce {T D} (data : list (Row T D (option str))) :
  to_numeric_fillna Pandas.errors_coerce data
  = Ok ((λ r, set_numeric (number_or_zero (score r))
                          (number_or_zero (budget_x r))
                          (number_or_zero (revenue r)) r) <$> data).
Proof.
  unfold to_numeric_fillna. rewrite !traverse_coerce. simpl.
  by rewrite zip_with_numeric.
Qed.

Lemma stage_cleaned r :
  fill_numeric <$> (d ← date_x (stage r); Some (set_date_x d (stage r)))
  = cleaned r.
Proof.
  unfold cleaned, stage, fill_numeric. rewrite <- crew_cell_canonical.
  destruct r as [n d s g o c l b v k t].
  simpl. destruct (d ≫= parse_datetime); [|done]. simpl.
  by destruct g, c, l, k, t.
Qed.

Lemma omap_cons_eq {A B} (f : A → option B) x l :
  omap f (x :: l)
  = match f x with Some y => y :: omap f l | None => omap f l end.
Proof. done. Qed.

Lemma staged_cleaned rows :
  fill_numeric <$> dropna_date_x (stage <$> rows) = omap cleaned rows.
Proof.
  unfold dropna_date_x.
  induction rows as [|r rows IH]; [done|].
  rewrite fmap_cons, !omap_cons_eq, <- stage_cleaned, <- IH.
  by destruct (date_x (stage r)).
Qed.

Lemma staged_isna_sum rows :
  isna_sum (stage <$> rows)
  = length (filter (λ r, date_x r ≫= parse_datetime = None) rows).
Proof.
  unfold isna_sum.
  induction rows as [|r rows IH]; [done|].
  rewrite fmap_cons.
  destruct (decide (date_x r ≫= parse_datetime = None)) as [Hd|Hd].
  - rewrite !filter_cons_True by done. simpl. by rewrite IH.
  - rewrite !filter_cons_False by done. exact IH.
Qed.

Lemma length_omap_cleaned rows :
  (length (omap cleaned rows)
   + length (filter (λ r, date_x r ≫= parse_datetime = None) rows)
   = length rows)%nat.
Proof.
  induction rows as [|r rows IH]; [done|].
  rewrite omap_cons_eq. unfold cleaned at 1.
  destruct (date_x r ≫= parse_datetime) as [d|] eqn:Hd.
  - rewrite filter_cons_False by (rewrite Hd; done).
    rewrite !length_cons. lia.
  - rewrite filter_cons_True by done. rewrite !length_cons. lia.
Qed.

Lemma stage_fmap
    (rows : list (Row (option str) (option str) (option str))) :
  (λ r, set_date_x (date_x r ≫= parse_datetime) r)
    <$> (normalize_text <$> (map_text (Pandas.fillna Unknown) <$> rows))
  = stage <$> rows.
Proof. by rewrite <- !list_fmap_compose. Qed.

Lemma _preprocess_csv_run (w : world) :
  let rows := Pandas.drop_duplicates (λ r, (names r, date_x r))
                (Pandas.read_csv (csv_file w)) in
  let invalid :=
    length (filter (λ r, date_x r ≫= parse_datetime = None) rows) in
  let data := omap cleaned rows in
  _preprocess_csv w
  = (Ok data,
     World (committed w) (working w) (in_tx w) (faults w) (log w)
           (CsvSaved :: PreprocessingCsv ::
              (if bool_decide (0 < invalid)%nat
               then [InvalidDatesWarning invalid] else []) ++ console w)
           (csv_file w) (Some data)).
Proof.
  intros rows invalid data.
  unfold _preprocess_csv, bind, gets, lift.
  rewrite to_datetime_coerce, stage_fmap, to_numeric_fillna_coerce.
  fold rows. rewrite staged_isna_sum. fold invalid.
  change (λ r, set_numeric _ _ _ r) with fill_numeric.
  rewrite staged_cleaned. fold data.
  by destruct (bool_decide (0 < invalid)%nat).
Qed.

End Preprocess.

(** C5.  Preprocessing never raises: for every file it returns a frame.
    That frame holds, in order, the rows of the de-duplicated file whose date
    parses; the others are dropped, their number is the count reported in the
    warning (printed when it is positive), and kept plus dropped rows are all
    the de-duplicated rows.  In a kept row a budget, revenue or score that is
    missing or does not parse is 0.0, and a missing crew, genre, country,
    orig_lang or status is "Unknown"; the cell text "N/A" is read as
    missing. *)
Theorem preprocess_degrades_never_raises `{Env} (w : world) :
  let rows := Pandas.drop_duplicates (λ r, (names r, date_x r))
                (Pandas.read_csv (csv_file w)) in
  let invalid :=
    length (filter (λ r, date_x r ≫= parse_datetime = None) rows) in
  ∃ data w',
    _preprocess_csv w = (Ok data, w') ∧
    data = omap cleaned rows ∧
    (length data + invalid = length rows)%nat ∧
    console w'
    = CsvSaved :: PreprocessingCsv ::
        (if bool_decide (0 < invalid)%nat
         then [InvalidDatesWarning invalid] else []) ++ console w ∧
    (∀ r, date_x r ≫= parse_datetime = None → cleaned r = None) ∧
    (∀ r row, cleaned r = Some row →
       (budget_x r ≫= parse_numeric = None → budget_x row = zero) ∧
       (revenue r ≫= parse_numeric = None → revenue row = zero) ∧
       (score r ≫= parse_numeric = None → score row = zero) ∧
       (crew r = None → crew row = Unknown) ∧
       (genre r = None → genre row = Unknown) ∧
       (country r = None → country row = Unknown) ∧
       (orig_lang r = None → orig_lang row = Unknown) ∧
       (status r = None → status row = Unknown)) ∧
    Pandas.read_cell (py "N/A") = None.
Proof.
  intros rows invalid. eexists _, _.
  split; [apply _preprocess_csv_run|].
  split; [done|]. split; [apply length_omap_cleaned|]. split; [done|].
  split; [|split; [|done]].
  - intros r Hr. unfold cleaned. by rewrite Hr.
  - intros r row. unfold cleaned.
    destruct (date_x r ≫= parse_datetime) as [d|]; [|done].
    intros [= <-]. simpl. unfold number_or_zero.
    repeat split; intros ->; done.
Qed.

(** ** Runs of the session operations *)

Section Runs.
Context `{Env}.

Lemma bind_Ok {A B} (m : M A) (f : A → M B) w b w' :
  bind m f w = (Ok b, w') ↔
  ∃ a w1, m w = (Ok a, w1) ∧ f a w1 = (Ok b, w').
Proof.
  unfold bind. split.
  - destruct (m w) as [[a|e] w1]; [eauto | done].
  - intros (a & w1 & -> & ?). done.
Qed.

Lemma bind_run {A B} (m : M A) (f : A → M B) w r w' :
  bind m f w = (r, w') ↔
  (∃ e, m w = (Raise e, w') ∧ r = Raise e) ∨
  (∃ a w1, m w = (Ok a, w1) ∧ f a w1 = (r, w')).
Proof.
  unfold bind. split.
  - destruct (m w) as [[a|e] w1]; [eauto|].
    intros [= <- <-]. eauto.
  - intros [(e & -> & ->)|(a & w1 & -> & ?)]; done.
Qed.

Ltac by_cases_on w :=
  destruct w as [c wk [] [[|?]|] lg cs fl sv];
  unfold execute_select, execute_insert, flush, commit, rollback, tick,
    bind, modify, gets, ret, autobegin, sent, set_session, view;
  simpl; intros ?; simplify_eq; simpl; split_and?; eauto.

Lemma tick_Ok w u w' :
  tick w = (Ok u, w') →
  committed w' = committed w ∧ working w' = working w ∧
  in_tx w' = in_tx w ∧ log w' = log w ∧ console w' = console w.
Proof. by_cases_on w. Qed.

Lemma tick_Raise w e w' :
  tick w = (Raise e, w') →
  e = SQLAlchemyError OperationalError ∧
  committed w' = committed w ∧ working w' = working w ∧
  in_tx w' = in_tx w ∧ log w' = log w ∧ console w' = console w ∧
  faults w' = None ∧ is_Some (faults w).
Proof. by_cases_on w. Qed.

Lemma execute_select_Ok {A} t (q : store → A) w a w' :
  execute_select t q w = (Ok a, w') →
  a = q (view w) ∧ view w' = view w ∧ committed w' = committed w ∧
  in_tx w' = true ∧ log w' = SELECT t :: log w ∧ console w' = console w.
Proof. by_cases_on w. Qed.

Lemma execute_insert_Ok t n f w u w' :
  execute_insert t n f w = (Ok u, w') →
  view w' = f (view w) ∧ committed w' = committed w ∧
  in_tx w' = true ∧ log w' = INSERT t n :: log w ∧
  console w' = console w.
Proof. by_cases_on w. Qed.

Lemma flush_Ok w u w' :
  flush w = (Ok u, w') →
  view w' = view w ∧ committed w' = committed w ∧
  in_tx w' = in_tx w ∧ log w' = FLUSH :: log w ∧ console w' = console w.
Proof. by_cases_on w. Qed.

Lemma reads_only_refl w : reads_only w w.
Proof. split; [done|]. exists []. by split. Qed.

Lemma reads_only_trans w1 w2 w3 :
  reads_only w1 w2 → reads_only w2 w3 → reads_only w1 w3.
Proof.
  intros [Hv1 (l1 & Hl1 & Hf1)] [Hv2 (l2 & Hl2 & Hf2)].
  split; [congruence|]. exists (l2 ++ l1).
  split; [by rewrite Hl2, Hl1, app_assoc|]. by apply Forall_app.
Qed.

Lemma execute_select_reads {A} t (q : store → A) w a w' :
  execute_select t q w = (Ok a, w') → reads_only w w'.
Proof.
  intros (_ & Hv & _ & _ & Hl & _)%execute_select_Ok.
  split; [done|]. exists [SELECT t]. split; [done|]. by repeat constructor.
Qed.

End Runs.

(** ** Chunks *)

Section Chunks.
Context `{Env}.

Lemma concat_strides {A} (n cnt : nat) (l : list A) :
  (length l ≤ cnt * n)%nat →
  concat ((λ k, take n (drop (k * n) l)) <$> seq 0 cnt) = l.
Proof.
  revert l. induction cnt as [|cnt IH]; intros l Hlen.
  - destruct l; [done | simpl in Hlen; lia].
  - rewrite <- cons_seq, <- fmap_S_seq, fmap_cons, <- list_fmap_compose.
    simpl. transitivity (take n l ++ drop n l); [|apply take_drop].
    f_equal.
    etrans; [|apply (IH (drop n l)); rewrite length_drop; lia].
    f_equal. apply list_fmap_ext. intros _ k _. simpl.
    by rewrite drop_drop.
Qed.

Lemma concat_chunks {A} (l : list A) : concat (chunks l) = l.
Proof.
  unfold chunks, range_step, slice. rewrite <- list_fmap_compose.
  etrans; [|apply (concat_strides CHUNK_SIZE
                     ((length l + CHUNK_SIZE - 1) / CHUNK_SIZE) l)].
  - f_equal. apply list_fmap_ext. intros _ k _. simpl.
    f_equal. lia.
  - pose proof (Nat.div_mod_eq (length l + CHUNK_SIZE - 1) CHUNK_SIZE).
    pose proof (Nat.mod_upper_bound (length l + CHUNK_SIZE - 1)
                  CHUNK_SIZE ltac:(done)).
    lia.
Qed.

Lemma chunks_fmap {A B} (f : A → B) (l : list A) :
  chunks (f <$> l) = (λ c : list A, f <$> c) <$> chunks l.
Proof.
  unfold chunks, range_step, slice.
  rewrite length_fmap, <- !list_fmap_compose.
  apply list_fmap_ext. intros _ k _. simpl.
  by rewrite fmap_take, fmap_drop.
Qed.

End Chunks.

(** ** Reference resolution *)

Section Resolve.
Context `{Env}.
Variables (m : model) (field : str).

Lemma last_with_app (k : str) (t1 t2 : list entity) :
  last_with field k (t1 ++ t2)
  = match last_with field k t2 with
    | Some o => Some o
    | None => last_with field k t1
    end.
Proof.
  induction t1 as [|o t1 IH]; simpl.
  - by destruct (last_with field k t2).
  - rewrite IH. by destruct (last_with field k t2).
Qed.

Lemma last_with_Some (k : str) (t : list entity) o :
  last_with field k t = Some o → o ∈ t ∧ getattr o field = Some k.
Proof.
  induction t as [|o' t IH]; simpl; [done|].
  destruct (last_with field k t) as [o''|].
  - intros [= ->]. destruct IH as [? ?]; [done|]. split; [by right|done].
  - case_bool_decide; [|done]. intros [= ->]. split; [by left|done].
Qed.

Lemma last_with_is_Some (k : str) (t : list entity) o :
  o ∈ t → getattr o field = Some k → is_Some (last_with field k t).
Proof.
  induction t as [|o' t IH]; simpl; [by intros ?%not_elem_of_nil|].
  intros [->|Hin]%elem_of_cons Hk.
  - destruct (last_with field k t); [eauto|].
    rewrite bool_decide_eq_true_2 by done. eauto.
  - destruct (IH Hin Hk) as [o'' ->]. eauto.
Qed.

Lemma last_with_None (k : str) (t : list entity) :
  (∀ o, o ∈ t → getattr o field ≠ Some k) →
  last_with field k t = None.
Proof.
  intros Hno. destruct (last_with field k t) as [o|] eqn:Ho; [|done].
  apply last_with_Some in Ho as [? ?]. by destruct (Hno o).
Qed.

Lemma last_with_filter (k : str) (chunk : list str) (t : list entity) :
  last_with field k
    (filter (λ o, in_ (getattr o field) chunk = true) t)
  = if bool_decide (k ∈ chunk) then last_with field k t else None.
Proof.
  induction t as [|o t IH]; [by case_bool_decide|].
  destruct (decide (in_ (getattr o field) chunk = true)) as [Hin|Hin].
  - rewrite filter_cons_True by done. simpl. rewrite IH.
    case_bool_decide as Hk; [done|].
    case_bool_decide as Ho; [|done].
    rewrite Ho in Hin. simpl in Hin. by apply bool_decide_eq_true in Hin.
  - rewrite filter_cons_False by done. rewrite IH. simpl.
    case_bool_decide as Hk; [|done].
    destruct (last_with field k t); [done|].
    case_bool_decide as Ho; [|done].
    rewrite Ho in Hin. simpl in Hin.
    by rewrite bool_decide_eq_true_2 in Hin.
Qed.

Lemma merge_objs_lookup (d : gmap str entity) objs (k : str) :
  merge_objs field d objs !! k
  = match last_with field k objs with
    | Some o => Some o
    | None => d !! k
    end.
Proof.
  unfold merge_objs. revert d.
  induction objs as [|o objs IH]; intros d; [done|].
  simpl. rewrite IH. destruct (last_with field k objs); [done|].
  destruct (getattr o field) as [k'|] eqn:Hk'.
  - case_bool_decide as Hk; simplify_eq.
    + by rewrite lookup_insert_eq.
    + rewrite lookup_insert_ne; [done|]. congruence.
  - by rewrite bool_decide_eq_false_2.
Qed.

Lemma select_merge_chunks_Ok (cs : list (list str))
    (d : gmap str entity) w d' w' :
  foldM (λ d chunk,
           let* result := select_in m field chunk in
           ret (merge_objs field d result)) d cs w = (Ok d', w') →
  reads_only w w' ∧
  ∀ k : str, d' !! k
       = if bool_decide (k ∈ concat cs)
         then match last_with field k (table m (view w)) with
              | Some o => Some o
              | None => d !! k
              end
         else d !! k.
Proof.
  revert d w. induction cs as [|c cs IH]; intros d w; simpl.
  - intros [= <- <-]. split; [apply reads_only_refl | done].
  - intros (d1 & w1 & Hbody & Hrest)%bind_Ok.
    apply bind_Ok in Hbody as (result & w1' & Hsel & [= <- <-]).
    pose proof (execute_select_reads _ _ _ _ _ Hsel) as Hr1.
    apply execute_select_Ok in Hsel as (-> & Hv & _).
    apply IH in Hrest as [Hr2 Hlook].
    split; [by eapply reads_only_trans|].
    intros k. rewrite Hlook, Hv, merge_objs_lookup, last_with_filter.
    destruct (last_with field k (table m (view w))) as [o|];
      repeat case_bool_decide; try done; set_solver.
Qed.

Lemma select_merge_Ok (items : list str) (d : gmap str entity) w d' w' :
  select_merge m field items d w = (Ok d', w') →
  reads_only w w' ∧
  ∀ k : str, d' !! k
       = if bool_decide (k ∈ items)
         then match last_with field k (table m (view w)) with
              | Some o => Some o
              | None => d !! k
              end
         else d !! k.
Proof.
  unfold select_merge. intros Hrun%select_merge_chunks_Ok.
  by rewrite concat_chunks in Hrun.
Qed.

Lemma table_set_table t st : table m (set_table m t st) = t.
Proof. by destruct m. Qed.

Lemma values_new_rows {A} (t : list (obj A)) vals :
  values <$> new_rows t vals = vals.
Proof.
  unfold new_rows. generalize (next_id t). intros n.
  revert n. induction vals as [|v vals IH]; intros n; [done|].
  simpl. f_equal. rewrite <- (IH (S n)) at 2.
  f_equal. apply imap_ext. intros i x _. simpl. f_equal. lia.
Qed.

Lemma insert_chunks_Ok (cs : list (list (gmap str str))) w u w' :
  for_each cs (λ chunk,
      execute_insert (EntityTable m) (length chunk)
        (λ st, set_table m (insert_values (table m st) chunk) st) ;;
      flush) w = (Ok u, w') →
  ∃ rows, table m (view w') = table m (view w) ++ rows
          ∧ values <$> rows = concat cs.
Proof.
  unfold for_each. revert w u.
  induction cs as [|c cs IH]; intros w u; simpl.
  - intros [= <- <-]. exists []. by rewrite app_nil_r.
  - intros ([] & w1 & Hbody & Hrest)%bind_Ok.
    apply bind_Ok in Hbody as (? & w0 & Hins & Hfl).
    apply execute_insert_Ok in Hins as (Hv0 & _).
    apply flush_Ok in Hfl as (Hv1 & _).
    apply IH in Hrest as (rows & Ht & Hvals).
    exists (new_rows (table m (view w)) c ++ rows). split.
    + rewrite Ht, Hv1, Hv0, table_set_table. unfold insert_values.
      by rewrite app_assoc.
    + by rewrite fmap_app, values_new_rows, Hvals.
Qed.

End Resolve.

Section ResolveRun.
Context `{Env}.
Variables (m : model) (field : str).

Lemma existing_Ok (items : list str) (w : world) (d : gmap str entity)
    (w' : world) :
  (match items with
   | [] => ret ∅
   | _ => select_merge m field items ∅
   end) w = (Ok d, w') →
  reads_only w w' ∧
  ∀ k : str, d !! k = if bool_decide (k ∈ items)
                      then last_with field k (table m (view w)) else None.
Proof.
  destruct items as [|i items].
  - intros [= <- <-]. split; [apply reads_only_refl|]. intros k.
    rewrite lookup_empty.
    by rewrite bool_decide_eq_false_2 by apply not_elem_of_nil.
  - intros [Hr Hlook]%select_merge_Ok. split; [done|]. intros k.
    rewrite Hlook, lookup_empty.
    by destruct (last_with field k (table m (view w))); case_bool_decide.
Qed.

Lemma new_row_key (rows : list entity) (new_items : list str) :
  values <$> rows
  = (λ item, {[ field := item ]} : gmap str str) <$> new_items →
  (∀ k, k ∈ new_items → ∃ o, o ∈ rows ∧ getattr o field = Some k) ∧
  (∀ o, o ∈ rows →
        ∃ k, k ∈ new_items ∧ values o = {[ field := k ]}
             ∧ getattr o field = Some k).
Proof.
  intros Hvals. split.
  - intros k Hk.
    assert (({[ field := k ]} : gmap str str) ∈ values <$> rows) as Hin.
    { rewrite Hvals. apply list_elem_of_fmap. eauto. }
    apply list_elem_of_fmap in Hin as (o & Ho & Hin).
    exists o. split; [done|]. unfold getattr. rewrite <- Ho.
    apply lookup_singleton_eq.
  - intros o Ho.
    assert (values o ∈ values <$> rows) as Hin
      by (apply list_elem_of_fmap; eauto).
    rewrite Hvals in Hin. apply list_elem_of_fmap in Hin as (k & Hk & Hin).
    exists k. split_and!; [done..|]. unfold getattr. rewrite Hk.
    apply lookup_singleton_eq.
Qed.

(** What a completed [_get_or_create_bulk] returns and leaves behind. *)
Lemma _get_or_create_bulk_Ok (items : list str) (w : world) d
    (w' : world) :
  _get_or_create_bulk m items field w = (Ok d, w') →
  (∀ k : str, d !! k = if bool_decide (k ∈ items)
                       then last_with field k (table m (view w'))
                       else None) ∧
  (∀ k, k ∈ items → is_Some (last_with field k (table m (view w')))) ∧
  (∃ rows, table m (view w') = table m (view w) ++ rows ∧
     ∀ o, o ∈ rows →
          ∃ k, k ∈ items ∧ last_with field k (table m (view w)) = None
               ∧ values o = {[ field := k ]}) ∧
  ((∀ k, k ∈ items → is_Some (last_with field k (table m (view w)))) →
   reads_only w w').
Proof.
  unfold _get_or_create_bulk.
  intros (dict1 & w1 & [Hr1 Hd1]%existing_Ok & Hrun)%bind_Ok.
  set (new_items := filter (λ item, dict1 !! item = None) items) in *.
  assert (∀ k, k ∈ new_items ↔
               k ∈ items ∧ last_with field k (table m (view w)) = None)
    as Hnew.
  { intros k. unfold new_items. rewrite list_elem_of_filter, Hd1.
    case_bool_decide; naive_solver. }
  destruct ((λ item, {[ field := item ]} : gmap str str) <$> new_items)
    as [|rec recs] eqn:Hrecs.
  - injection Hrun as <- <-. apply fmap_nil_inv in Hrecs.
    assert (∀ k, k ∈ items →
              is_Some (last_with field k (table m (view w)))) as Hall.
    { intros k Hk.
      destruct (last_with field k (table m (view w))) eqn:Hl; [eauto|].
      assert (k ∈ new_items) as Hin by (by apply Hnew).
      rewrite Hrecs in Hin. by apply not_elem_of_nil in Hin. }
    destruct Hr1 as [Hv1 Hl1]. rewrite Hv1. split_and!; [done..| |done].
    exists []. rewrite app_nil_r. split; [done|].
    by intros o ?%not_elem_of_nil.
  - assert (∃ k, k ∈ new_items) as [k0 Hk0].
    { assert (rec ∈ (λ item, {[ field := item ]} : gmap str str)
                      <$> new_items) as Hin by (rewrite Hrecs; left).
      apply list_elem_of_fmap in Hin as (k & _ & ?). eauto. }
    rewrite <- Hrecs in Hrun. clear rec recs Hrecs.
    apply bind_Ok in Hrun as (u & w2 & Hins & Hsel).
    apply insert_chunks_Ok in Hins as (rows & Ht & Hvals).
    rewrite concat_chunks in Hvals.
    apply new_row_key in Hvals as [Hkey Hrow].
    apply select_merge_Ok in Hsel as [[Hv2 _] Hd].
    destruct Hr1 as [Hv1 _]. rewrite Hv2, Ht, Hv1.
    assert (∀ k : str,
              d !! k = if bool_decide (k ∈ items)
                       then last_with field k (table m (view w) ++ rows)
                       else None) as Hlook.
    { intros k. rewrite Hd, Ht, Hv1, Hd1, last_with_app.
      case_bool_decide as Hk.
      - apply Hnew in Hk as [Hk Hnone].
        rewrite bool_decide_eq_true_2 by done.
        destruct (Hkey k) as (o & Ho & Hattr); [by apply Hnew|].
        destruct (last_with_is_Some field k rows o Ho Hattr) as [o' ->].
        done.
      - rewrite (last_with_None field k rows); [done|].
        intros o Ho Hattr. destruct (Hrow o Ho) as (k' & Hk' & _ & Hattr').
        apply Hk. congruence. }
    split_and!.
    + exact Hlook.
    + intros k Hk. rewrite last_with_app.
      destruct (last_with field k rows) as [o|] eqn:Hl; [eauto|].
      destruct (last_with field k (table m (view w))) eqn:Hl'; [eauto|].
      destruct (Hkey k) as (o & Ho & Hattr); [by apply Hnew|].
      destruct (last_with_is_Some field k rows o Ho Hattr) as [o' Ho'].
      congruence.
    + exists rows. split; [done|]. intros o Ho.
      destruct (Hrow o Ho) as (k & [Hk Hnone]%Hnew & Hval & _). eauto.
    + intros Hall. exfalso.
      destruct (Hnew k0) as [[Hk Hnone] _]; [done|].
      destruct (Hall k0 Hk) as [o Ho]. congruence.
Qed.

End ResolveRun.

(** ** Runs without a failing statement *)

Create HintDb tx discriminated.

Section Returns.
Context `{Env}.

Ltac by_world_total :=
  let w := fresh "w" in let Hf := fresh "Hf" in
  intros w Hf;
  destruct w as [c wk [] ft lg cs fl sv]; simpl in Hf; subst;
  unfold execute_select, execute_insert, flush, commit, rollback, tick,
    in_transaction, print, to_csv, bind, modify, gets, ret,
    autobegin, sent, set_session, view;
  simpl; eauto.

Lemma returns_ret {A} (a : A) : returns (ret a).
Proof. by_world_total. Qed.

Lemma returns_print p : returns (print p).
Proof. by_world_total. Qed.

Lemma returns_flush : returns flush.
Proof. by_world_total. Qed.

Lemma returns_execute_select {A} t (q : store → A) :
  returns (execute_select t q).
Proof. by_world_total. Qed.

Lemma returns_execute_insert t n f : returns (execute_insert t n f).
Proof. by_world_total. Qed.

Lemma returns_bind {A B} (m : M A) (f : A → M B) :
  returns m → (∀ a, returns (f a)) → returns (bind m f).
Proof.
  intros Hm Hf w Hw. destruct (Hm w Hw) as (a & w1 & Hrun & Hw1).
  destruct (Hf a w1 Hw1) as (b & w2 & Hk & Hw2).
  exists b, w2. split; [|done]. apply bind_Ok. eauto.
Qed.

Lemma returns_foldM {A B} (body : B → A → M B) acc (l : list A) :
  (∀ acc x, returns (body acc x)) → returns (foldM body acc l).
Proof.
  intros Hbody. revert acc. induction l as [|x l IH]; intros acc; simpl.
  - apply returns_ret.
  - apply returns_bind; [apply Hbody | intros acc'; apply IH].
Qed.

Lemma returns_for_each {A} (l : list A) (body : A → M unit) :
  (∀ x, returns (body x)) → returns (for_each l body).
Proof. intros Hbody. apply returns_foldM. intros _ x. apply Hbody. Qed.

Hint Resolve returns_ret returns_print returns_flush returns_execute_select
  returns_execute_insert : tx.

Ltac returns_step :=
  match goal with
  | |- returns (bind _ _) => apply returns_bind; [|intros ?]
  | |- returns (foldM _ _ _) => apply returns_foldM; intros ? ?
  | |- returns (for_each _ _) => apply returns_for_each; intros ?
  | |- returns (if ?b then _ else _) => destruct b
  | |- returns (match ?x with _ => _ end) => destruct x
  | |- returns _ => solve [auto with tx]
  end.

Lemma returns_select_merge m field items d :
  returns (select_merge m field items d).
Proof. unfold select_merge, select_in. repeat returns_step. Qed.

Hint Resolve returns_select_merge : tx.

Lemma returns__get_or_create_bulk m items field :
  returns (_get_or_create_bulk m items field).
Proof. unfold _get_or_create_bulk. repeat returns_step. Qed.

Hint Resolve returns__get_or_create_bulk : tx.

Lemma returns__prepare_reference_data data :
  returns (_prepare_reference_data data).
Proof. unfold _prepare_reference_data. repeat returns_step. Qed.

End Returns.

(** C4.  [_get_or_create_bulk] returns whenever no statement fails, and the
    mapping it returns has every input string as a key, exactly once; its
    keys are input strings; and each input string is mapped to a row of the
    entity table whose unique field is that string, a row that was there
    before the call or one of the rows the call appended. *)
Theorem get_or_create_bulk_maps_every_item `{Env} (m : model)
    (items : list str) (unique_field : str) (w : world) :
  (faults w = None →
   completes (_get_or_create_bulk m items unique_field w) = true) ∧
  ∀ (d : gmap str entity) (w' : world),
    _get_or_create_bulk m items unique_field w = (Ok d, w') →
    NoDup (map_to_list d).*1 ∧
    (∀ k, k ∈ (map_to_list d).*1 ↔ k ∈ items) ∧
    ∃ created,
      table m (view w') = table m (view w) ++ created ∧
      ∀ k, k ∈ items →
           ∃ o, d !! k = Some o ∧
                getattr o unique_field = Some k ∧
                o ∈ table m (view w') ∧
                (o ∈ table m (view w) ∨ o ∈ created).
Proof.
  split.
  { intros Hw.
    by destruct (returns__get_or_create_bulk m items unique_field w Hw)
      as (d & w' & -> & _). }
  intros d w' Hrun.
  apply _get_or_create_bulk_Ok in Hrun as (Hlook & Hall & (rows & Ht & _) & _).
  split; [apply NoDup_fst_map_to_list|]. split.
  - intros k. rewrite list_elem_of_fmap. split.
    + intros ([k' o] & -> & Hin). apply elem_of_map_to_list in Hin.
      simpl in *. rewrite Hlook in Hin. by case_bool_decide.
    + intros Hk. destruct (Hall k Hk) as [o Ho].
      exists (k, o). split; [done|]. apply elem_of_map_to_list.
      rewrite Hlook. by rewrite bool_decide_eq_true_2.
  - exists rows. split; [done|]. intros k Hk.
    destruct (Hall k Hk) as [o Ho]. exists o.
    pose proof (last_with_Some _ _ _ _ Ho) as [Hin Hattr].
    split_and!; [|done..|].
    + rewrite Hlook. by rewrite bool_decide_eq_true_2.
    + rewrite Ht in Hin. by apply elem_of_app in Hin.
Qed.

(** C3.  Run twice in sequence with the same items, [_get_or_create_bulk]
    returns the same mapping the second time (the same rows, hence the same
    identifiers for the same keys), and the second run inserts nothing: the
    tables are as the first run left them and it sent no INSERT.  Both runs
    return whenever no statement fails. *)
Theorem get_or_create_bulk_idempotent `{Env} (m : model) (items : list str)
    (unique_field : str) (w : world) :
  (faults w = None →
   ∃ d1 w1 d2 w2,
     _get_or_create_bulk m items unique_field w = (Ok d1, w1) ∧
     _get_or_create_bulk m items unique_field w1 = (Ok d2, w2)) ∧
  ∀ (d1 : gmap str entity) (w1 : world) (d2 : gmap str entity) (w2 : world),
    _get_or_create_bulk m items unique_field w = (Ok d1, w1) →
    _get_or_create_bulk m items unique_field w1 = (Ok d2, w2) →
    d2 = d1 ∧
    id_of <$> d2 = id_of <$> d1 ∧
    view w2 = view w1 ∧
    ∃ sent, log w2 = sent ++ log w1 ∧ Forall (λ s, is_write s = false) sent.
Proof.
  split.
  { intros Hw.
    destruct (returns__get_or_create_bulk m items unique_field w Hw)
      as (d1 & w1 & Hrun1 & Hw1).
    destruct (returns__get_or_create_bulk m items unique_field w1 Hw1)
      as (d2 & w2 & Hrun2 & _).
    eauto 10. }
  intros d1 w1 d2 w2 Hrun1 Hrun2.
  apply _get_or_create_bulk_Ok in Hrun1 as (Hlook1 & Hall1 & _).
  apply _get_or_create_bulk_Ok in Hrun2 as (Hlook2 & _ & _ & Hreads).
  destruct (Hreads Hall1) as [Hv Hlog].
  assert (d2 = d1) as ->.
  { apply map_eq. intros k. by rewrite Hlook1, Hlook2, Hv. }
  done.
Qed.

(** ** Association building *)

Section Associations.
Context `{Env}.

Lemma append_pairs_Ok ref_map movie_id acc (tokens : list str) out :
  append_pairs ref_map movie_id acc tokens = Ok out →
  out = acc ++ ((λ t, (movie_id, ref_id ref_map t))
                  <$> filter (λ t, t ≠ []) (PyStr.strip <$> tokens)) ∧
  Forall (λ t, is_Some (ref_map !! t))
         (filter (λ t, t ≠ []) (PyStr.strip <$> tokens)).
Proof.
  revert acc. induction tokens as [|t tokens IH]; intros acc; simpl.
  - intros [= <-]. by rewrite app_nil_r.
  - case_bool_decide as Ht.
    + rewrite filter_cons_True by done. unfold getitem at 1.
      destruct (ref_map !! PyStr.strip t) as [o|] eqn:Ho; [|done].
      simpl. intros [-> Hall]%IH. split.
      * rewrite <- app_assoc. simpl. unfold ref_id at 2. by rewrite Ho.
      * constructor; [by rewrite Ho | done].
    + rewrite filter_cons_False by (intros Hn; by apply Hn). apply IH.
Qed.

Lemma append_pairs_total ref_map movie_id acc (tokens : list str) :
  Forall (λ t, is_Some (ref_map !! t))
         (filter (λ t, t ≠ []) (PyStr.strip <$> tokens)) →
  ∃ out, append_pairs ref_map movie_id acc tokens = Ok out.
Proof.
  revert acc. induction tokens as [|t tokens IH]; intros acc; simpl.
  - eauto.
  - case_bool_decide as Ht.
    + rewrite filter_cons_True by done.
      intros [[o Ho] Hall]%Forall_cons. unfold getitem. rewrite Ho. simpl.
      by apply IH.
    + rewrite filter_cons_False by (intros Hn; by apply Hn). apply IH.
Qed.

Lemma associations_from_Ok i (data : frame) movie_ids genre_map actor_map
    language_map acc out :
  associations_from i data movie_ids genre_map actor_map language_map acc
  = Ok out →
  (length data ≤ length (drop i movie_ids))%nat ∧
  out.1.1 = acc.1.1 ++ concat (zip_with
              (λ row movie_id, pairs_for genre_map movie_id (genre row))
              data (drop i movie_ids)) ∧
  out.1.2 = acc.1.2 ++ concat (zip_with
              (λ row movie_id, pairs_for actor_map movie_id (crew row))
              data (drop i movie_ids)) ∧
  out.2 = acc.2 ++ concat (zip_with
            (λ row movie_id, pairs_for language_map movie_id (orig_lang row))
            data (drop i movie_ids)) ∧
  ∀ row, row ∈ data →
    (∀ t, t ∈ nonempty_tokens (genre row) → is_Some (genre_map !! t)) ∧
    (∀ t, t ∈ nonempty_tokens (crew row) → is_Some (actor_map !! t)) ∧
    (∀ t, t ∈ nonempty_tokens (orig_lang row)
          → is_Some (language_map !! t)).
Proof.
  revert i acc. induction data as [|row data IH]; intros i acc.
  - intros [= <-]. simpl. rewrite !app_nil_r.
    split_and!; [lia|done..|]. by intros row ?%not_elem_of_nil.
  - destruct acc as [[mg ma] ml]. simpl. unfold index at 1.
    destruct (movie_ids !! i) as [movie_id|] eqn:Hid; [|done]. simpl.
    destruct (append_pairs genre_map _ _ _) as [mg'|] eqn:Hg; [|done].
    destruct (append_pairs actor_map _ _ _) as [ma'|] eqn:Ha; [|done].
    destruct (append_pairs language_map _ _ _) as [ml'|] eqn:Hl; [|done].
    simpl. intros (Hlen & Hmg & Hma & Hml & Hkeys)%IH.
    apply append_pairs_Ok in Hg as [-> Hgk].
    apply append_pairs_Ok in Ha as [-> Hak].
    apply append_pairs_Ok in Hl as [-> Hlk].
    rewrite (drop_S _ _ _ Hid). simpl in *.
    rewrite Hmg, Hma, Hml, <- !app_assoc.
    split_and!; [lia|done..|].
    intros row' [->|Hin]%elem_of_cons; [|by apply Hkeys].
    rewrite Forall_forall in Hgk, Hak, Hlk. done.
Qed.

Lemma associations_from_total i (data : frame) movie_ids genre_map
    actor_map language_map acc :
  (length data ≤ length (drop i movie_ids))%nat →
  (∀ row, row ∈ data →
    (∀ t, t ∈ nonempty_tokens (genre row) → is_Some (genre_map !! t)) ∧
    (∀ t, t ∈ nonempty_tokens (crew row) → is_Some (actor_map !! t)) ∧
    (∀ t, t ∈ nonempty_tokens (orig_lang row)
          → is_Some (language_map !! t))) →
  ∃ out, associations_from i data movie_ids genre_map actor_map
           language_map acc = Ok out.
Proof.
  revert i acc. induction data as [|row data IH]; intros i acc Hlen Hkeys.
  - simpl. eauto.
  - destruct acc as [[mg ma] ml]. simpl. unfold index at 1.
    destruct (movie_ids !! i) as [movie_id|] eqn:Hid.
    2:{ apply lookup_ge_None in Hid. rewrite length_drop in Hlen.
        simpl in Hlen. lia. }
    simpl. destruct (Hkeys row) as (Hg & Ha & Hl); [by left|].
    destruct (append_pairs_total genre_map movie_id mg
                (PyStr.split comma (genre row))) as [mg' ->];
      [by apply Forall_forall|].
    destruct (append_pairs_total actor_map movie_id ma
                (PyStr.split comma (crew row))) as [ma' ->];
      [by apply Forall_forall|].
    destruct (append_pairs_total language_map movie_id ml
                (PyStr.split comma (orig_lang row))) as [ml' ->];
      [by apply Forall_forall|].
    simpl. apply IH.
    + rewrite length_drop in *. simpl in Hlen. lia.
    + intros row' Hin. apply Hkeys. by right.
Qed.

End Associations.

(** C7.  [_prepare_associations] returns exactly when it is given a movie id
    for every row and every non-empty trimmed token is a key of its map; and
    what it returns is, per category, one (movie_id, ref_id) pair for every
    token of the row's cell that is not empty once trimmed, in row and token
    order, the ref_id being that of the token's entry in the map.  An empty
    token (as after the trailing comma of "Action,") yields no pair. *)
Theorem prepare_associations_one_pair_per_token `{Env} (data : frame)
    (movie_ids : list nat) (genre_map actor_map language_map : gmap str entity)
    (movie_genres_data movie_actors_data movie_languages_data
       : list (nat * nat)) :
  (_prepare_associations data movie_ids genre_map actor_map language_map
   = Ok (movie_genres_data, movie_actors_data, movie_languages_data) ↔
   (length data ≤ length movie_ids)%nat ∧
   movie_genres_data
   = concat (zip_with (λ row movie_id,
                         pairs_for genre_map movie_id (genre row))
                      data movie_ids) ∧
   movie_actors_data
   = concat (zip_with (λ row movie_id,
                         pairs_for actor_map movie_id (crew row))
                      data movie_ids) ∧
   movie_languages_data
   = concat (zip_with (λ row movie_id,
                         pairs_for language_map movie_id (orig_lang row))
                      data movie_ids) ∧
   (∀ row, row ∈ data →
      (∀ t, t ∈ nonempty_tokens (genre row) → is_Some (genre_map !! t)) ∧
      (∀ t, t ∈ nonempty_tokens (crew row) → is_Some (actor_map !! t)) ∧
      (∀ t, t ∈ nonempty_tokens (orig_lang row)
            → is_Some (language_map !! t)))) ∧
  (∀ ref_map movie_id,
     pairs_for ref_map movie_id (py "Action,")
     = [(movie_id, ref_id ref_map (py "Action"))]).
Proof.
  split; [|done]. unfold _prepare_associations. split.
  - intros (Hlen & Hg & Ha & Hl & Hkeys)%associations_from_Ok.
    simpl in *. split_and!; done.
  - intros (Hlen & -> & -> & -> & Hkeys).
    destruct (associations_from_total 0 data movie_ids genre_map actor_map
                language_map ([], [], []) Hlen Hkeys) as [out Hrun].
    rewrite Hrun. f_equal.
    apply associations_from_Ok in Hrun as (_ & Hg & Ha & Hl & _).
    destruct out as [[mg ma] ml]. simpl in *. by subst.
Qed.

(** ** Reference data *)

Section ReferenceData.
Context `{Env}.

Lemma elem_of_drop_duplicates_from {A} `{EqDecision A} (seen l : list A) x :
  x ∈ l → x ∉ seen → x ∈ Pandas.drop_duplicates_from (λ x, x) seen l.
Proof.
  revert seen. induction l as [|y l IH]; intros seen;
    [by intros ?%not_elem_of_nil|].
  intros [->|Hin]%elem_of_cons Hseen; simpl.
  - rewrite bool_decide_eq_false_2 by done. by left.
  - case_bool_decide as Hy; [by apply IH|].
    destruct (decide (x = y)) as [->|Hne]; [by left|].
    right. apply IH; [done|]. by intros [?|?]%elem_of_cons.
Qed.

Lemma elem_of_unique (column : list str) x :
  x ∈ column → x ∈ unique column.
Proof.
  intros Hin. apply elem_of_drop_duplicates_from; [done|].
  apply not_elem_of_nil.
Qed.

Lemma elem_of_stripped_set (column : list str) cell t :
  cell ∈ column → t ∈ nonempty_tokens cell →
  t ∈ elements (stripped_set column).
Proof.
  intros Hcell Ht. unfold stripped_set, nonempty_tokens in *.
  apply elem_of_elements, elem_of_list_to_set, list_elem_of_bind.
  exists cell. split; [|done].
  apply list_elem_of_filter in Ht as [Hne Ht].
  apply list_elem_of_fmap in Ht as (x & -> & Hx).
  apply list_elem_of_bind. exists x. split; [|done].
  rewrite bool_decide_eq_true_2 by done. by left.
Qed.

Lemma _get_or_create_bulk_keys m (items : list str) field (w : world) d
    (w' : world) :
  _get_or_create_bulk m items field w = (Ok d, w') →
  ∀ k, k ∈ items → is_Some (d !! k).
Proof.
  intros Hrun k Hk.
  apply _get_or_create_bulk_Ok in Hrun as (Hlook & Hall & _).
  rewrite Hlook, bool_decide_eq_true_2 by done. by apply Hall.
Qed.

Lemma _prepare_reference_data_keys (data : frame) (w : world)
    country_map genre_map actor_map language_map (w' : world) :
  _prepare_reference_data data w
  = (Ok (country_map, genre_map, actor_map, language_map), w') →
  ∀ row, row ∈ data →
    is_Some (country_map !! country row) ∧
    (∀ t, t ∈ nonempty_tokens (genre row) → is_Some (genre_map !! t)) ∧
    (∀ t, t ∈ nonempty_tokens (crew row) → is_Some (actor_map !! t)) ∧
    (∀ t, t ∈ nonempty_tokens (orig_lang row)
          → is_Some (language_map !! t)).
Proof.
  unfold _prepare_reference_data.
  intros (cm & w1 & Hc & Hrun)%bind_Ok.
  apply bind_Ok in Hrun as (gm & w2 & Hg & Hrun).
  apply bind_Ok in Hrun as (am & w3 & Ha & Hrun).
  apply bind_Ok in Hrun as (lm & w4 & Hl & Hrun).
  injection Hrun as <- <- <- <- <-.
  intros row Hrow.
  assert (∀ (f : Row str date float → str), f row ∈ f <$> data) as Hcol
    by (intros f; apply list_elem_of_fmap; eauto).
  split_and!.
  - eapply _get_or_create_bulk_keys; [done|]. apply elem_of_unique, Hcol.
  - intros t Ht. eapply _get_or_create_bulk_keys; [done|].
    eapply elem_of_stripped_set; [apply (Hcol genre) | done].
  - intros t Ht. eapply _get_or_create_bulk_keys; [done|].
    eapply elem_of_stripped_set; [apply (Hcol crew) | done].
  - intros t Ht. eapply _get_or_create_bulk_keys; [done|].
    eapply elem_of_stripped_set; [apply (Hcol orig_lang) | done].
Qed.

Lemma traverse_total {A B} (f : A → result B) (l : list A) :
  (∀ x, x ∈ l → ∃ y, f x = Ok y) → ∃ ys, traverse f l = Ok ys.
Proof.
  induction l as [|x l IH]; intros Hf; simpl; [eauto|].
  destruct (Hf x) as [y ->]; [by left|].
  destruct IH as [ys ->]; [|simpl; eauto].
  intros x' Hin. apply Hf. by right.
Qed.

Lemma _prepare_movies_data_total (data : frame) country_map :
  (∀ row, row ∈ data → is_Some (country_map !! country row)) →
  ∃ movies_data, _prepare_movies_data data country_map = Ok movies_data.
Proof.
  intros Hkeys. apply traverse_total. intros row Hrow.
  destruct (Hkeys row Hrow) as [o Ho]. unfold getitem. rewrite Ho.
  simpl. eauto.
Qed.

End ReferenceData.

(** C10.  [_prepare_reference_data] returns whenever no statement fails,
    and once it has returned, every row's country and every non-empty trimmed
    token of its genre, crew and orig_lang cells is a key of the
    corresponding map; so [_prepare_movies_data] returns without a KeyError,
    and so does [_prepare_associations] once it is given a movie id for
    every row. *)
Theorem reference_data_covers_lookups `{Env} (data : frame) (w : world) :
  (faults w = None → completes (_prepare_reference_data data w) = true) ∧
  ∀ (country_map genre_map actor_map language_map : gmap str entity)
    (w' : world),
    _prepare_reference_data data w
    = (Ok (country_map, genre_map, actor_map, language_map), w') →
    (∀ row, row ∈ data →
       is_Some (country_map !! country row) ∧
       (∀ t, t ∈ nonempty_tokens (genre row) → is_Some (genre_map !! t)) ∧
       (∀ t, t ∈ nonempty_tokens (crew row) → is_Some (actor_map !! t)) ∧
       (∀ t, t ∈ nonempty_tokens (orig_lang row)
             → is_Some (language_map !! t))) ∧
    (∃ movies_data, _prepare_movies_data data country_map = Ok movies_data) ∧
    (∀ movie_ids, (length data ≤ length movie_ids)%nat →
       ∃ associations,
         _prepare_associations data movie_ids genre_map actor_map
           language_map
         = Ok associations).
Proof.
  split.
  { intros Hw.
    by destruct (returns__prepare_reference_data data w Hw)
      as (maps & w' & -> & _). }
  intros country_map genre_map actor_map language_map w' Hrun.
  pose proof (_prepare_reference_data_keys _ _ _ _ _ _ _ Hrun) as Hkeys.
  split_and!; [done| |].
  - apply _prepare_movies_data_total. intros row Hrow.
    by destruct (Hkeys row Hrow).
  - intros movie_ids Hlen. apply associations_from_total; [done|].
    intros row Hrow. by destruct (Hkeys row Hrow) as (_ & ? & ? & ?).
Qed.

(** ** Movie insertion *)

Section Movies.
Context `{Env}.

Lemma matches_self (o : obj movie) :
  is_Some (m_name (values o)) → matches (values o) o.
Proof.
  intros [n Hn]. unfold matches, sql_eq. rewrite Hn.
  by rewrite !bool_decide_eq_true_2.
Qed.

Lemma matches_name mv (o : obj movie) : matches mv o → is_Some (m_name mv).
Proof.
  unfold matches, sql_eq. destruct (m_name (values o)), (m_name mv); eauto;
    done.
Qed.

Lemma movies_set_movies t st : movies (set_movies t st) = t.
Proof. done. Qed.

(** The inner loop: one SELECT per movie of the chunk just inserted. *)
Lemma fetch_ids_Ok (rows : list (obj movie)) acc (w : world) out
    (w' : world) :
  Forall (λ o, o ∈ movies (view w)) rows →
  foldM (λ movie_ids mv,
           let* result := select_movie_id mv in
           let* movie_id := lift (scalar_one result) in
           ret (movie_ids ++ [movie_id]))
        acc (values <$> rows) w = (Ok out, w') →
  out = acc ++ (id_of <$> rows) ∧ view w' = view w.
Proof.
  revert acc w. induction rows as [|o rows IH]; intros acc w Hin; simpl.
  - intros [= <- <-]. by rewrite app_nil_r.
  - apply Forall_cons in Hin as [Ho Hin].
    intros (acc' & w1 & Hbody & Hrest)%bind_Ok.
    apply bind_Ok in Hbody as (result & w1' & Hsel & Hbody).
    apply bind_Ok in Hbody as (movie_id & w1'' & Hone & [= <- <-]).
    unfold lift in Hone. injection Hone as Hone <-.
    apply execute_select_Ok in Hsel as (-> & Hv & _).
    apply IH in Hrest as [Hout Hv']; [|by rewrite Hv].
    split; [|congruence]. rewrite Hout, <- app_assoc. do 2 f_equal.
    change (filter _ (movies (view w)))
      with (filter (matches (values o)) (movies (view w))) in Hone.
    destruct (filter (matches (values o)) (movies (view w)))
      as [|o1 [|o2 os]] eqn:Hf; simplify_eq/=.
    assert (o1 ∈ filter (matches (values o)) (movies (view w))) as Ho1
      by (rewrite Hf; left).
    apply list_elem_of_filter in Ho1 as [Hm _].
    assert (o ∈ filter (matches (values o)) (movies (view w))) as Ho'.
    { apply list_elem_of_filter. split; [|done].
      apply matches_self. by eapply matches_name. }
    rewrite Hf in Ho'. by apply list_elem_of_singleton in Ho' as ->.
Qed.

Lemma id_values_new_rows {A} (rows : list (obj A)) :
  zip_with Obj (id_of <$> rows) (values <$> rows) = rows.
Proof.
  induction rows as [|[i v] rows IH]; [done|]. simpl. f_equal. exact IH.
Qed.

Lemma insert_movies_chunks_Ok (cs : list (list movie)) acc (w : world) out
    (w' : world) :
  foldM (λ movie_ids chunk,
      execute_insert MovieModel (length chunk)
        (λ st, set_movies (insert_values (movies st) chunk) st) ;;
      flush ;;
      foldM (λ movie_ids mv,
          let* result := select_movie_id mv in
          let* movie_id := lift (scalar_one result) in
          ret (movie_ids ++ [movie_id]))
        movie_ids chunk)
    acc cs w = (Ok out, w') →
  ∃ rows, movies (view w') = movies (view w) ++ rows ∧
          out = acc ++ (id_of <$> rows) ∧
          values <$> rows = concat cs.
Proof.
  revert acc w. induction cs as [|c cs IH]; intros acc w; simpl.
  - intros [= <- <-]. exists []. by rewrite !app_nil_r.
  - intros (acc' & w1 & Hbody & Hrest)%bind_Ok.
    apply bind_Ok in Hbody as (? & w2 & Hins & Hbody).
    apply bind_Ok in Hbody as (? & w3 & Hfl & Hfetch).
    apply execute_insert_Ok in Hins as (Hv2 & _).
    apply flush_Ok in Hfl as (Hv3 & _).
    rewrite <- (values_new_rows (movies (view w)) c) in Hfetch.
    apply fetch_ids_Ok in Hfetch as [-> Hv1].
    2:{ apply Forall_forall. intros o Ho.
        rewrite Hv3, Hv2, movies_set_movies. unfold insert_values.
        apply elem_of_app. by right. }
    apply IH in Hrest as (rows & Ht & -> & Hvals).
    exists (new_rows (movies (view w)) c ++ rows).
    rewrite Ht, Hv1, Hv3, Hv2, movies_set_movies. unfold insert_values.
    rewrite !fmap_app, <- !app_assoc, values_new_rows, Hvals. done.
Qed.

Lemma insert_movies_Ok (movies_data : list movie) (w : world) movie_ids
    (w' : world) :
  insert_movies movies_data w = (Ok movie_ids, w') →
  length movie_ids = length movies_data ∧
  movies (view w') = movies (view w) ++ zip_with Obj movie_ids movies_data.
Proof.
  unfold insert_movies.
  intros (rows & Ht & -> & Hvals)%insert_movies_chunks_Ok.
  rewrite concat_chunks in Hvals. subst movies_data. simpl.
  rewrite !length_fmap, id_values_new_rows. done.
Qed.

Lemma traverse_Ok_lookup {A B} (f : A → result B) (l : list A) ys :
  traverse f l = Ok ys →
  length ys = length l ∧
  ∀ i x, l !! i = Some x → ∃ y, ys !! i = Some y ∧ f x = Ok y.
Proof.
  revert ys. induction l as [|x l IH]; intros ys; simpl.
  - intros [= <-]. split; [done|]. by intros i x' ?.
  - destruct (f x) as [y|] eqn:Hy; [|done]. simpl.
    destruct (traverse f l) as [ys'|]; [|done]. simpl.
    intros [= <-]. destruct (IH ys' eq_refl) as [Hlen Hlook].
    split; [simpl; lia|]. intros [|i] x'; simpl.
    + intros [= <-]. eauto.
    + apply Hlook.
Qed.

Lemma filter_key_unique {A K} `{EqDecision K} (f : A → K) (l : list A) x :
  NoDup (f <$> l) → x ∈ l → filter (λ y, f y = f x) l = [x].
Proof.
  induction l as [|y l IH]; [by intros _ ?%not_elem_of_nil|].
  rewrite fmap_cons, NoDup_cons. intros [Hy Hnd] Hin.
  assert (∀ z, z ∈ l → f z ≠ f y) as Hfresh.
  { intros z Hz Heq. apply Hy. rewrite <- Heq.
    apply list_elem_of_fmap. eauto. }
  apply elem_of_cons in Hin as [->|Hin].
  - rewrite filter_cons_True by done. f_equal.
    destruct (filter (λ z, f z = f y) l) as [|z zs] eqn:Hf; [done|].
    assert (z ∈ filter (λ z, f z = f y) l) as Hz by (rewrite Hf; left).
    apply list_elem_of_filter in Hz as [Heq Hz]. by destruct (Hfresh z Hz).
  - rewrite filter_cons_False; [by apply IH|].
    intros Heq. by destruct (Hfresh x Hin).
Qed.

Lemma matches_row_key mv (o : obj movie) :
  is_Some (m_name mv) → matches mv o ↔ row_key o = movie_key mv.
Proof.
  intros [n Hn]. unfold matches, row_key, movie_key, sql_eq. rewrite Hn.
  destruct (m_name (values o)) as [n'|]; simpl.
  - rewrite andb_true_iff, !bool_decide_eq_true.
    split; [intros [-> ->]; done | intros [= -> ->]; done].
  - split; [done | intros [=]].
Qed.

Lemma select_movie_id_unique (o : obj movie) (w : world) :
  faults w = None →
  o ∈ movies (view w) →
  NoDup (row_key <$> movies (view w)) →
  is_Some (m_name (values o)) →
  ∃ w', select_movie_id (values o) w = (Ok [id_of o], w') ∧
        faults w' = None ∧ view w' = view w.
Proof.
  intros Hw Ho Hnd Hname. unfold select_movie_id.
  match goal with
  | |- context [execute_select ?t ?q w] =>
      destruct (returns_execute_select t q w Hw) as (ids & w' & Hrun & Hw')
  end.
  exists w'. pose proof Hrun as (-> & Hv & _)%execute_select_Ok.
  split_and!; [|done..]. rewrite Hrun. do 2 f_equal.
  change (filter _ (movies (view w)))
    with (filter (matches (values o)) (movies (view w))).
  rewrite (list_filter_iff _ (λ y, row_key y = row_key o)).
  - by rewrite filter_key_unique.
  - intros y. by apply matches_row_key.
Qed.

Lemma fetch_ids_returns (rows : list (obj movie)) acc (w : world) :
  faults w = None →
  Forall (λ o, o ∈ movies (view w)) rows →
  NoDup (row_key <$> movies (view w)) →
  Forall (λ o, is_Some (m_name (values o))) rows →
  ∃ w', foldM (λ movie_ids mv,
                 let* result := select_movie_id mv in
                 let* movie_id := lift (scalar_one result) in
                 ret (movie_ids ++ [movie_id]))
              acc (values <$> rows) w
        = (Ok (acc ++ (id_of <$> rows)), w') ∧
        faults w' = None ∧ view w' = view w.
Proof.
  revert acc w. induction rows as [|o rows IH];
    intros acc w Hw Hin Hnd Hnames; simpl.
  - exists w. by rewrite app_nil_r.
  - apply Forall_cons in Hin as [Ho Hin].
    apply Forall_cons in Hnames as [Hname Hnames].
    destruct (select_movie_id_unique o w Hw Ho Hnd Hname)
      as (w1 & Hsel & Hw1 & Hv1).
    destruct (IH (acc ++ [id_of o]) w1) as (w' & Hrest & Hw' & Hv');
      [done | by rewrite Hv1 | by rewrite Hv1 | done |].
    exists w'. split_and!; [|done|congruence].
    rewrite <- app_assoc in Hrest.
    unfold bind at 1. unfold bind at 1. rewrite Hsel.
    unfold bind, lift, ret. simpl. exact Hrest.
Qed.

Lemma row_key_new_rows (t : list (obj movie)) (c : list movie) :
  row_key <$> new_rows t c = movie_key <$> c.
Proof.
  transitivity (movie_key <$> (values <$> new_rows t c)).
  - by rewrite <- list_fmap_compose.
  - by rewrite values_new_rows.
Qed.

Lemma insert_movies_chunks_returns (cs : list (list movie)) acc
    (w : world) :
  faults w = None →
  NoDup ((row_key <$> movies (view w)) ++ (movie_key <$> concat cs)) →
  Forall (λ mv, is_Some (m_name mv)) (concat cs) →
  ∃ out w',
    foldM (λ movie_ids chunk,
        execute_insert MovieModel (length chunk)
          (λ st, set_movies (insert_values (movies st) chunk) st) ;;
        flush ;;
        foldM (λ movie_ids mv,
            let* result := select_movie_id mv in
            let* movie_id := lift (scalar_one result) in
            ret (movie_ids ++ [movie_id]))
          movie_ids chunk)
      acc cs w = (Ok out, w') ∧ faults w' = None.
Proof.
  revert acc w. induction cs as [|c cs IH]; intros acc w Hw Hnd Hnames.
  - simpl. eauto.
  - simpl in Hnd, Hnames. rewrite fmap_app, app_assoc in Hnd.
    apply Forall_app in Hnames as [Hc Hcs].
    destruct (returns_execute_insert MovieModel (length c)
                (λ st, set_movies (insert_values (movies st) c) st) w Hw)
      as ([] & w1 & Hins & Hw1).
    destruct (returns_flush w1 Hw1) as ([] & w2 & Hfl & Hw2).
    pose proof Hins as (Hv1 & _)%execute_insert_Ok.
    pose proof Hfl as (Hv2 & _)%flush_Ok.
    assert (movies (view w2)
            = movies (view w) ++ new_rows (movies (view w)) c) as Ht
      by (by rewrite Hv2, Hv1).
    assert (row_key <$> movies (view w2)
            = (row_key <$> movies (view w)) ++ (movie_key <$> c)) as Hk
      by (by rewrite Ht, fmap_app, row_key_new_rows).
    destruct (fetch_ids_returns (new_rows (movies (view w)) c) acc w2)
      as (w3 & Hfetch & Hw3 & Hv3); [done | | | |].
    { apply Forall_forall. intros o Ho. rewrite Ht.
      apply elem_of_app. by right. }
    { rewrite Hk. by apply NoDup_app in Hnd as [? _]. }
    { apply Forall_forall. intros o Ho.
      rewrite Forall_forall in Hc. apply Hc.
      rewrite <- (values_new_rows (movies (view w)) c).
      apply list_elem_of_fmap. eauto. }
    rewrite values_new_rows in Hfetch.
    destruct (IH (acc ++ (id_of <$> new_rows (movies (view w)) c)) w3)
      as (out & w' & Hrest & Hw'); [done | by rewrite Hv3, Hk | done |].
    exists out, w'. split; [|done].
    simpl. unfold bind at 1. unfold bind at 1. rewrite Hins.
    unfold bind at 1. rewrite Hfl, Hfetch. exact Hrest.
Qed.

Lemma insert_movies_returns (movies_data : list movie) (w : world) :
  faults w = None →
  NoDup ((row_key <$> movies (view w)) ++ (movie_key <$> movies_data)) →
  Forall (λ mv, is_Some (m_name mv)) movies_data →
  completes (insert_movies movies_data w) = true.
Proof.
  intros Hw Hnd Hnames. unfold insert_movies.
  destruct (insert_movies_chunks_returns (chunks movies_data) [] w)
    as (out & w' & -> & _); by rewrite ?concat_chunks.
Qed.

End Movies.

(** C2.  On the records built from a cleaned dataset, the movie insertion
    loop returns one identifier per input row, and the identifier at position
    i is the id under which the record built from row i was inserted: the
    movie table is what it was, followed by the records in row order, each
    under the identifier at its position.  The loop returns whenever no
    statement fails, the records have a name, and their (name, date) keys
    are distinct from one another and from those already in the table. *)
Theorem movie_ids_aligned_with_rows `{Env} (data : frame)
    (country_map : gmap str entity) (movies_data : list movie) (w : world) :
  _prepare_movies_data data country_map = Ok movies_data →
  (faults w = None →
   NoDup ((row_key <$> movies (view w)) ++ (movie_key <$> movies_data)) →
   Forall (λ mv, is_Some (m_name mv)) movies_data →
   completes (insert_movies movies_data w) = true) ∧
  ∀ (movie_ids : list nat) (w' : world),
    insert_movies movies_data w = (Ok movie_ids, w') →
    length movie_ids = length data ∧
    movies (view w') = movies (view w) ++ zip_with Obj movie_ids movies_data ∧
    ∀ i row, data !! i = Some row →
      ∃ movie_id mv,
        movie_ids !! i = Some movie_id ∧
        movies_data !! i = Some mv ∧
        m_name mv = names row ∧ m_date mv = date_x row ∧
        movies (view w') !! (length (movies (view w)) + i)%nat
        = Some (Obj movie_id mv).
Proof.
  intros Hbuild. split; [apply insert_movies_returns|].
  intros movie_ids w' Hrun.
  apply traverse_Ok_lookup in Hbuild as [Hlen Hbuilt].
  apply insert_movies_Ok in Hrun as [Hids Htable].
  split_and!; [congruence | done |].
  intros i row Hrow. destruct (Hbuilt i row Hrow) as (mv & Hmv & Hrec).
  destruct (lookup_lt_is_Some_2 movie_ids i) as [movie_id Hid].
  { rewrite Hids, Hlen. by eapply lookup_lt_Some. }
  exists movie_id, mv. split_and!; [done..| | |].
  - destruct (country_map !! country row) as [o|] eqn:Ho;
      unfold getitem in Hrec; rewrite Ho in Hrec; by simplify_eq/=.
  - destruct (country_map !! country row) as [o|] eqn:Ho;
      unfold getitem in Hrec; rewrite Ho in Hrec; by simplify_eq/=.
  - rewrite Htable, lookup_app_r by lia.
    replace (length (movies (view w)) + i - length (movies (view w)))%nat
      with i by lia.
    apply lookup_zip_with_Some. eauto.
Qed.

(** ** The transaction *)

Section Transaction.
Context `{Env}.

Ltac by_world w :=
  let r := fresh "r" in let w' := fresh "w'" in let E := fresh "E" in
  intros w r w' E;
  destruct w as [c wk [] [[|?]|] lg cs fl sv];
  unfold execute_select, execute_insert, flush, commit, rollback, tick,
    in_transaction, print, to_csv, raise, lift, bind, modify, gets, ret,
    autobegin, sent, set_session, view, statement_failed in *;
  simpl in *; simplify_eq; simpl;
  (split; [done | intros [[? ?] ?]; by simplify_eq]).

Lemma tx_safe_ret {A} (a : A) : tx_safe (ret a).
Proof. by_world w. Qed.

Lemma tx_safe_lift {A} (r : result A) : tx_safe (lift r).
Proof. by_world w. Qed.

Lemma tx_safe_raise {A} e : tx_safe (raise (A:=A) e).
Proof. by_world w. Qed.

Lemma tx_safe_print p : tx_safe (print p).
Proof. by_world w. Qed.

Lemma tx_safe_to_csv data : tx_safe (to_csv data).
Proof. by_world w. Qed.

Lemma tx_safe_gets {A} (f : world → A) : tx_safe (gets f).
Proof. by_world w. Qed.

Lemma tx_safe_in_transaction : tx_safe in_transaction.
Proof. by_world w. Qed.

Lemma tx_safe_rollback : tx_safe rollback.
Proof. by_world w. Qed.

Lemma tx_safe_flush : tx_safe flush.
Proof. by_world w. Qed.

Lemma tx_safe_execute_select {A} t (q : store → A) :
  tx_safe (execute_select t q).
Proof. by_world w. Qed.

Lemma tx_safe_execute_insert t n f : tx_safe (execute_insert t n f).
Proof. by_world w. Qed.

Lemma tx_safe_bind {A B} (m : M A) (f : A → M B) :
  tx_safe m → (∀ a, tx_safe (f a)) → tx_safe (bind m f).
Proof.
  intros Hm Hf w r w' [(e & Hrun & ->)|(a & w1 & Hrun & Hk)]%bind_run.
  - destruct (Hm _ _ _ Hrun) as [Hc1 Hf1]. split; [done|].
    intros Hs. specialize (Hf1 Hs). by simplify_eq.
  - destruct (Hm _ _ _ Hrun) as [Hc1 Hf1].
    destruct (Hf a _ _ _ Hk) as [Hc2 Hf2].
    split; [congruence|]. intros [Hsome Hnone].
    destruct (faults w1) as [n|] eqn:Hw1.
    + apply Hf2. split; [by rewrite Hw1 | done].
    + by specialize (Hf1 (conj Hsome Hw1)).
Qed.

Lemma tx_safe_foldM {A B} (body : B → A → M B) acc (l : list A) :
  (∀ acc x, tx_safe (body acc x)) → tx_safe (foldM body acc l).
Proof.
  intros Hbody. revert acc. induction l as [|x l IH]; intros acc; simpl.
  - apply tx_safe_ret.
  - apply tx_safe_bind; [apply Hbody | intros acc'; apply IH].
Qed.

Lemma tx_safe_for_each {A} (l : list A) (body : A → M unit) :
  (∀ x, tx_safe (body x)) → tx_safe (for_each l body).
Proof. intros Hbody. apply tx_safe_foldM. intros _ x. apply Hbody. Qed.

Hint Resolve tx_safe_ret tx_safe_lift tx_safe_raise tx_safe_print
  tx_safe_to_csv tx_safe_gets tx_safe_in_transaction tx_safe_rollback
  tx_safe_flush tx_safe_execute_select tx_safe_execute_insert : tx.

Ltac tx_safe_step :=
  match goal with
  | |- tx_safe (bind _ _) => apply tx_safe_bind; [|intros ?]
  | |- tx_safe (foldM _ _ _) => apply tx_safe_foldM; intros ? ?
  | |- tx_safe (for_each _ _) => apply tx_safe_for_each; intros ?
  | |- tx_safe (if ?b then _ else _) => destruct b
  | |- tx_safe (match ?x with _ => _ end) => destruct x
  | |- tx_safe _ => solve [auto with tx]
  end.

Ltac tx_safe_auto := repeat tx_safe_step.

Lemma tx_safe__preprocess_csv : tx_safe _preprocess_csv.
Proof. unfold _preprocess_csv. tx_safe_auto. Qed.

Lemma tx_safe__seed_user_groups : tx_safe _seed_user_groups.
Proof. unfold _seed_user_groups. tx_safe_auto. Qed.

Lemma tx_safe_select_merge m field items d :
  tx_safe (select_merge m field items d).
Proof. unfold select_merge, select_in. tx_safe_auto. Qed.

Hint Resolve tx_safe_select_merge : tx.

Lemma tx_safe__get_or_create_bulk m items field :
  tx_safe (_get_or_create_bulk m items field).
Proof. unfold _get_or_create_bulk. tx_safe_auto. Qed.

Hint Resolve tx_safe__get_or_create_bulk : tx.

Lemma tx_safe__prepare_reference_data data :
  tx_safe (_prepare_reference_data data).
Proof. unfold _prepare_reference_data. tx_safe_auto. Qed.

Lemma tx_safe__bulk_insert a data_list : tx_safe (_bulk_insert a data_list).
Proof. unfold _bulk_insert. tx_safe_auto. Qed.

Lemma tx_safe_insert_movies movies_data :
  tx_safe (insert_movies movies_data).
Proof. unfold insert_movies, select_movie_id. tx_safe_auto. Qed.

Lemma tx_safe_is_db_populated : tx_safe is_db_populated.
Proof. unfold is_db_populated. tx_safe_auto. Qed.

Hint Resolve tx_safe__preprocess_csv tx_safe__seed_user_groups
  tx_safe__prepare_reference_data tx_safe__bulk_insert
  tx_safe_insert_movies tx_safe_is_db_populated : tx.

Lemma all_or_nothing_bind {A} (m : M A) (f : A → M unit) :
  tx_safe m → (∀ a, all_or_nothing (f a)) → all_or_nothing (bind m f).
Proof.
  intros Hm Hf w r w' [(e & Hrun & ->)|(a & w1 & Hrun & Hk)]%bind_run.
  - destruct (Hm _ _ _ Hrun) as [Hc1 Hf1]. split; [done|].
    intros Hs. specialize (Hf1 Hs). by simplify_eq.
  - destruct (Hm _ _ _ Hrun) as [Hc1 Hf1].
    destruct (Hf a _ _ _ Hk) as [Hc2 Hf2]. split.
    + destruct r; [done | congruence].
    + intros [Hsome Hnone]. destruct (faults w1) as [n|] eqn:Hw1.
      * apply Hf2. split; [by rewrite Hw1 | done].
      * by specialize (Hf1 (conj Hsome Hw1)).
Qed.

Lemma all_or_nothing_commit :
  all_or_nothing (commit ;; print SeedingCompleted).
Proof.
  intros w r w' E.
  destruct w as [c wk [] [[|?]|] lg cs fl sv];
  unfold commit, tick, print, bind, modify, sent, set_session, view,
    statement_failed in *;
  simpl in *; simplify_eq; simpl;
  (split; [done | intros [[? ?] ?]; by simplify_eq]).
Qed.

Lemma all_or_nothing_seed_body : all_or_nothing seed_body.
Proof.
  unfold seed_body.
  repeat first
    [ apply all_or_nothing_commit
    | apply all_or_nothing_bind; [tx_safe_auto | intros ?]
    | match goal with
      | |- all_or_nothing (match ?x with _ => _ end) => destruct x
      end ].
Qed.

Lemma all_or_nothing_seed : all_or_nothing seed.
Proof.
  intros w r w'. unfold seed, try_except.
  destruct (seed_body w) as [[[]|e] w1] eqn:Hbody.
  - intros [= <- <-]. by apply all_or_nothing_seed_body in Hbody.
  - apply all_or_nothing_seed_body in Hbody as [Hc Hf].
    destruct (is_SQLAlchemyError e);
      unfold bind, print, modify, raise; simpl; intros [= <- <-];
      (split; [done | intros [? ?]; by apply Hf]).
Qed.

End Transaction.

Section Main.
Context `{Env}.

Lemma main_run (w : world) :
  let '(_, w') := main w in
  in_tx w' = false ∧ working w' = committed w' ∧
  (committed w' = committed w
   ∨ head (console w') = Some SeedingCompletedSuccessfully).
Proof.
  unfold main, get_db_contextmanager.
  set (w0 := set_session (committed w) (committed w) false w).
  destruct (bind is_db_populated _ w0) as [r w1] eqn:E. simpl.
  split; [done|]. split; [done|].
  apply bind_run in E as [(e & Hpop & ->)|(populated & w2 & Hpop & E)].
  { left. by apply tx_safe_is_db_populated in Hpop as [-> _]. }
  apply tx_safe_is_db_populated in Hpop as [Hc2 _].
  destruct populated; simpl in E.
  { left. unfold print, modify in E. injection E as <- <-. by rewrite Hc2. }
  unfold try_except in E.
  destruct (bind seed _ w2) as [[[]|e] w3] eqn:Hseed.
  - injection E as <- <-. right.
    apply bind_Ok in Hseed as (? & w4 & _ & Hprint).
    unfold print, modify in Hprint. by injection Hprint as <-.
  - left. unfold print, modify in E. injection E as <- <-. simpl.
    apply bind_run in Hseed as [(e' & Hseed & _)|(? & w4 & _ & Hprint)].
    + apply all_or_nothing_seed in Hseed as [-> _]. by rewrite Hc2.
    + unfold print, modify in Hprint. by injection Hprint.
Qed.

End Main.


(** C8.  When the database already holds a movie row, [main] writes
    nothing: the committed database is unchanged, no INSERT is among the
    statements it sent, and when the population check itself succeeds the
    run ends with the message that seeding is skipped. *)
Theorem main_skips_populated_database `{Env} (w : world) (r : result unit)
    (w' : world) :
  movies (committed w) ≠ [] →
  main w = (r, w') →
  committed w' = committed w ∧
  (∃ sent, log w' = sent ++ log w ∧ Forall (λ s, is_write s = false) sent) ∧
  (r = Ok tt → head (console w') = Some AlreadyPopulated).
Proof.
  intros Hmovies.
  destruct w as [c wk tx [[|?]|] lg cs fl sv]; simpl in Hmovies;
    destruct (movies c) as [|mv mvs] eqn:Hm; try done;
    unfold main, get_db_contextmanager, is_db_populated, execute_select,
      tick, print, bind, modify, gets, ret, autobegin, sent, set_session;
    simpl; rewrite ?Hm; simpl; intros [= <- <-]; simpl;
    (split_and!; [done | | done]).
  - exists []. by split.
  - exists [SELECT MovieModel]. split; [done|]. by repeat constructor.
  - exists [SELECT MovieModel]. split; [done|]. by repeat constructor.
Qed.

(** ** The theorems at sample inputs *)

Section Samples.
#[local] Existing Instance demo_env.

Example preprocess_demo :
  fst (_preprocess_csv (fresh_world demo_csv None))
  = Ok [ mkRow (Some (py "Alien")) (Date 1979 5 25) 85%Z
               (py "Horror, Sci-Fi,") (Some (py "In space")) (py "a,b")
               (py "English") 0%Z 100%Z (py "US") (py "Released");
         mkRow (Some (py "Heat")) (Date 1995 12 15) 0%Z (py "Crime") None
               (py "Unknown") (py "English,French") 60%Z 187%Z (py "US")
               (py "Unknown") ]
  ∧ console (snd (_preprocess_csv (fresh_world demo_csv None)))
    = [CsvSaved; PreprocessingCsv; InvalidDatesWarning 1].
Proof. split; vm_compute; reflexivity. Qed.

Example main_demo :
  let w' := snd (main (fresh_world demo_csv None)) in
  console w'
  = [SeedingCompletedSuccessfully; SeedingCompleted; CsvSaved;
     PreprocessingCsv; InvalidDatesWarning 1; UserGroupsSeeded]
  ∧ id_of <$> movies (committed w') = [1; 2]%nat
  ∧ movies_genres (committed w') = [(1, 1); (1, 2); (2, 3)]%nat.
Proof. vm_compute. done. Qed.

Example main_fault_demo :
  let w' := snd (main (fresh_world demo_csv (Some 20%nat))) in
  committed w' = empty_store
  ∧ head (console w')
    = Some (FailedToSeed (SQLAlchemyError OperationalError)).
Proof. vm_compute. done. Qed.

Lemma movie_ids_aligned_with_rows_witness :
  _prepare_movies_data demo_data demo_country_map = Ok demo_movies ∧
  fst (insert_movies demo_movies (fresh_world [] None)) = Ok [1; 2]%nat ∧
  length [1; 2]%nat = length demo_data.
Proof.
  assert (_prepare_movies_data demo_data demo_country_map = Ok demo_movies)
    as Hbuild by (vm_compute; reflexivity).
  assert (fst (insert_movies demo_movies (fresh_world [] None))
          = Ok [1; 2]%nat) as Hids by (vm_compute; reflexivity).
  split; [exact Hbuild|]. split; [exact Hids|].
  destruct (insert_movies demo_movies (fresh_world [] None))
    as [r w'] eqn:Hrun.
  simpl in Hids. subst r.
  exact (proj1 (proj2 (movie_ids_aligned_with_rows demo_data
                         demo_country_map demo_movies
                         (fresh_world [] None) Hbuild)
                  [1; 2]%nat w' Hrun)).
Defined.

Lemma get_or_create_bulk_maps_every_item_witness :
  let run := _get_or_create_bulk GenreModel demo_items (py "name")
               demo_world in
  completes run = true ∧
  ∀ k, k ∈ (map_to_list (returned ∅ run)).*1 ↔ k ∈ demo_items.
Proof.
  intros run.
  assert (completes run = true) as Hok by (vm_compute; reflexivity).
  split; [exact Hok|]. subst run.
  destruct (_get_or_create_bulk GenreModel demo_items (py "name")
              demo_world) as [[d|e] w'] eqn:Hrun; [|discriminate Hok].
  exact (proj1 (proj2 (proj2 (get_or_create_bulk_maps_every_item
                                GenreModel demo_items (py "name")
                                demo_world) d w' Hrun))).
Defined.

Lemma get_or_create_bulk_idempotent_witness :
  let first := _get_or_create_bulk GenreModel demo_items (py "name")
                 demo_world in
  let second := _get_or_create_bulk GenreModel demo_items (py "name")
                  (snd first) in
  completes first = true ∧ completes second = true ∧
  returned ∅ second = returned ∅ first ∧
  view (snd second) = view (snd first).
Proof.
  intros first second.
  assert (completes first = true) as Hok1 by (vm_compute; reflexivity).
  assert (completes second = true) as Hok2 by (vm_compute; reflexivity).
  split; [exact Hok1|]. split; [exact Hok2|]. subst second first.
  destruct (_get_or_create_bulk GenreModel demo_items (py "name")
              demo_world) as [[d1|e] w1] eqn:Hrun1; [|discriminate Hok1].
  simpl in *.
  destruct (_get_or_create_bulk GenreModel demo_items (py "name") w1)
    as [[d2|e] w2] eqn:Hrun2; [|discriminate Hok2].
  simpl.
  destruct (proj2 (get_or_create_bulk_idempotent GenreModel demo_items
                     (py "name") demo_world) d1 w1 d2 w2 Hrun1 Hrun2)
    as (Hd & _ & Hv & _).
  split; [exact Hd | exact Hv].
Defined.

Lemma prepare_associations_one_pair_per_token_witness :
  _prepare_associations [action_row] [5%nat] action_genres action_actors
    action_languages
  = Ok ([(5, 3)], [(5, 4)], [(5, 6)])%nat ∧
  [(5, 3)]%nat
  = concat (zip_with (λ row movie_id,
                        pairs_for action_genres movie_id (genre row))
                     [action_row] [5%nat]).
Proof.
  assert (_prepare_associations [action_row] [5%nat] action_genres
            action_actors action_languages
          = Ok ([(5, 3)], [(5, 4)], [(5, 6)])%nat) as Hrun
    by (vm_compute; reflexivity).
  split; [exact Hrun|].
  exact (proj1 (proj2 (proj1 (proj1
           (prepare_associations_one_pair_per_token [action_row] [5%nat]
              action_genres action_actors action_languages _ _ _))
           Hrun))).
Defined.

Lemma main_skips_populated_database_witness :
  movies (committed demo_world) ≠ [] ∧
  committed (snd (main demo_world)) = committed demo_world.
Proof.
  assert (movies (committed demo_world) ≠ []) as Hpop
    by (vm_compute; discriminate).
  split; [exact Hpop|].
  destruct (main demo_world) as [r w'] eqn:Hrun.
  exact (proj1 (main_skips_populated_database demo_world r w' Hpop Hrun)).
Defined.

Lemma reference_data_covers_lookups_witness :
  let run := _prepare_reference_data demo_data (fresh_world [] None) in
  completes run = true ∧
  ∃ movies_data,
    _prepare_movies_data demo_data (returned (∅, ∅, ∅, ∅) run).1.1.1
    = Ok movies_data.
Proof.
  intros run.
  assert (completes run = true) as Hok by (vm_compute; reflexivity).
  split; [exact Hok|]. subst run.
  destruct (_prepare_reference_data demo_data (fresh_world [] None))
    as [[[[[cm gm] am] lm]|e] w'] eqn:Hrun; [|discriminate Hok].
  exact (proj1 (proj2 (proj2 (reference_data_covers_lookups demo_data
                                (fresh_world [] None))
                         cm gm am lm w' Hrun))).
Defined.

End Samples.

(** * Further properties of the seeder *)

(** ** Batches *)

Section Batches.

Lemma chunks_lookup {A} (l : list A) (i : nat) :
  (i < (length l + CHUNK_SIZE - 1) / CHUNK_SIZE)%nat →
  chunks l !! i = Some (take CHUNK_SIZE (drop (i * CHUNK_SIZE) l)).
Proof.
  intros Hi. unfold chunks, range_step, slice.
  rewrite <- list_fmap_compose, list_lookup_fmap, lookup_seq_lt by done.
  simpl. do 2 f_equal. lia.
Qed.

Lemma length_chunks {A} (l : list A) :
  length (chunks l) = ((length l + CHUNK_SIZE - 1) / CHUNK_SIZE)%nat.
Proof. unfold chunks, range_step. by rewrite !length_fmap, length_seq. Qed.

Lemma chunk_start_lt (n i : nat) :
  (i < (n + CHUNK_SIZE - 1) / CHUNK_SIZE)%nat → (i * CHUNK_SIZE < n)%nat.
Proof.
  intros Hi.
  pose proof (Nat.Div0.mul_div_le (n + CHUNK_SIZE - 1) CHUNK_SIZE) as Hle.
  revert Hi Hle. generalize ((n + CHUNK_SIZE - 1) / CHUNK_SIZE)%nat.
  unfold CHUNK_SIZE. intros q Hi Hle. lia.
Qed.

Lemma chunks_bounds {A} (l : list A) :
  Forall (λ c, (0 < length c ≤ CHUNK_SIZE)%nat) (chunks l).
Proof.
  apply Forall_forall. intros c Hc.
  apply list_elem_of_lookup in Hc as [i Hi].
  pose proof (lookup_lt_Some _ _ _ Hi) as Hlt.
  rewrite length_chunks in Hlt.
  rewrite chunks_lookup in Hi by done.
  injection Hi as <-.
  pose proof (chunk_start_lt _ _ Hlt).
  rewrite length_take, length_drop. unfold CHUNK_SIZE in *. lia.
Qed.

End Batches.

(** X1.  The batches of a list ([range(0, len(l), CHUNK_SIZE)] with
    [l[i:i + CHUNK_SIZE]]) put together are the list; there are
    ceil(len / 1000) of them, none is empty, none has more than 1000
    elements, and all but the last have exactly 1000. *)
Theorem chunks_partition {A} (l : list A) :
  concat (chunks l) = l ∧
  length (chunks l) = ((length l + CHUNK_SIZE - 1) / CHUNK_SIZE)%nat ∧
  Forall (λ c, (0 < length c ≤ CHUNK_SIZE)%nat) (chunks l) ∧
  ∀ i c, chunks l !! i = Some c → (S i < length (chunks l))%nat →
         length c = CHUNK_SIZE.
Proof.
  split; [apply (concat_chunks)|].
  split; [apply (length_chunks)|].
  split; [apply chunks_bounds|].
  intros i c Hi Hlt.
  rewrite (length_chunks) in Hlt.
  rewrite (chunks_lookup) in Hi by lia.
  injection Hi as <-.
  pose proof (chunk_start_lt _ _ Hlt).
  rewrite length_take, length_drop. unfold CHUNK_SIZE in *. lia.
Qed.

(** ** [_bulk_insert] *)

Section BulkInsert.
Context `{Env}.

Lemma assoc_set_assoc a t st : assoc a (set_assoc a t st) = t.
Proof. by destruct a. Qed.

Lemma set_assoc_set_assoc a t1 t2 st :
  set_assoc a t2 (set_assoc a t1 st) = set_assoc a t2 st.
Proof. by destruct a. Qed.

Lemma set_assoc_assoc a st : set_assoc a (assoc a st) st = st.
Proof. by destruct a, st. Qed.

Lemma chunks_slices {A} (l : list A) :
  (λ k, slice l (k * CHUNK_SIZE) (k * CHUNK_SIZE + CHUNK_SIZE))
    <$> seq 0 ((length l + CHUNK_SIZE - 1) / CHUNK_SIZE)
  = chunks l.
Proof. unfold chunks, range_step. by rewrite <- list_fmap_compose. Qed.

Lemma bulk_insert_loop_Ok a (cs : list (list (nat * nat))) (w : world) u
    (w' : world) :
  foldM (λ (_ : unit) chunk,
           match chunk with
           | [] => ret tt
           | _ => execute_insert (AssocTable a) (length chunk)
                    (λ st, set_assoc a (assoc a st ++ chunk) st)
           end) tt cs w = (Ok u, w') →
  view w' = set_assoc a (assoc a (view w) ++ concat cs) (view w) ∧
  log w'
  = reverse (INSERT (AssocTable a)
               <$> (length <$> filter (λ c, c ≠ []) cs)) ++ log w ∧
  committed w' = committed w.
Proof.
  revert w u. induction cs as [|c cs IH]; intros w u; simpl.
  - intros [= <- <-]. by rewrite app_nil_r, set_assoc_assoc.
  - intros ([] & w1 & Hbody & Hrest)%bind_Ok.
    apply IH in Hrest as (Hv & Hl & Hc).
    destruct c as [|p c].
    + injection Hbody as <-. by rewrite filter_cons_False by (by intros ?).
    + apply execute_insert_Ok in Hbody as (Hv1 & Hc1 & _ & Hl1 & _).
      rewrite filter_cons_True by done.
      rewrite Hv, Hl, Hc, Hv1, Hl1, Hc1.
      rewrite assoc_set_assoc, set_assoc_set_assoc, <- app_assoc.
      split; [done|]. split; [|done].
      rewrite !fmap_cons, reverse_cons, <- app_assoc. done.
Qed.

Lemma filter_all {A} (P : A → Prop) `{∀ x, Decision (P x)} (l : list A) :
  Forall P l → filter P l = l.
Proof.
  induction 1 as [|x l Hx _ IH]; [done|].
  by rewrite filter_cons_True, IH.
Qed.

Lemma foldM_fmap {A B C} (g : A → B) (body : C → B → M C) acc (l : list A)
    (w : world) :
  foldM body acc (g <$> l) w = foldM (λ acc x, body acc (g x)) acc l w.
Proof.
  revert acc w. induction l as [|x l IH]; intros acc w; [done|].
  simpl. unfold bind. destruct (body acc (g x) w) as [[acc'|e] w1]; [|done].
  apply IH.
Qed.

Lemma returns__bulk_insert a data_list : returns (_bulk_insert a data_list).
Proof.
  unfold _bulk_insert. case_bool_decide; [apply returns_ret|].
  apply returns_bind; [|intros _; apply returns_flush].
  apply returns_for_each. intros k.
  destruct (slice data_list _ _); [apply returns_ret|].
  apply returns_execute_insert.
Qed.

Lemma _bulk_insert_Ok a (data_list : list (nat * nat)) (w : world) u
    (w' : world) :
  _bulk_insert a data_list w = (Ok u, w') →
  view w' = set_assoc a (assoc a (view w) ++ data_list) (view w) ∧
  committed w' = committed w ∧
  log w'
  = match data_list with
    | [] => []
    | _ => FLUSH :: reverse (INSERT (AssocTable a)
                               <$> chunk_sizes data_list)
    end ++ log w.
Proof.
  unfold _bulk_insert. case_bool_decide as Hlen.
  - intros [= <- <-]. apply nil_length_inv in Hlen as ->.
    by rewrite app_nil_r, set_assoc_assoc.
  - intros ([] & w1 & Hloop & Hflush)%bind_Ok.
    unfold for_each in Hloop.
    rewrite <- (foldM_fmap
                 (λ k, slice data_list (k * CHUNK_SIZE)
                         (k * CHUNK_SIZE + CHUNK_SIZE))
                 (λ (_ : unit) chunk,
                    match chunk with
                    | [] => ret tt
                    | _ => execute_insert (AssocTable a) (length chunk)
                             (λ st, set_assoc a (assoc a st ++ chunk) st)
                    end)) in Hloop.
    rewrite chunks_slices in Hloop.
    apply bulk_insert_loop_Ok in Hloop as (Hv & Hl & Hc).
    apply flush_Ok in Hflush as (Hv' & Hc' & _ & Hl' & _).
    rewrite concat_chunks in Hv.
    rewrite filter_all in Hl.
    + rewrite Hv', Hc', Hl', Hv, Hc, Hl. by destruct data_list.
    + eapply Forall_impl; [apply chunks_bounds|].
      intros c Hc0 ->. simpl in Hc0. lia.
Qed.

End BulkInsert.

(** X2.  [_bulk_insert] returns whenever no statement fails.  When it
    returns, the association table is what it was followed by the whole list
    in order, and nothing else in the transaction's view has changed; nothing
    is committed.  For an empty list it sends no statement at all; otherwise
    it sends one INSERT per batch of the list (no batch is skipped as empty)
    and then a single FLUSH. *)
Theorem bulk_insert_appends_in_batches `{Env} (a : assoc_table)
    (data_list : list (nat * nat)) (w : world) :
  (faults w = None → completes (_bulk_insert a data_list w) = true) ∧
  ∀ u w', _bulk_insert a data_list w = (Ok u, w') →
    view w' = set_assoc a (assoc a (view w) ++ data_list) (view w) ∧
    committed w' = committed w ∧
    log w'
    = match data_list with
      | [] => []
      | _ => FLUSH :: reverse (INSERT (AssocTable a)
                                 <$> chunk_sizes data_list)
      end ++ log w.
Proof.
  split.
  { intros Hw. by destruct (returns__bulk_insert a data_list w Hw)
      as (u & w' & -> & _). }
  intros u w'. apply _bulk_insert_Ok.
Qed.

(** ** [_seed_user_groups] *)

Section UserGroups.
Context `{Env}.

Lemma print_Ok p (w : world) u (w' : world) :
  print p w = (Ok u, w') →
  view w' = view w ∧ committed w' = committed w ∧ in_tx w' = in_tx w ∧
  log w' = log w ∧ console w' = p :: console w ∧ faults w' = faults w.
Proof. unfold print, modify. by intros [= <- <-]. Qed.

Lemma _seed_user_groups_Ok (w : world) u (w' : world) :
  _seed_user_groups w = (Ok u, w') →
  committed w' = committed w ∧
  match user_groups (view w) with
  | [] =>
      view w'
      = set_table UserGroupModel
          (imap (λ i g, Obj (S i) ({[ py "name" := g ]} : gmap str str))
                UserGroupEnum)
          (view w) ∧
      log w'
      = [FLUSH; INSERT (EntityTable UserGroupModel) (length UserGroupEnum);
         SELECT (EntityTable UserGroupModel)] ++ log w ∧
      console w' = UserGroupsSeeded :: console w
  | _ :: _ =>
      view w' = view w ∧
      log w' = [SELECT (EntityTable UserGroupModel)] ++ log w ∧
      console w' = console w
  end.
Proof.
  unfold _seed_user_groups.
  intros (n & w1 & Hsel & Hrun)%bind_Ok.
  apply execute_select_Ok in Hsel as (-> & Hv1 & Hc1 & _ & Hl1 & Hp1).
  destruct (user_groups (view w)) as [|g gs] eqn:Hg; simpl in Hrun.
  - apply bind_Ok in Hrun as (? & w2 & Hins & Hrun).
    apply bind_Ok in Hrun as (? & w3 & Hfl & Hpr).
    apply execute_insert_Ok in Hins as (Hv2 & Hc2 & _ & Hl2 & Hp2).
    apply flush_Ok in Hfl as (Hv3 & Hc3 & _ & Hl3 & Hp3).
    apply print_Ok in Hpr as (Hv4 & Hc4 & _ & Hl4 & Hp4 & _).
    rewrite Hv4, Hv3, Hv2, Hc4, Hc3, Hc2, Hc1, Hl4, Hl3, Hl2, Hl1.
    rewrite Hp4, Hp3, Hp2, Hp1, Hv1, Hg.
    rewrite length_fmap. split_and!; try done.
    unfold insert_values, new_rows. simpl. by rewrite imap_fmap.
  - unfold ret in Hrun. by simplify_eq.
Qed.

End UserGroups.

(** X3.  [_seed_user_groups] commits nothing.  On an empty user-group table
    it inserts one row per role name of [UserGroupEnum], in order, under the
    identifiers 1, 2, ..., with one INSERT and one FLUSH, and reports it; on
    a table that holds a row it only counts: the view is unchanged and the
    one statement sent is the SELECT. *)
Theorem seed_user_groups_only_when_empty `{Env} (w : world) (u : unit)
    (w' : world) :
  _seed_user_groups w = (Ok u, w') →
  committed w' = committed w ∧
  (user_groups (view w) = [] →
   view w'
   = set_table UserGroupModel
       (imap (λ i g, Obj (S i) ({[ py "name" := g ]} : gmap str str))
             UserGroupEnum)
       (view w) ∧
   log w'
   = [FLUSH; INSERT (EntityTable UserGroupModel) (length UserGroupEnum);
      SELECT (EntityTable UserGroupModel)] ++ log w ∧
   console w' = UserGroupsSeeded :: console w) ∧
  (user_groups (view w) ≠ [] →
   view w' = view w ∧
   log w' = [SELECT (EntityTable UserGroupModel)] ++ log w ∧
   console w' = console w).
Proof.
  intros Hrun. apply _seed_user_groups_Ok in Hrun as [Hc Hrun].
  split; [done|].
  destruct (user_groups (view w)); split; done.
Qed.

(** X4.  With a non-empty [UserGroupEnum], [_seed_user_groups] seeds once:
    after a run that returned, the table is not empty, and a further run
    leaves the view as it is and sends no INSERT. *)
Theorem seed_user_groups_idempotent `{Env} (w : world) (u1 u2 : unit)
    (w1 w2 : world) :
  UserGroupEnum ≠ [] →
  _seed_user_groups w = (Ok u1, w1) →
  _seed_user_groups w1 = (Ok u2, w2) →
  user_groups (view w1) ≠ [] ∧
  view w2 = view w1 ∧
  log w2 = [SELECT (EntityTable UserGroupModel)] ++ log w1.
Proof.
  intros Henum Hrun1 Hrun2.
  apply _seed_user_groups_Ok in Hrun1 as [_ Hrun1].
  apply _seed_user_groups_Ok in Hrun2 as [_ Hrun2].
  assert (user_groups (view w1) ≠ []) as Hne.
  { destruct (user_groups (view w)) as [|g gs] eqn:Hg.
    - destruct Hrun1 as (-> & _). simpl.
      destruct UserGroupEnum; [done|]. done.
    - destruct Hrun1 as (-> & _). by rewrite Hg. }
  split; [done|]. destruct (user_groups (view w1)); [done|].
  by destruct Hrun2 as (? & ? & _).
Qed.

(** ** Generated identifiers *)

Section Identifiers.
Context `{Env}.

Lemma max_list_app (l1 l2 : list nat) :
  max_list (l1 ++ l2) = (max_list l1 `max` max_list l2)%nat.
Proof. induction l1 as [|n l1 IH]; simpl; [done|]. rewrite IH. lia. Qed.

Lemma max_list_seq (n len : nat) :
  max_list (seq n (S len)) = (n + len)%nat.
Proof.
  revert n. induction len as [|len IH]; intros n; [simpl; lia|].
  rewrite <- cons_seq.
  change (max_list (n :: seq (S n) (S len)))
    with (n `max` max_list (seq (S n) (S len)))%nat.
  rewrite IH. lia.
Qed.

Lemma ids_new_rows {A} (t : list (obj A)) (vals : list A) :
  id_of <$> new_rows t vals = seq (next_id t) (length vals).
Proof.
  unfold new_rows. rewrite fmap_imap.
  etrans; [|apply (list_fmap_id (seq (next_id t) (length vals)))].
  rewrite <- (imap_seq vals id (next_id t)). by apply imap_ext.
Qed.

Lemma next_id_insert_values {A} (t : list (obj A)) (vals : list A) :
  next_id (insert_values t vals) = (next_id t + length vals)%nat.
Proof.
  unfold insert_values, next_id at 1.
  rewrite fmap_app, max_list_app, ids_new_rows.
  destruct vals as [|v vals]; [simpl; unfold next_id; lia|].
  simpl length. rewrite max_list_seq. unfold next_id. lia.
Qed.

Lemma new_rows_app {A} (t : list (obj A)) (c1 c2 : list A) :
  new_rows t (c1 ++ c2) = new_rows t c1 ++ new_rows (insert_values t c1) c2.
Proof.
  unfold new_rows at 1 2. rewrite imap_app. f_equal.
  unfold new_rows. rewrite next_id_insert_values.
  apply imap_ext. intros i v _. simpl. f_equal. lia.
Qed.

Lemma insert_values_app {A} (t : list (obj A)) (c1 c2 : list A) :
  insert_values (insert_values t c1) c2 = insert_values t (c1 ++ c2).
Proof.
  unfold insert_values at 1 3. rewrite new_rows_app.
  unfold insert_values at 1. by rewrite app_assoc.
Qed.

Lemma insert_values_nil {A} (t : list (obj A)) : insert_values t [] = t.
Proof. unfold insert_values. simpl. by rewrite app_nil_r. Qed.

Lemma id_lt_next_id {A} (t : list (obj A)) o :
  o ∈ t → (id_of o < next_id t)%nat.
Proof.
  intros Ho. unfold next_id.
  assert (id_of o ∈ id_of <$> t) as Hin by (apply list_elem_of_fmap; eauto).
  apply max_list_elem_of_le in Hin. lia.
Qed.

Lemma next_id_le_new {A} (t : list (obj A)) vals o :
  o ∈ new_rows t vals → (next_id t ≤ id_of o)%nat.
Proof.
  intros Ho.
  assert (id_of o ∈ id_of <$> new_rows t vals) as Hin
    by (apply list_elem_of_fmap; eauto).
  rewrite ids_new_rows in Hin. apply elem_of_seq in Hin. lia.
Qed.

Lemma NoDup_ids_insert_values {A} (t : list (obj A)) vals :
  NoDup (id_of <$> t) → NoDup (id_of <$> insert_values t vals).
Proof.
  intros Hnd. unfold insert_values. rewrite fmap_app, ids_new_rows.
  apply NoDup_app. split; [done|]. split; [|apply NoDup_seq].
  intros i Hi Hseq. apply elem_of_seq in Hseq.
  apply list_elem_of_fmap in Hi as (o & -> & Ho).
  apply id_lt_next_id in Ho. lia.
Qed.

Lemma NoDup_fmap_inj_on {A B} (f : A → B) (l : list A) x y :
  NoDup (f <$> l) → x ∈ l → y ∈ l → f x = f y → x = y.
Proof.
  induction l as [|z l IH]; [by intros _ ?%not_elem_of_nil|].
  rewrite fmap_cons, NoDup_cons. intros [Hz Hnd].
  intros [->|Hx]%elem_of_cons [->|Hy]%elem_of_cons Heq; [done| | |by apply IH].
  - destruct Hz. rewrite Heq. apply list_elem_of_fmap. eauto.
  - destruct Hz. rewrite <- Heq. apply list_elem_of_fmap. eauto.
Qed.

End Identifiers.

(** ** [_get_or_create_bulk] *)

Section ResolveEffect.
Context `{Env}.
Variables (m : model) (field : str).

Lemma set_table_set_table t1 t2 st :
  set_table m t2 (set_table m t1 st) = set_table m t2 st.
Proof. by destruct m. Qed.

Lemma set_table_table st : set_table m (table m st) st = st.
Proof. by destruct m, st. Qed.

Lemma filter_ext_in {A} (P Q : A → Prop) `{∀ x, Decision (P x)}
    `{∀ x, Decision (Q x)} (l : list A) :
  (∀ x, x ∈ l → P x ↔ Q x) → filter P l = filter Q l.
Proof.
  induction l as [|x l IH]; intros Hext; [done|].
  rewrite !filter_cons, IH by (intros y Hy; apply Hext; by right).
  assert (P x ↔ Q x) as Hx by (apply Hext; by left).
  destruct (decide (P x)), (decide (Q x)); try done; tauto.
Qed.

Lemma insert_chunks_effect (cs : list (list (gmap str str))) (w : world) u
    (w' : world) :
  for_each cs (λ chunk,
      execute_insert (EntityTable m) (length chunk)
        (λ st, set_table m (insert_values (table m st) chunk) st) ;;
      flush) w = (Ok u, w') →
  view w'
  = set_table m (insert_values (table m (view w)) (concat cs)) (view w).
Proof.
  unfold for_each. revert w u.
  induction cs as [|c cs IH]; intros w u; simpl.
  - intros [= <- <-]. by rewrite insert_values_nil, set_table_table.
  - intros ([] & w1 & Hbody & Hrest)%bind_Ok.
    apply bind_Ok in Hbody as (? & w0 & Hins & Hfl).
    apply execute_insert_Ok in Hins as (Hv0 & _).
    apply flush_Ok in Hfl as (Hv1 & _).
    apply IH in Hrest as ->.
    rewrite Hv1, Hv0, table_set_table, set_table_set_table.
    by rewrite insert_values_app.
Qed.

(** The store a completed [_get_or_create_bulk] leaves in the transaction. *)
Lemma _get_or_create_bulk_effect (items : list str) (w : world) d
    (w' : world) :
  _get_or_create_bulk m items field w = (Ok d, w') →
  view w'
  = set_table m
      (insert_values (table m (view w))
         ((λ item, {[ field := item ]} : gmap str str)
            <$> absent field (table m (view w)) items))
      (view w).
Proof.
  unfold _get_or_create_bulk.
  intros (dict1 & w1 & [[Hv1 _] Hd1]%existing_Ok & Hrun)%bind_Ok.
  assert (filter (λ item, dict1 !! item = None) items
          = absent field (table m (view w)) items) as Hnew.
  { apply filter_ext_in. intros k Hk.
    by rewrite Hd1, bool_decide_eq_true_2. }
  rewrite Hnew in Hrun.
  destruct ((λ item, {[ field := item ]} : gmap str str)
              <$> absent field (table m (view w)) items)
    as [|rec recs] eqn:Hrecs.
  - injection Hrun as <- <-.
    by rewrite Hv1, insert_values_nil, set_table_table.
  - rewrite <- Hrecs in Hrun |- *. clear rec recs Hrecs.
    apply bind_Ok in Hrun as (u & w2 & Hins & Hsel).
    apply insert_chunks_effect in Hins.
    apply select_merge_Ok in Hsel as [[Hv2 _] _].
    by rewrite Hv2, Hins, concat_chunks, Hv1.
Qed.

Lemma elem_of_keys_of (k : str) (t : list entity) :
  k ∈ keys_of field t ↔ is_Some (last_with field k t).
Proof.
  unfold keys_of. rewrite list_elem_of_omap. split.
  - intros (o & Ho & Hk). by eapply last_with_is_Some.
  - intros [o Ho]. apply last_with_Some in Ho as [? ?]. eauto.
Qed.

Lemma keys_of_new_rows (t : list entity) (ks : list str) :
  keys_of field
    (new_rows t ((λ item, {[ field := item ]} : gmap str str) <$> ks))
  = ks.
Proof.
  unfold keys_of, new_rows. generalize (next_id t). intros n. revert n.
  induction ks as [|k ks IH]; intros n; [done|].
  simpl. unfold getattr at 1. simpl. rewrite lookup_singleton_eq. f_equal.
  rewrite <- (IH (S n)) at 2. f_equal.
  apply imap_ext. intros i x _. simpl. f_equal. lia.
Qed.

End ResolveEffect.

(** X5.  A completed [_get_or_create_bulk] has changed nothing but the
    table of its model, and that only by appending: the view is what it was
    with, at the end of that table, one new row per item that no row of the
    table had as its unique field, in the order (and with the multiplicity)
    of the items, each holding just that field and the next free
    identifier.  Nothing is committed. *)
Theorem get_or_create_bulk_appends_absent_items `{Env} (m : model)
    (items : list str) (unique_field : str) (w : world)
    (d : gmap str entity) (w' : world) :
  _get_or_create_bulk m items unique_field w = (Ok d, w') →
  view w'
  = set_table m
      (table m (view w)
       ++ imap (λ i item,
                  Obj (next_id (table m (view w)) + i)%nat
                      ({[ unique_field := item ]} : gmap str str))
               (absent unique_field (table m (view w)) items))
      (view w) ∧
  committed w' = committed w.
Proof.
  intros Hrun. split.
  - apply _get_or_create_bulk_effect in Hrun as ->.
    unfold insert_values, new_rows. by rewrite imap_fmap.
  - by apply tx_safe__get_or_create_bulk in Hrun as [? _].
Qed.

(** X6.  [_get_or_create_bulk] keeps the natural key unique: when the items
    are pairwise distinct and no two rows of the table share a value of the
    unique field, no two rows share one after the call either, and the
    values are the old ones followed by the items that were absent. *)
Theorem get_or_create_bulk_keeps_keys_unique `{Env} (m : model)
    (items : list str) (unique_field : str) (w : world)
    (d : gmap str entity) (w' : world) :
  NoDup items →
  NoDup (keys_of unique_field (table m (view w))) →
  _get_or_create_bulk m items unique_field w = (Ok d, w') →
  keys_of unique_field (table m (view w'))
  = keys_of unique_field (table m (view w))
    ++ absent unique_field (table m (view w)) items ∧
  NoDup (keys_of unique_field (table m (view w'))).
Proof.
  intros Hitems Hkeys Hrun.
  apply _get_or_create_bulk_effect in Hrun as ->.
  rewrite table_set_table. unfold insert_values.
  assert (keys_of unique_field
            (table m (view w)
             ++ new_rows (table m (view w))
                  ((λ item, {[ unique_field := item ]} : gmap str str)
                     <$> absent unique_field (table m (view w)) items))
          = keys_of unique_field (table m (view w))
            ++ absent unique_field (table m (view w)) items) as ->.
  { unfold keys_of at 1. rewrite omap_app. f_equal. apply keys_of_new_rows. }
  split; [done|]. apply NoDup_app. split; [done|]. split.
  - intros k Hk Habs. apply elem_of_keys_of in Hk as [o Ho].
    apply list_elem_of_filter in Habs as [Hnone _]. congruence.
  - by apply NoDup_filter.
Qed.

(** X7.  [_get_or_create_bulk] keeps the identifiers unique, and with
    unique identifiers the mapping it returns sends different keys to rows
    with different identifiers. *)
Theorem get_or_create_bulk_distinct_ids `{Env} (m : model)
    (items : list str) (unique_field : str) (w : world)
    (d : gmap str entity) (w' : world) :
  NoDup (id_of <$> table m (view w)) →
  _get_or_create_bulk m items unique_field w = (Ok d, w') →
  NoDup (id_of <$> table m (view w')) ∧
  ∀ k1 k2 o1 o2,
    d !! k1 = Some o1 → d !! k2 = Some o2 → k1 ≠ k2 →
    id_of o1 ≠ id_of o2.
Proof.
  intros Hids Hrun.
  assert (NoDup (id_of <$> table m (view w'))) as Hids'.
  { apply _get_or_create_bulk_effect in Hrun as ->.
    rewrite table_set_table. by apply NoDup_ids_insert_values. }
  split; [done|]. intros k1 k2 o1 o2 Hk1 Hk2 Hne Heq.
  apply _get_or_create_bulk_Ok in Hrun as (Hlook & _).
  rewrite Hlook in Hk1, Hk2.
  case_bool_decide; [|done]. case_bool_decide; [|done].
  apply last_with_Some in Hk1 as [Ho1 Ha1].
  apply last_with_Some in Hk2 as [Ho2 Ha2].
  assert (o1 = o2) as -> by (by eapply (NoDup_fmap_inj_on id_of)).
  congruence.
Qed.

(** ** The record builders *)

Section Builders.
Context `{Env}.

Lemma append_pairs_Raise ref_map movie_id acc (tokens : list str) e :
  append_pairs ref_map movie_id acc tokens = Raise e →
  ∃ t, t ∈ filter (λ t, t ≠ []) (PyStr.strip <$> tokens) ∧
       ref_map !! t = None ∧ e = KeyError t.
Proof.
  revert acc. induction tokens as [|t tokens IH]; intros acc; simpl; [done|].
  case_bool_decide as Ht.
  - rewrite filter_cons_True by done. unfold getitem at 1.
    destruct (ref_map !! PyStr.strip t) as [o|] eqn:Ho; simpl.
    + intros (t' & Hin & Hnone & ->)%IH. exists t'.
      split_and!; [by right | done..].
    + intros [= <-]. exists (PyStr.strip t). split_and!; [by left | done..].
  - rewrite filter_cons_False by (intros Hn; by apply Hn). apply IH.
Qed.

Lemma associations_from_Raise i (data : frame) movie_ids genre_map actor_map
    language_map acc e :
  associations_from i data movie_ids genre_map actor_map language_map acc
  = Raise e →
  (e = IndexError ∧ (length (drop i movie_ids) < length data)%nat) ∨
  ∃ row t,
    row ∈ data ∧ e = KeyError t ∧
    ((t ∈ nonempty_tokens (genre row) ∧ genre_map !! t = None) ∨
     (t ∈ nonempty_tokens (crew row) ∧ actor_map !! t = None) ∨
     (t ∈ nonempty_tokens (orig_lang row) ∧ language_map !! t = None)).
Proof.
  revert i acc. induction data as [|row data IH]; intros i acc; [done|].
  destruct acc as [[mg ma] ml]. simpl. unfold index at 1.
  destruct (movie_ids !! i) as [movie_id|] eqn:Hid; simpl.
  2:{ intros [= <-]. left. split; [done|].
      apply lookup_ge_None in Hid. rewrite length_drop. lia. }
  destruct (append_pairs genre_map _ _ _) as [mg'|e1] eqn:Hg; simpl.
  2:{ intros [= <-]. apply append_pairs_Raise in Hg as (t & ? & ? & ->).
      right. exists row, t. split_and!; [by left | done | by left]. }
  destruct (append_pairs actor_map _ _ _) as [ma'|e2] eqn:Ha; simpl.
  2:{ intros [= <-]. apply append_pairs_Raise in Ha as (t & ? & ? & ->).
      right. exists row, t. split_and!; [by left | done |]. right. by left. }
  destruct (append_pairs language_map _ _ _) as [ml'|e3] eqn:Hl; simpl.
  2:{ intros [= <-]. apply append_pairs_Raise in Hl as (t & ? & ? & ->).
      right. exists row, t. split_and!; [by left | done |]. right. by right. }
  intros [[-> Hlen]|(row' & t & Hin & -> & Hcase)]%IH.
  - left. split; [done|]. rewrite (drop_S _ _ _ Hid). simpl. lia.
  - right. exists row', t. split_and!; [by right | done..].
Qed.

End Builders.

(** X8.  [_prepare_movies_data] builds one record per row, in order, with
    the identifier of the row's country in the map; it raises exactly when
    some row's country is not a key of the map, and then the exception is
    the KeyError of the first such row's country. *)
Theorem prepare_movies_data_first_missing_country `{Env} (data : frame)
    (country_map : gmap str entity) :
  match _prepare_movies_data data country_map with
  | Ok movies_data =>
      movies_data
      = (λ row, Movie (names row) (date_x row) (score row) (overview row)
                      (status row) (budget_x row) (revenue row)
                      (ref_id country_map (country row))) <$> data ∧
      ∀ row, row ∈ data → is_Some (country_map !! country row)
  | Raise e =>
      ∃ before row after,
        data = before ++ row :: after ∧
        (∀ r, r ∈ before → is_Some (country_map !! country r)) ∧
        country_map !! country row = None ∧
        e = KeyError (country row)
  end.
Proof.
  unfold _prepare_movies_data.
  set (f := λ row : Row str date float, _).
  induction data as [|row data IH].
  - simpl. split; [done|]. by intros row ?%not_elem_of_nil.
  - cbn [traverse]. destruct (traverse f data) as [movies_data|e].
    + destruct IH as [-> Hkeys]. unfold f at 1, getitem, ref_id at 1.
      destruct (country_map !! country row) as [o|] eqn:Ho; simpl.
      * split; [unfold ref_id; by rewrite Ho|].
        intros row' [->|Hin]%elem_of_cons; [by rewrite Ho | by apply Hkeys].
      * exists [], row, data. split_and!; try done.
        by intros r ?%not_elem_of_nil.
    + destruct IH as (before & row' & after & -> & Hbefore & Hnone & ->).
      unfold f at 1, getitem.
      destruct (country_map !! country row) as [o|] eqn:Ho; simpl.
      * exists (row :: before), row', after. split_and!; [done| |done..].
        intros r [->|Hin]%elem_of_cons; [by rewrite Ho | by apply Hbefore].
      * exists [], row, (before ++ row' :: after). split_and!; try done.
        by intros r ?%not_elem_of_nil.
Qed.

(** X9.  [_prepare_associations] raises nothing but IndexError and
    KeyError: IndexError only when there are fewer movie ids than rows, and
    a KeyError only for a non-empty trimmed token of some row's genre, crew
    or orig_lang cell that is not a key of the corresponding map. *)
Theorem prepare_associations_raises `{Env} (data : frame)
    (movie_ids : list nat) (genre_map actor_map language_map : gmap str entity)
    (e : exn) :
  _prepare_associations data movie_ids genre_map actor_map language_map
  = Raise e →
  (e = IndexError ∧ (length movie_ids < length data)%nat) ∨
  ∃ row t,
    row ∈ data ∧ e = KeyError t ∧
    ((t ∈ nonempty_tokens (genre row) ∧ genre_map !! t = None) ∨
     (t ∈ nonempty_tokens (crew row) ∧ actor_map !! t = None) ∨
     (t ∈ nonempty_tokens (orig_lang row) ∧ language_map !! t = None)).
Proof. unfold _prepare_associations. apply associations_from_Raise. Qed.

(** ** The movie insertion loop *)

Section MovieLoop.
Context `{Env}.

Lemma filter_none {A} (P : A → Prop) `{∀ x, Decision (P x)} (l : list A) :
  (∀ x, x ∈ l → ¬ P x) → filter P l = [].
Proof.
  induction l as [|x l IH]; intros Hno; [done|].
  rewrite filter_cons_False by (apply Hno; by left).
  apply IH. intros y Hy. apply Hno. by right.
Qed.

Lemma select_movie_id_single (o : obj movie) (w : world) :
  faults w = None →
  filter (matches (values o)) (movies (view w)) = [o] →
  ∃ w', select_movie_id (values o) w = (Ok [id_of o], w') ∧
        faults w' = None ∧ view w' = view w.
Proof.
  intros Hw Hone. unfold select_movie_id.
  match goal with
  | |- context [execute_select ?t ?q w] =>
      destruct (returns_execute_select t q w Hw) as (ids & w' & Hrun & Hw')
  end.
  exists w'. pose proof Hrun as (-> & Hv & _)%execute_select_Ok.
  split_and!; [|done..]. rewrite Hrun. do 2 f_equal.
  change (filter _ (movies (view w)))
    with (filter (matches (values o)) (movies (view w))).
  by rewrite Hone.
Qed.

Lemma fetch_ids_single (rows : list (obj movie)) acc (w : world) :
  faults w = None →
  Forall (λ o, filter (matches (values o)) (movies (view w)) = [o]) rows →
  ∃ w', foldM (λ movie_ids mv,
                 let* result := select_movie_id mv in
                 let* movie_id := lift (scalar_one result) in
                 ret (movie_ids ++ [movie_id]))
              acc (values <$> rows) w
        = (Ok (acc ++ (id_of <$> rows)), w') ∧
        faults w' = None ∧ view w' = view w.
Proof.
  revert acc w. induction rows as [|o rows IH]; intros acc w Hw Hone; simpl.
  - exists w. by rewrite app_nil_r.
  - apply Forall_cons in Hone as [Ho Hone].
    destruct (select_movie_id_single o w Hw Ho) as (w1 & Hsel & Hw1 & Hv1).
    destruct (IH (acc ++ [id_of o]) w1) as (w' & Hrest & Hw' & Hv');
      [done | by rewrite Hv1 |].
    exists w'. split_and!; [|done|congruence].
    rewrite <- app_assoc in Hrest.
    unfold bind at 1. unfold bind at 1. rewrite Hsel.
    unfold bind, lift, ret. simpl. exact Hrest.
Qed.

(** What the re-query of one inserted row tells when it succeeds. *)
Lemma fetch_ids_facts (rows : list (obj movie)) acc (w : world) out
    (w' : world) :
  Forall (λ o, o ∈ movies (view w)) rows →
  foldM (λ movie_ids mv,
           let* result := select_movie_id mv in
           let* movie_id := lift (scalar_one result) in
           ret (movie_ids ++ [movie_id]))
        acc (values <$> rows) w = (Ok out, w') →
  Forall (λ o, is_Some (m_name (values o)) ∧
               ∀ o2, o2 ∈ movies (view w) → row_key o2 = row_key o → o2 = o)
         rows.
Proof.
  revert acc w. induction rows as [|o rows IH]; intros acc w Hin; simpl;
    [by intros _|].
  apply Forall_cons in Hin as [Ho Hin].
  intros (acc' & w1 & Hbody & Hrest)%bind_Ok.
  apply bind_Ok in Hbody as (result & w1' & Hsel & Hbody).
  apply bind_Ok in Hbody as (movie_id & w1'' & Hone & [= <- <-]).
  unfold lift in Hone. injection Hone as Hone <-.
  apply execute_select_Ok in Hsel as (-> & Hv & _).
  apply IH in Hrest; [|by rewrite Hv]. rewrite Hv in Hrest.
  constructor; [|done].
  change (filter _ (movies (view w)))
    with (filter (matches (values o)) (movies (view w))) in Hone.
  destruct (filter (matches (values o)) (movies (view w)))
    as [|o1 [|o2 os]] eqn:Hf; simplify_eq/=.
  assert (o1 ∈ filter (matches (values o)) (movies (view w))) as Ho1
    by (rewrite Hf; left).
  apply list_elem_of_filter in Ho1 as [Hm _].
  pose proof (matches_name _ _ Hm) as Hname.
  assert (∀ o2, o2 ∈ movies (view w) → row_key o2 = row_key o → o2 = o1)
    as Huniq.
  { intros o2 Ho2 Hkey.
    assert (o2 ∈ filter (matches (values o)) (movies (view w))) as Hin2.
    { apply list_elem_of_filter. split; [|done]. by apply matches_row_key. }
    rewrite Hf in Hin2. by apply list_elem_of_singleton in Hin2. }
  split; [done|]. intros o2 Ho2 Hkey.
  rewrite (Huniq o2 Ho2 Hkey). symmetry. by apply Huniq.
Qed.

Lemma NoDup_new_rows {A} (t : list (obj A)) vals : NoDup (new_rows t vals).
Proof.
  apply (NoDup_fmap_1 id_of). rewrite ids_new_rows. apply NoDup_seq.
Qed.

Lemma insert_movies_chunks_facts (cs : list (list movie)) acc (w : world) out
    (w' : world) :
  foldM (λ movie_ids chunk,
      execute_insert MovieModel (length chunk)
        (λ st, set_movies (insert_values (movies st) chunk) st) ;;
      flush ;;
      foldM (λ movie_ids mv,
          let* result := select_movie_id mv in
          let* movie_id := lift (scalar_one result) in
          ret (movie_ids ++ [movie_id]))
        movie_ids chunk)
    acc cs w = (Ok out, w') →
  view w' = set_movies (insert_values (movies (view w)) (concat cs)) (view w) ∧
  out = acc ++ (id_of <$> new_rows (movies (view w)) (concat cs)) ∧
  insertable (movies (view w)) (concat cs).
Proof.
  revert acc w. induction cs as [|c cs IH]; intros acc w; simpl.
  - intros [= <- <-]. rewrite insert_values_nil, app_nil_r.
    split_and!; [by destruct (view w) | done |].
    split_and!; [done | constructor | by intros o _ ?%not_elem_of_nil].
  - intros (acc' & w1 & Hbody & Hrest)%bind_Ok.
    apply bind_Ok in Hbody as (? & w2 & Hins & Hbody).
    apply bind_Ok in Hbody as (? & w3 & Hfl & Hfetch).
    apply execute_insert_Ok in Hins as (Hv2 & _).
    apply flush_Ok in Hfl as (Hv3 & _).
    set (T := movies (view w)) in *. set (R := new_rows T c).
    assert (movies (view w3) = T ++ R) as Ht by (by rewrite Hv3, Hv2).
    rewrite <- (values_new_rows T c) in Hfetch. fold R in Hfetch.
    assert (Forall (λ o, o ∈ movies (view w3)) R) as HR.
    { apply Forall_forall. intros o Ho. rewrite Ht. apply elem_of_app.
      by right. }
    pose proof (fetch_ids_facts _ _ _ _ _ HR Hfetch) as Hfacts.
    apply fetch_ids_Ok in Hfetch as [-> Hv1]; [|done].
    apply IH in Hrest as (Hv & -> & Hnames & Hnd & Hdisj).
    rewrite Hv1, Ht in Hv, Hdisj |- *. rewrite Ht in Hfacts.
    rewrite Forall_forall in Hfacts.
    assert (movie_key <$> c = row_key <$> R) as Hkeys.
    { unfold R. by rewrite row_key_new_rows. }
    split_and!.
    + rewrite Hv, Hv3, Hv2. unfold insert_values at 2. fold T R.
      change (set_movies ?t (set_movies _ ?s)) with (set_movies t s).
      f_equal. change (T ++ R) with (insert_values T c).
      by rewrite insert_values_app.
    + rewrite new_rows_app, fmap_app, <- app_assoc. done.
    + split_and!.
      * apply Forall_app. split; [|done].
        rewrite <- (values_new_rows T c). apply Forall_fmap.
        apply Forall_forall. intros o Ho. by destruct (Hfacts o Ho).
      * rewrite fmap_app. apply NoDup_app. split_and!; [| |done].
        -- rewrite Hkeys. apply NoDup_fmap_2_strong; [|apply NoDup_new_rows].
           intros o1 o2 Ho1 Ho2 Hkey. destruct (Hfacts o2 Ho2) as [_ Hu].
           apply Hu; [|done]. apply elem_of_app. by right.
        -- intros k Hk. rewrite Hkeys in Hk.
           apply list_elem_of_fmap in Hk as (o & -> & Ho).
           apply Hdisj. apply elem_of_app. by right.
      * intros o Ho. rewrite fmap_app. intros [Hk|Hk]%elem_of_app.
        -- rewrite Hkeys in Hk.
           apply list_elem_of_fmap in Hk as (r & Hkey & Hr).
           destruct (Hfacts r Hr) as [_ Hu].
           assert (o = r) as -> by (apply Hu; [apply elem_of_app; by left|done]).
           apply id_lt_next_id in Ho. apply next_id_le_new in Hr. lia.
        -- revert Hk. apply Hdisj. apply elem_of_app. by left.
Qed.

Lemma insert_movies_chunks_single (cs : list (list movie)) acc (w : world) :
  faults w = None →
  insertable (movies (view w)) (concat cs) →
  ∃ out w',
    foldM (λ movie_ids chunk,
        execute_insert MovieModel (length chunk)
          (λ st, set_movies (insert_values (movies st) chunk) st) ;;
        flush ;;
        foldM (λ movie_ids mv,
            let* result := select_movie_id mv in
            let* movie_id := lift (scalar_one result) in
            ret (movie_ids ++ [movie_id]))
          movie_ids chunk)
      acc cs w = (Ok out, w') ∧ faults w' = None.
Proof.
  revert acc w. induction cs as [|c cs IH]; intros acc w Hw Hins.
  - simpl. eauto.
  - destruct Hins as (Hnames & Hnd & Hdisj). simpl in Hnames, Hnd, Hdisj.
    rewrite fmap_app in Hnd, Hdisj.
    apply Forall_app in Hnames as [Hc Hcs].
    apply NoDup_app in Hnd as (Hndc & Hcross & Hndcs).
    destruct (returns_execute_insert MovieModel (length c)
                (λ st, set_movies (insert_values (movies st) c) st) w Hw)
      as ([] & w1 & Hrun1 & Hw1).
    destruct (returns_flush w1 Hw1) as ([] & w2 & Hfl & Hw2).
    pose proof Hrun1 as (Hv1 & _)%execute_insert_Ok.
    pose proof Hfl as (Hv2 & _)%flush_Ok.
    set (T := movies (view w)) in *. set (R := new_rows T c).
    assert (movies (view w2) = T ++ R) as Ht by (by rewrite Hv2, Hv1).
    assert (movie_key <$> c = row_key <$> R) as Hkeys.
    { unfold R. by rewrite row_key_new_rows. }
    assert (∀ o, o ∈ R → is_Some (m_name (values o))) as HnameR.
    { intros o Ho. rewrite Forall_forall in Hc. apply Hc.
      rewrite <- (values_new_rows T c). apply list_elem_of_fmap. eauto. }
    destruct (fetch_ids_single R acc w2) as (w3 & Hfetch & Hw3 & Hv3);
      [done | |].
    { apply Forall_forall. intros o Ho. rewrite Ht, filter_app.
      rewrite (list_filter_iff _ (λ y, row_key y = row_key o))
        by (intros y; apply matches_row_key; by apply HnameR).
      rewrite (list_filter_iff (matches (values o))
                 (λ y, row_key y = row_key o))
        by (intros y; apply matches_row_key; by apply HnameR).
      rewrite filter_none, filter_key_unique; [done | | done |].
      - by rewrite <- Hkeys.
      - intros y Hy Hkey. apply (Hdisj y Hy). apply elem_of_app. left.
        rewrite Hkeys, Hkey. apply list_elem_of_fmap. eauto. }
    unfold R in Hfetch. rewrite values_new_rows in Hfetch. fold R in Hfetch.
    destruct (IH (acc ++ (id_of <$> R)) w3) as (out & w' & Hrest & Hw');
      [done | |].
    { rewrite Hv3, Ht. split_and!; [done..|].
      intros o [Ho|Ho]%elem_of_app Hk.
      - apply (Hdisj o Ho). apply elem_of_app. by right.
      - apply (Hcross (row_key o)); [|done].
        rewrite Hkeys. apply list_elem_of_fmap. eauto. }
    exists out, w'. split; [|done].
    simpl. unfold bind at 1. unfold bind at 1. rewrite Hrun1.
    unfold bind at 1. rewrite Hfl, Hfetch. exact Hrest.
Qed.

Lemma new_rows_zip {A} (t : list (obj A)) (vals : list A) :
  new_rows t vals = zip_with Obj (seq (next_id t) (length vals)) vals.
Proof.
  unfold new_rows. generalize (next_id t). intros n. revert n.
  induction vals as [|v vals IH]; intros n; [done|].
  cbn [imap length zip_with]. rewrite <- cons_seq. cbn [zip_with].
  rewrite Nat.add_0_r. f_equal. rewrite <- IH.
  apply imap_ext. intros i x _. simpl. f_equal. lia.
Qed.

End MovieLoop.

(** X10.  While no statement fails, the movie insertion loop returns exactly
    when every record has a name, no two records share a (name, date) key
    and no record shares its key with a row already in the table: a missing
    name or a repeated key makes the re-query of the identifier raise. *)
Theorem insert_movies_returns_iff_insertable `{Env}
    (movies_data : list movie) (w : world) :
  faults w = None →
  completes (insert_movies movies_data w) = true ↔
  insertable (movies (view w)) movies_data.
Proof.
  intros Hw. unfold insert_movies. split.
  - destruct (foldM _ [] (chunks movies_data) w) as [[out|e] w'] eqn:Hrun;
      [|done].
    intros _. apply insert_movies_chunks_facts in Hrun as (_ & _ & Hins).
    by rewrite concat_chunks in Hins.
  - intros Hins.
    destruct (insert_movies_chunks_single (chunks movies_data) [] w)
      as (out & w' & -> & _); by rewrite ?concat_chunks.
Qed.

(** X11.  When the movie insertion loop returns, the identifiers it returns
    are the consecutive numbers from the next free identifier of the movie
    table on, one per record; the records are at the end of the movie table
    under these identifiers; nothing else in the view has changed and
    nothing is committed. *)
Theorem insert_movies_consecutive_ids `{Env} (movies_data : list movie)
    (w : world) (movie_ids : list nat) (w' : world) :
  insert_movies movies_data w = (Ok movie_ids, w') →
  movie_ids = seq (next_id (movies (view w))) (length movies_data) ∧
  view w'
  = set_movies (movies (view w) ++ zip_with Obj movie_ids movies_data)
               (view w) ∧
  committed w' = committed w.
Proof.
  intros Hrun.
  pose proof (tx_safe_insert_movies _ _ _ _ Hrun) as [Hc _].
  unfold insert_movies in Hrun.
  apply insert_movies_chunks_facts in Hrun as (Hv & -> & _).
  rewrite concat_chunks in Hv |- *. simpl.
  rewrite ids_new_rows. split_and!; [done| |done].
  rewrite Hv. unfold insert_values. by rewrite new_rows_zip.
Qed.

(** ** The whole seeding run *)

Section DataLayer.
Context `{Env}.

Ltac by_world_sa :=
  let w := fresh "w" in let e := fresh "e" in let w' := fresh "w'" in
  let E := fresh "E" in
  intros w e w' E;
  destruct w as [c wk [] [[|?]|] lg cs fl sv];
  unfold execute_select, execute_insert, flush, commit, rollback, tick,
    in_transaction, print, to_csv, lift, bind, modify, gets, ret,
    autobegin, sent, set_session, view in *;
  simpl in *; by simplify_eq.

Lemma data_layer_ret {A} (a : A) : data_layer_only (ret a).
Proof. by_world_sa. Qed.

Lemma data_layer_print p : data_layer_only (print p).
Proof. by_world_sa. Qed.

Lemma data_layer_in_transaction : data_layer_only in_transaction.
Proof. by_world_sa. Qed.

Lemma data_layer_rollback : data_layer_only rollback.
Proof. by_world_sa. Qed.

Lemma data_layer_flush : data_layer_only flush.
Proof. by_world_sa. Qed.

Lemma data_layer_commit : data_layer_only commit.
Proof. by_world_sa. Qed.

Lemma data_layer_execute_select {A} t (q : store → A) :
  data_layer_only (execute_select t q).
Proof. by_world_sa. Qed.

Lemma data_layer_execute_insert t n f :
  data_layer_only (execute_insert t n f).
Proof. by_world_sa. Qed.

Lemma data_layer_scalar_one {A} (rows : list A) :
  data_layer_only (lift (scalar_one rows)).
Proof.
  intros w e w'. unfold lift. destruct rows as [|a [|b rows]]; simpl;
    by intros [= <- <-].
Qed.

Lemma data_layer_bind {A B} (m : M A) (f : A → M B) :
  data_layer_only m → (∀ a, data_layer_only (f a)) →
  data_layer_only (bind m f).
Proof.
  intros Hm Hf w e w' [(e' & Hrun & [= ->])|(a & w1 & Hrun & Hk)]%bind_run.
  - by eapply Hm.
  - by eapply Hf.
Qed.

Lemma data_layer_foldM {A B} (body : B → A → M B) acc (l : list A) :
  (∀ acc x, data_layer_only (body acc x)) →
  data_layer_only (foldM body acc l).
Proof.
  intros Hbody. revert acc. induction l as [|x l IH]; intros acc; simpl.
  - apply data_layer_ret.
  - apply data_layer_bind; [apply Hbody | intros acc'; apply IH].
Qed.

Lemma data_layer_for_each {A} (l : list A) (body : A → M unit) :
  (∀ x, data_layer_only (body x)) → data_layer_only (for_each l body).
Proof. intros Hbody. apply data_layer_foldM. intros _ x. apply Hbody. Qed.

Hint Resolve data_layer_ret data_layer_print data_layer_in_transaction
  data_layer_rollback data_layer_flush data_layer_commit
  data_layer_execute_select data_layer_execute_insert
  data_layer_scalar_one : tx.

Ltac data_layer_step :=
  match goal with
  | |- data_layer_only (bind _ _) => apply data_layer_bind; [|intros ?]
  | |- data_layer_only (foldM _ _ _) => apply data_layer_foldM; intros ? ?
  | |- data_layer_only (for_each _ _) => apply data_layer_for_each; intros ?
  | |- data_layer_only (if ?b then _ else _) => destruct b
  | |- data_layer_only (match ?x with _ => _ end) => destruct x
  | |- data_layer_only _ => solve [auto with tx]
  end.

Lemma data_layer__seed_user_groups : data_layer_only _seed_user_groups.
Proof. unfold _seed_user_groups. repeat data_layer_step. Qed.

Lemma data_layer_select_merge m field items d :
  data_layer_only (select_merge m field items d).
Proof. unfold select_merge, select_in. repeat data_layer_step. Qed.

Hint Resolve data_layer_select_merge : tx.

Lemma data_layer__get_or_create_bulk m items field :
  data_layer_only (_get_or_create_bulk m items field).
Proof. unfold _get_or_create_bulk. repeat data_layer_step. Qed.

Hint Resolve data_layer__get_or_create_bulk : tx.

Lemma data_layer__prepare_reference_data data :
  data_layer_only (_prepare_reference_data data).
Proof. unfold _prepare_reference_data. repeat data_layer_step. Qed.

Lemma data_layer__bulk_insert a data_list :
  data_layer_only (_bulk_insert a data_list).
Proof. unfold _bulk_insert. repeat data_layer_step. Qed.

Lemma data_layer_insert_movies movies_data :
  data_layer_only (insert_movies movies_data).
Proof. unfold insert_movies, select_movie_id. repeat data_layer_step. Qed.

Lemma data_layer__preprocess_csv : data_layer_only _preprocess_csv.
Proof. intros w e w'. by rewrite _preprocess_csv_run. Qed.

Lemma data_layer_is_db_populated : data_layer_only is_db_populated.
Proof. unfold is_db_populated. repeat data_layer_step. Qed.

(** The builders between the statements cannot fail once the reference
    maps have been prepared from the same frame. *)
Lemma builders_total (data : frame) (w : world) cm gm am lm (w1 : world) :
  _prepare_reference_data data w = (Ok (cm, gm, am, lm), w1) →
  ∃ movies_data,
    _prepare_movies_data data cm = Ok movies_data ∧
    length movies_data = length data ∧
    ∀ (w2 : world) movie_ids (w3 : world),
      insert_movies movies_data w2 = (Ok movie_ids, w3) →
      ∃ out, _prepare_associations data movie_ids gm am lm = Ok out.
Proof.
  intros Hrun.
  pose proof (_prepare_reference_data_keys _ _ _ _ _ _ _ Hrun) as Hkeys.
  destruct (_prepare_movies_data_total data cm) as [movies_data Hbuild].
  { intros row Hrow. by destruct (Hkeys row Hrow). }
  pose proof Hbuild as [Hlen _]%traverse_Ok_lookup.
  exists movies_data. split_and!; [done..|].
  intros w2 movie_ids w3 [Hids _]%insert_movies_Ok.
  apply associations_from_total.
  - rewrite drop_0. lia.
  - intros row Hrow. by destruct (Hkeys row Hrow) as (_ & ? & ? & ?).
Qed.

Lemma data_layer_seed_body : data_layer_only seed_body.
Proof.
  unfold seed_body.
  apply data_layer_bind; [auto with tx|intros open].
  apply data_layer_bind; [destruct open; auto with tx|intros _].
  apply data_layer_bind; [apply data_layer__seed_user_groups|intros _].
  apply data_layer_bind; [apply data_layer__preprocess_csv|intros data].
  intros w e w'.
  intros [(e' & Hrun & [= ->])|([[[cm gm] am] lm] & w1 & Hrun & Hk)]%bind_run.
  { by eapply data_layer__prepare_reference_data. }
  destruct (builders_total _ _ _ _ _ _ _ Hrun)
    as (movies_data & Hbuild & _ & Hassoc).
  apply bind_run in Hk as [(e' & Hl & _)|(md & w2 & Hl & Hk)].
  { unfold lift in Hl. by rewrite Hbuild in Hl. }
  unfold lift in Hl. rewrite Hbuild in Hl. injection Hl as <- <-.
  apply bind_run in Hk
    as [(e' & Hins & [= ->])|(movie_ids & w3 & Hins & Hk)].
  { by eapply data_layer_insert_movies. }
  destruct (Hassoc _ _ _ Hins) as [[[mg ma] ml] Hout].
  apply bind_run in Hk as [(e' & Hl & _)|(out & w4 & Hl & Hk)].
  { unfold lift in Hl. by rewrite Hout in Hl. }
  unfold lift in Hl. rewrite Hout in Hl. injection Hl as <- <-.
  revert Hk. generalize w3 e w'.
  change (data_layer_only
    (_bulk_insert MoviesGenresModel mg ;;
     _bulk_insert ActorsMoviesModel ma ;;
     _bulk_insert MoviesLanguagesModel ml ;;
     commit ;; print SeedingCompleted)).
  repeat first
    [ apply data_layer__bulk_insert
    | solve [auto with tx]
    | apply data_layer_bind; [|intros ?] ].
Qed.

End DataLayer.

Section SeedRun.
Context `{Env}.

Lemma seed_start (w : world) open (w0 : world) u (w1 : world) :
  in_transaction w = (Ok open, w0) →
  (if open then rollback else ret tt) w0 = (Ok u, w1) →
  view w1 = committed w ∧ committed w1 = committed w ∧
  csv_file w1 = csv_file w ∧ faults w1 = faults w.
Proof.
  destruct w as [c wk [] ft lg cs fl sv];
    unfold in_transaction, rollback, gets, ret, bind, modify, sent,
      set_session, view; simpl;
    intros [= <- <-]; simpl; intros ?; by simplify_eq.
Qed.

Lemma _seed_user_groups_file (w : world) u (w' : world) :
  _seed_user_groups w = (Ok u, w') → csv_file w' = csv_file w.
Proof.
  destruct w as [c wk tx ft lg cs fl sv].
  unfold _seed_user_groups, execute_select, execute_insert, flush, tick,
    print, bind, modify, gets, ret, autobegin, sent, set_session.
  simpl.
  destruct ft as [[|[|[|n]]]|], tx; simpl; try done;
    repeat case_bool_decide; simpl; intros ?; by simplify_eq.
Qed.

Lemma _seed_user_groups_tables (w : world) u (w' : world) :
  _seed_user_groups w = (Ok u, w') →
  ∃ t, view w' = set_table UserGroupModel t (view w).
Proof.
  intros Hrun. apply _seed_user_groups_Ok in Hrun as [_ Hrun].
  destruct (user_groups (view w)) as [|g gs] eqn:Hg.
  - destruct Hrun as (-> & _). eauto.
  - destruct Hrun as (-> & _). exists (user_groups (view w)).
    by destruct (view w).
Qed.

Lemma _preprocess_csv_Ok (w : world) data (w' : world) :
  _preprocess_csv w = (Ok data, w') →
  data = preprocessed (csv_file w) ∧ view w' = view w ∧
  committed w' = committed w ∧ faults w' = faults w.
Proof. rewrite _preprocess_csv_run. by intros [= <- <-]. Qed.

Lemma commit_Ok (w : world) u (w' : world) :
  commit w = (Ok u, w') →
  committed w' = view w ∧ working w' = view w ∧ in_tx w' = false ∧
  console w' = console w.
Proof.
  destruct w as [c wk tx [[|n]|] lg cs fl sv];
    unfold commit, tick, bind, modify, sent, set_session, view; simpl;
    intros ?; by simplify_eq.
Qed.

Lemma _get_or_create_bulk_resolved (m : model) (field : str) (items : list str)
    (w : world) (d : gmap str entity) (w' : world) :
  _get_or_create_bulk m items field w = (Ok d, w') →
  view w' = set_table m (resolved field (table m (view w)) items) (view w) ∧
  resolves field (resolved field (table m (view w)) items) items d.
Proof.
  intros Hrun. pose proof Hrun as Hv.
  apply _get_or_create_bulk_effect in Hv.
  apply _get_or_create_bulk_Ok in Hrun as (Hlook & _).
  split; [done|]. intros k. rewrite Hlook, Hv.
  by rewrite table_set_table.
Qed.

Lemma resolves_in_table (field : str) (t : list entity) (items : list str)
    (d : gmap str entity) (k : str) (o : entity) :
  resolves field t items d → d !! k = Some o → o ∈ t.
Proof.
  intros Hd. rewrite Hd. case_bool_decide; [|done].
  by intros [? _]%last_with_Some.
Qed.

Lemma _prepare_reference_data_resolved (data : frame) (w : world) cm gm am lm
    (w' : world) :
  _prepare_reference_data data w = (Ok (cm, gm, am, lm), w') →
  let s := view w in
  let cs := resolved (py "code") (countries s) (unique (country <$> data)) in
  let gs := resolved (py "name") (genres s)
              (elements (stripped_set (genre <$> data))) in
  let acs := resolved (py "name") (actors s)
               (elements (stripped_set (crew <$> data))) in
  let ls := resolved (py "name") (languages s)
              (elements (stripped_set (orig_lang <$> data))) in
  view w'
  = Store (user_groups s) cs gs acs ls (movies s) (movies_genres s)
          (actors_movies s) (movies_languages s) ∧
  resolves (py "code") cs (unique (country <$> data)) cm ∧
  resolves (py "name") gs (elements (stripped_set (genre <$> data))) gm ∧
  resolves (py "name") acs (elements (stripped_set (crew <$> data))) am ∧
  resolves (py "name") ls (elements (stripped_set (orig_lang <$> data))) lm.
Proof.
  unfold _prepare_reference_data.
  intros (cm' & w1 & Hc & Hrun)%bind_Ok.
  apply bind_Ok in Hrun as (gm' & w2 & Hg & Hrun).
  apply bind_Ok in Hrun as (am' & w3 & Ha & Hrun).
  apply bind_Ok in Hrun as (lm' & w4 & Hl & Hrun).
  injection Hrun as <- <- <- <- <-.
  apply _get_or_create_bulk_resolved in Hc as [Hv1 Hcm], Hg as [Hv2 Hgm],
    Ha as [Hv3 Ham], Hl as [Hv4 Hlm].
  rewrite Hv1 in Hv2, Hgm. rewrite Hv2 in Hv3, Ham. rewrite Hv3 in Hv4, Hlm.
  simpl in Hcm, Hgm, Ham, Hlm, Hv4. by split_and!.
Qed.

Lemma seed_body_Ok (w : world) u (w' : world) :
  seed_body w = (Ok u, w') →
  let data := preprocessed (csv_file w) in
  let s0 := committed w in
  let s := committed w' in
  let movie_ids := seq (next_id (movies s0)) (length data) in
  ∃ cm gm am lm movies_data mg ma ml,
    user_groups s = seeded_groups (user_groups s0) ∧
    countries s
    = resolved (py "code") (countries s0) (unique (country <$> data)) ∧
    genres s
    = resolved (py "name") (genres s0)
        (elements (stripped_set (genre <$> data))) ∧
    actors s
    = resolved (py "name") (actors s0)
        (elements (stripped_set (crew <$> data))) ∧
    languages s
    = resolved (py "name") (languages s0)
        (elements (stripped_set (orig_lang <$> data))) ∧
    resolves (py "code") (countries s) (unique (country <$> data)) cm ∧
    resolves (py "name") (genres s)
      (elements (stripped_set (genre <$> data))) gm ∧
    resolves (py "name") (actors s)
      (elements (stripped_set (crew <$> data))) am ∧
    resolves (py "name") (languages s)
      (elements (stripped_set (orig_lang <$> data))) lm ∧
    _prepare_movies_data data cm = Ok movies_data ∧
    insertable (movies s0) movies_data ∧
    movies s = movies s0 ++ zip_with Obj movie_ids movies_data ∧
    _prepare_associations data movie_ids gm am lm = Ok (mg, ma, ml) ∧
    movies_genres s = movies_genres s0 ++ mg ∧
    actors_movies s = actors_movies s0 ++ ma ∧
    movies_languages s = movies_languages s0 ++ ml ∧
    in_tx w' = false ∧ working w' = s ∧
    head (console w') = Some SeedingCompleted.
Proof.
  intros Hrun data0 s0 s movie_ids0. unfold seed_body in Hrun.
  apply bind_Ok in Hrun as (open & w0 & Hopen & Hrun).
  apply bind_Ok in Hrun as (? & w0' & Hroll & Hrun).
  apply bind_Ok in Hrun as (? & w1 & Hgroups & Hrun).
  apply bind_Ok in Hrun as (data & w1' & Hprep & Hrun).
  apply bind_Ok in Hrun as ([[[cm gm] am] lm] & w2 & Href & Hrun).
  apply bind_Ok in Hrun as (movies_data & w2' & Hbuild & Hrun).
  apply bind_Ok in Hrun as (movie_ids & w3 & Hins & Hrun).
  apply bind_Ok in Hrun as ([[mg ma] ml] & w3' & Hassoc & Hrun).
  apply bind_Ok in Hrun as (? & w4 & Hmg & Hrun).
  apply bind_Ok in Hrun as (? & w5 & Hma & Hrun).
  apply bind_Ok in Hrun as (? & w6 & Hml & Hrun).
  apply bind_Ok in Hrun as (? & w7 & Hcommit & Hprint).
  destruct (seed_start _ _ _ _ _ Hopen Hroll) as (Hv0 & _ & Hf0 & _).
  pose proof (_seed_user_groups_file _ _ _ Hgroups) as Hf1.
  apply _seed_user_groups_Ok in Hgroups as [_ Hv1].
  apply _preprocess_csv_Ok in Hprep as (-> & Hv1' & _).
  rewrite Hf1, Hf0 in Href, Hbuild, Hassoc. fold data0 in Href, Hbuild, Hassoc.
  apply _prepare_reference_data_resolved in Href
    as (Hv2 & Hcm & Hgm & Ham & Hlm).
  unfold lift in Hbuild, Hassoc.
  injection Hbuild as Hbuild <-. injection Hassoc as Hassoc <-.
  pose proof Hbuild as [Hlen _]%traverse_Ok_lookup.
  unfold insert_movies in Hins.
  apply insert_movies_chunks_facts in Hins as (Hv3 & Hids & Hinsable).
  rewrite concat_chunks in Hv3, Hids, Hinsable. simpl in Hids.
  rewrite ids_new_rows in Hids.
  apply _bulk_insert_Ok in Hmg as (Hv4 & _), Hma as (Hv5 & _),
    Hml as (Hv6 & _).
  apply commit_Ok in Hcommit as (Hc7 & Hw7 & Ht7 & _).
  unfold print, modify in Hprint. injection Hprint as _ <-.
  subst s0 s movie_ids0. simpl.
  assert (view w1'
          = set_table UserGroupModel
              (seeded_groups (user_groups (committed w))) (committed w))
    as Hs1.
  { rewrite Hv1'. rewrite Hv0 in Hv1. unfold seeded_groups.
    destruct (user_groups (committed w)) as [|g gs] eqn:Hug;
      destruct Hv1 as (-> & _); [done|].
    rewrite <- Hug. by destruct (committed w). }
  rewrite Hs1 in Hv2, Hcm, Hgm, Ham, Hlm.
  simpl in Hv2, Hcm, Hgm, Ham, Hlm.
  rewrite Hv2 in Hv3, Hids, Hinsable. simpl in Hv3, Hids, Hinsable.
  rewrite Hv3 in Hv4. rewrite Hv4 in Hv5. rewrite Hv5 in Hv6.
  simpl in Hv6. rewrite Hlen in Hids. subst movie_ids.
  exists cm, gm, am, lm, movies_data, mg, ma, ml.
  rewrite Hw7, Hc7, Hv6. simpl. split_and!; try done.
  unfold insert_values. by rewrite new_rows_zip, Hlen.
Qed.

Lemma traverse_fmap {A B C} (f : A → result B) (g : B → C) (h : A → C)
    (l : list A) ys :
  traverse f l = Ok ys →
  (∀ x y, f x = Ok y → g y = h x) →
  g <$> ys = h <$> l.
Proof.
  revert ys. induction l as [|x l IH]; simpl; intros ys.
  - by intros [= <-].
  - destruct (f x) as [y|] eqn:Hy; simpl; [|done].
    destruct (traverse f l) as [ys'|]; simpl; [|done].
    intros [= <-] Hf. simpl. f_equal; [eauto|]. by apply IH.
Qed.

Lemma built_keys (data : frame) cm movies_data :
  _prepare_movies_data data cm = Ok movies_data →
  m_name <$> movies_data = names <$> data ∧
  movie_key <$> movies_data = frame_key <$> data.
Proof.
  intros Hbuild. split.
  - eapply traverse_fmap; [exact Hbuild|]. intros row mv. simpl.
    unfold getitem. destruct (cm !! country row); simpl; [|done].
    by intros [= <-].
  - eapply traverse_fmap; [exact Hbuild|]. intros row mv. simpl.
    unfold getitem. destruct (cm !! country row); simpl; [|done].
    by intros [= <-].
Qed.

Lemma insertable_frame (t : list (obj movie)) (data : frame) cm movies_data :
  _prepare_movies_data data cm = Ok movies_data →
  insertable t movies_data ↔ frame_insertable t data.
Proof.
  intros [Hn Hk]%built_keys. unfold insertable, frame_insertable.
  rewrite Hk.
  assert (Forall (λ mv, is_Some (m_name mv)) movies_data
          ↔ Forall (λ r : Row str date float, is_Some (names r)) data)
    as ->; [|done].
  rewrite <- (Forall_fmap m_name is_Some movies_data).
  rewrite <- (Forall_fmap names is_Some data). by rewrite Hn.
Qed.

Lemma returns__seed_user_groups : returns _seed_user_groups.
Proof.
  unfold _seed_user_groups.
  apply returns_bind; [apply returns_execute_select|intros n].
  case_bool_decide; [|apply returns_ret].
  apply returns_bind; [apply returns_execute_insert|intros _].
  apply returns_bind; [apply returns_flush|intros _]. apply returns_print.
Qed.

Lemma returns_commit : returns commit.
Proof.
  intros w Hw. destruct w as [c wk tx ft lg cs fl sv]. simpl in Hw. subst.
  unfold commit, tick, bind, modify, sent, set_session. simpl. eauto.
Qed.

Lemma returns_seed_start (w : world) :
  faults w = None →
  ∃ w0, (let* open := in_transaction in
         if open then rollback else ret tt) w = (Ok tt, w0) ∧
        faults w0 = None ∧ view w0 = committed w ∧
        csv_file w0 = csv_file w.
Proof.
  intros Hw. destruct w as [c wk [] ft lg cs fl sv]; simpl in Hw; subst;
    unfold in_transaction, rollback, gets, ret, bind, modify, sent,
      set_session, view; simpl; eauto.
Qed.

Lemma seed_body_returns (w : world) :
  faults w = None →
  frame_insertable (movies (committed w)) (preprocessed (csv_file w)) →
  ∃ w', seed_body w = (Ok tt, w').
Proof.
  intros Hw Hins. set (data := preprocessed (csv_file w)) in *.
  destruct (returns_seed_start w Hw) as (w0 & Hstart & Hw0 & Hv0 & Hf0).
  destruct (returns__seed_user_groups w0 Hw0) as ([] & w1 & Hgroups & Hw1).
  pose proof (_seed_user_groups_file _ _ _ Hgroups) as Hf1.
  pose proof (_seed_user_groups_tables _ _ _ Hgroups) as [ug Hv1].
  destruct (_preprocess_csv w1) as [r w1'] eqn:Hprep.
  pose proof Hprep as Hprep'. rewrite _preprocess_csv_run in Hprep'.
  injection Hprep' as <- Hw1'.
  change (omap cleaned _) with (preprocessed (csv_file w1)) in Hprep.
  rewrite Hf1, Hf0 in Hprep. fold data in Hprep.
  pose proof (_preprocess_csv_Ok _ _ _ Hprep) as (_ & Hv1' & _ & Hw1f).
  destruct (returns__prepare_reference_data data w1')
    as ([[[cm gm] am] lm] & w2 & Href & Hw2); [congruence|].
  destruct (builders_total _ _ _ _ _ _ _ Href)
    as (movies_data & Hbuild & _ & Hassoc).
  pose proof Href as Hv2.
  apply _prepare_reference_data_resolved in Hv2 as (Hv2 & _).
  destruct (insert_movies_chunks_single (chunks movies_data) [] w2 Hw2)
    as (movie_ids & w3 & Hmovies & Hw3).
  { rewrite concat_chunks. eapply insertable_frame; [done|].
    by rewrite Hv2, Hv1', Hv1, Hv0; destruct (committed w). }
  fold (insert_movies movies_data) in Hmovies.
  destruct (Hassoc _ _ _ Hmovies) as [[[mg ma] ml] Hout].
  destruct (returns__bulk_insert MoviesGenresModel mg w3 Hw3)
    as ([] & w4 & Hmg & Hw4).
  destruct (returns__bulk_insert ActorsMoviesModel ma w4 Hw4)
    as ([] & w5 & Hma & Hw5).
  destruct (returns__bulk_insert MoviesLanguagesModel ml w5 Hw5)
    as ([] & w6 & Hml & Hw6).
  destruct (returns_commit w6 Hw6) as ([] & w7 & Hcommit & Hw7).
  eexists. unfold seed_body.
  apply bind_Ok in Hstart as (open & w00 & Hopen & Hroll).
  apply bind_Ok. exists open, w00. split; [done|].
  apply bind_Ok. exists tt, w0. split; [done|].
  apply bind_Ok. exists tt, w1. split; [done|].
  apply bind_Ok. exists data, w1'. split; [done|].
  apply bind_Ok. exists (cm, gm, am, lm), w2. split; [done|].
  apply bind_Ok. exists movies_data, w2. split; [by unfold lift; rewrite Hbuild|].
  apply bind_Ok. exists movie_ids, w3. split; [done|].
  apply bind_Ok. exists (mg, ma, ml), w3. split; [by unfold lift; rewrite Hout|].
  apply bind_Ok. exists tt, w4. split; [done|].
  apply bind_Ok. exists tt, w5. split; [done|].
  apply bind_Ok. exists tt, w6. split; [done|].
  apply bind_Ok. exists tt, w7. split; [done|].
  reflexivity.
Qed.

Lemma elem_of_concat {A} (x : A) (ls : list (list A)) :
  x ∈ concat ls → ∃ i l, ls !! i = Some l ∧ x ∈ l.
Proof.
  induction ls as [|l ls IH]; simpl; [by intros ?%not_elem_of_nil|].
  intros [Hx|Hx]%elem_of_app.
  - by exists 0%nat, l.
  - destruct (IH Hx) as (i & l' & Hi & Hl). by exists (S i), l'.
Qed.

Lemma pair_from_token (cell : Row str date float → str)
    (ref_map : gmap str entity) (data : frame) (movie_ids : list nat)
    (p : nat * nat) :
  p ∈ concat (zip_with (λ row movie_id, pairs_for ref_map movie_id (cell row))
                       data movie_ids) →
  ∃ i row t,
    data !! i = Some row ∧ movie_ids !! i = Some p.1 ∧
    t ∈ nonempty_tokens (cell row) ∧ p.2 = ref_id ref_map t.
Proof.
  intros (i & l & Hi & Hp)%elem_of_concat.
  apply lookup_zip_with_Some in Hi as (row & movie_id & -> & Hrow & Hid).
  unfold pairs_for in Hp.
  apply list_elem_of_fmap in Hp as (t & -> & Ht).
  by exists i, row, t.
Qed.

Lemma resolves_lookup (field : str) (t : list entity) (items : list str)
    (d : gmap str entity) (k : str) :
  resolves field t items d → is_Some (d !! k) →
  ∃ o, d !! k = Some o ∧ last_with field k t = Some o ∧ o ∈ t ∧
       getattr o field = Some k.
Proof.
  intros Hd [o Ho]. exists o. split; [done|].
  rewrite Hd in Ho. case_bool_decide; [|done].
  split; [done|]. by apply last_with_Some in Ho.
Qed.

End SeedRun.

(** X12.  Whatever [seed] raises is a data-layer error, and the last thing
    on the console is its report as such: the reference maps cover the frame
    they were built from and the insertion loop returns one identifier per
    record, so no dictionary or list lookup of [_prepare_movies_data] or
    [_prepare_associations] fails and the handler for other exceptions is
    never entered.  When [seed] returns, its last message is that seeding
    completed. *)
Theorem seed_raises_only_data_layer_errors `{Env} (w : world) :
  let '(r, w') := seed w in
  match r with
  | Ok _ => head (console w') = Some SeedingCompleted
  | Raise e =>
      is_SQLAlchemyError e = true ∧
      head (console w') = Some (SQLAlchemyErrorMsg e)
  end.
Proof.
  unfold seed, try_except.
  destruct (seed_body w) as [[u|e] w1] eqn:Hbody.
  - apply seed_body_Ok in Hbody. simpl in Hbody.
    destruct Hbody as (? & ? & ? & ? & ? & ? & ? & ? & Hbody).
    apply Hbody.
  - rewrite (data_layer_seed_body _ _ _ Hbody).
    unfold bind, print, modify, raise. simpl.
    split; [|done]. by eapply data_layer_seed_body.
Qed.

(** X13.  While no statement fails, [seed] returns exactly when the rows of
    the preprocessed file can be inserted: every row has a name, no two rows
    share a (names, date_x) key after the dates are parsed, and no movie
    already committed has the key of a row.  Otherwise the re-query of an
    identifier finds no row or more than one, and the run is abandoned. *)
Theorem seed_returns_iff_rows_insertable `{Env} (w : world) :
  faults w = None →
  completes (seed w) = true ↔
  frame_insertable (movies (committed w)) (preprocessed (csv_file w)).
Proof.
  intros Hw. unfold seed, try_except. split.
  - destruct (seed_body w) as [[u|e] w1] eqn:Hbody.
    + intros _. apply seed_body_Ok in Hbody. simpl in Hbody.
      destruct Hbody
        as (cm & ? & ? & ? & movies_data & ? & ? & ? & Hbody).
      destruct Hbody as (_ & _ & _ & _ & _ & _ & _ & _ & _ & Hbuild & Hins & _).
      by eapply insertable_frame.
    + by destruct (is_SQLAlchemyError e).
  - intros Hins. by destruct (seed_body_returns w Hw Hins) as [w' ->].
Qed.


(** X15.  When [seed] returns, the committed movie table is the one it was
    followed by one row per row of the preprocessed file, in file order and
    under consecutive identifiers from the next free one on.  The row for a
    file row carries its name, date, score, overview, status, budget and
    revenue, and as country the identifier of the committed country row that
    holds the file row's country code. *)
Theorem seed_inserts_one_movie_per_row `{Env} (w : world) (u : unit)
    (w' : world) :
  seed w = (Ok u, w') →
  let data := preprocessed (csv_file w) in
  let s0 := committed w in
  let s := committed w' in
  ∃ new_rows,
    movies s = movies s0 ++ new_rows ∧
    length new_rows = length data ∧
    ∀ i row, data !! i = Some row →
      ∃ c, c ∈ countries s ∧
           getattr c (py "code") = Some (country row) ∧
           new_rows !! i
           = Some (Obj (next_id (movies s0) + i)
                       (Movie (names row) (date_x row) (score row)
                              (overview row) (status row) (budget_x row)
                              (revenue row) (id_of c))).
Proof.
  unfold seed, try_except.
  destruct (seed_body w) as [[u'|e] w1] eqn:Hbody.
  - intros [= <- <-]. apply seed_body_Ok in Hbody. simpl in Hbody |- *.
    destruct Hbody as (cm & ? & ? & ? & movies_data & ? & ? & ? & Hbody).
    destruct Hbody
      as (_ & _ & _ & _ & _ & Hcm & _ & _ & _ & Hbuild & _ & Hmovies & _).
    apply traverse_Ok_lookup in Hbuild as [Hlen Hbuilt].
    eexists. split; [exact Hmovies|].
    split; [rewrite length_zip_with, length_seq; lia|].
    intros i row Hrow. destruct (Hbuilt i row Hrow) as (mv & Hmv & Hrec).
    unfold getitem in Hrec.
    destruct (cm !! country row) as [c|] eqn:Hc; simpl in Hrec; [|done].
    injection Hrec as <-.
    destruct (resolves_lookup _ _ _ _ (country row) Hcm) as (c' & Hc' & _ & Hin & Hcode);
      [by rewrite Hc|].
    assert (c' = c) as -> by congruence.
    exists c. split_and!; [done..|].
    apply lookup_zip_with_Some. eexists _, _. split; [done|]. split; [|done].
    apply lookup_seq. split; [done|]. by eapply lookup_lt_Some.
  - unfold bind, raise. by destruct (is_SQLAlchemyError e).
Qed.

(** X16.  When [seed] returns, the association tables are the committed
    ones followed by new pairs only, and every new pair is sound: it comes
    from a token of the genre (crew, orig_lang) cell of some row of the
    preprocessed file, its movie identifier is the one of the movie row
    inserted for that file row, and its other identifier is that of a
    committed genre (actor, language) row named as the token. *)
Theorem seed_associations_reference_rows `{Env} (w : world) (u : unit)
    (w' : world) :
  seed w = (Ok u, w') →
  let data := preprocessed (csv_file w) in
  let s0 := committed w in
  let s := committed w' in
  let sound (cell : Row str date float → str) (t : list entity)
            (p : nat * nat) : Prop :=
    ∃ i row token o,
      data !! i = Some row ∧ token ∈ nonempty_tokens (cell row) ∧
      p.1 = (next_id (movies s0) + i)%nat ∧ p.1 ∈ id_of <$> movies s ∧
      o ∈ t ∧ getattr o (py "name") = Some token ∧ p.2 = id_of o in
  ∃ mg ma ml,
    movies_genres s = movies_genres s0 ++ mg ∧
    actors_movies s = actors_movies s0 ++ ma ∧
    movies_languages s = movies_languages s0 ++ ml ∧
    Forall (sound genre (genres s)) mg ∧
    Forall (sound crew (actors s)) ma ∧
    Forall (sound orig_lang (languages s)) ml.
Proof.
  unfold seed, try_except.
  destruct (seed_body w) as [[u'|e] w1] eqn:Hbody;
    [|unfold bind, raise; by destruct (is_SQLAlchemyError e)].
  intros [= <- <-]. apply seed_body_Ok in Hbody. simpl in Hbody |- *.
  destruct Hbody as (cm & gm & am & lm & movies_data & mg & ma & ml & Hbody).
  destruct Hbody
    as (_ & _ & _ & _ & _ & _ & Hgm & Ham & Hlm & Hbuild & _ & Hmovies
        & Hassoc & Hmg & Hma & Hml & _).
  apply traverse_Ok_lookup in Hbuild as [Hlen _].
  unfold _prepare_associations in Hassoc.
  apply associations_from_Ok in Hassoc as (_ & Hg & Ha & Hl & Hkeys).
  rewrite drop_0 in Hg, Ha, Hl. simpl in Hg, Ha, Hl.
  exists mg, ma, ml. split_and!; [done..| | |].
  all: apply Forall_forall; intros p Hp.
  all: [> rewrite Hg in Hp | rewrite Ha in Hp | rewrite Hl in Hp].
  all: apply pair_from_token in Hp as (i & row & token & Hrow & Hid & Ht & Href).
  all: apply lookup_seq in Hid as [Hid Hlt].
  all: assert (row ∈ preprocessed (csv_file w)) as Hin
         by (apply list_elem_of_lookup; eauto).
  all: destruct (Hkeys row Hin) as (Hkg & Hka & Hkl).
  all: [> destruct (resolves_lookup _ _ _ _ token Hgm (Hkg _ Ht))
            as (o & Ho & _ & Hino & Hname)
        | destruct (resolves_lookup _ _ _ _ token Ham (Hka _ Ht))
            as (o & Ho & _ & Hino & Hname)
        | destruct (resolves_lookup _ _ _ _ token Hlm (Hkl _ Ht))
            as (o & Ho & _ & Hino & Hname) ].
  all: exists i, row, token, o.
  all: unfold ref_id in Href; rewrite Ho in Href.
  all: split_and!; [done..| |done|done|done].
  all: rewrite Hmovies, fmap_app; apply elem_of_app; right.
  all: rewrite Hid; apply list_elem_of_lookup; exists i.
  all: rewrite list_lookup_fmap.
  all: destruct (lookup_lt_is_Some_2 movies_data i) as [mv Hmv]; [lia|].
  all: assert (zip_with Obj
                 (seq (next_id (movies (committed w)))
                      (length (preprocessed (csv_file w))))
                 movies_data !! i
               = Some (Obj (next_id (movies (committed w)) + i) mv)) as Hz
         by (apply lookup_zip_with_Some; eexists _, _;
             split; [done|]; split; [|done];
             apply lookup_seq; split; [done|lia]).
  all: by rewrite Hz.
Qed.

(** X17.  [seed] begins by rolling back a transaction it finds open (as the
    one the population check of [main] has begun): on a session with pending
    work it does what it does on a session without, after one ROLLBACK.  So
    what was pending is seen by no stage and can never be committed by the
    seeding. *)
Theorem seed_rolls_back_pending_work `{Env} (w : world) :
  in_tx w = true →
  seed w
  = seed (World (committed w) (committed w) false (faults w)
                (ROLLBACK :: log w) (console w) (csv_file w) (csv_saved w)).
Proof.
  destruct w as [c wk tx ft lg cs fl sv]. simpl. intros ->.
  unfold seed, try_except.
  assert (∀ f : bool → M unit,
            bind in_transaction f (World c wk true ft lg cs fl sv)
            = f true (World c wk true ft lg cs fl sv)) as Hopen by done.
  assert (∀ f : bool → M unit,
            bind in_transaction f
              (World c c false ft (ROLLBACK :: lg) cs fl sv)
            = f false (World c c false ft (ROLLBACK :: lg) cs fl sv))
    as Hclosed by done.
  unfold seed_body. rewrite Hopen, Hclosed. done.
Qed.

(** ** [main] *)

Section MainRun.
Context `{Env}.

Lemma seed_run (w : world) r (w' : world) :
  seed w = (r, w') →
  match r with
  | Ok _ => seed_body w = (Ok tt, w')
  | Raise e =>
      is_SQLAlchemyError e = true ∧
      console w' = SQLAlchemyErrorMsg e :: console (snd (seed_body w)) ∧
      committed w' = committed w
  end.
Proof.
  intros Hseed. pose proof (all_or_nothing_seed _ _ _ Hseed) as [Hc _].
  revert Hseed. unfold seed, try_except.
  destruct (seed_body w) as [[[]|e] w1] eqn:Hbody.
  - by intros [= <- <-].
  - rewrite (data_layer_seed_body _ _ _ Hbody).
    unfold bind, print, modify, raise. simpl. intros [= <- <-].
    split_and!; [|done..]. by eapply data_layer_seed_body.
Qed.

Lemma head_populated {A} (l : list A) :
  bool_decide (is_Some (head l)) = bool_decide (l ≠ []).
Proof.
  destruct l as [|x l]; [|done].
  rewrite !bool_decide_eq_false_2; [done|by intros ?|by intros [? ?]].
Qed.

Lemma is_db_populated_run (w : world) r (w' : world) :
  is_db_populated w = (r, w') →
  committed w' = committed w ∧ console w' = console w ∧
  csv_file w' = csv_file w ∧
  match r with
  | Ok populated =>
      populated = bool_decide (movies (view w) ≠ []) ∧ view w' = view w
  | Raise e => e = SQLAlchemyError OperationalError ∧ faults w = Some 0%nat
  end.
Proof.
  destruct w as [c wk [] [[|n]|] lg cs fl sv];
    unfold is_db_populated, execute_select, tick, bind, modify, gets, ret,
      autobegin, sent, set_session, view; simpl;
    intros ?; simplify_eq; simpl; split_and!; try done;
    apply head_populated.
Qed.

Lemma main_outcome (w : world) :
  let '(r, w') := main w in
  match r with
  | Raise e =>
      e = SQLAlchemyError OperationalError ∧ faults w = Some 0%nat ∧
      committed w' = committed w ∧ console w' = console w
  | Ok _ =>
      match movies (committed w) with
      | _ :: _ =>
          head (console w') = Some AlreadyPopulated ∧
          committed w' = committed w
      | [] =>
          (∃ w0 w1, view w0 = committed w ∧ committed w0 = committed w ∧
                    csv_file w0 = csv_file w ∧
                    seed_body w0 = (Ok tt, w1) ∧
                    committed w' = committed w1 ∧
                    head (console w') = Some SeedingCompletedSuccessfully) ∨
          (∃ e l, is_SQLAlchemyError e = true ∧
                  console w' = FailedToSeed e :: SQLAlchemyErrorMsg e :: l ∧
                  committed w' = committed w)
      end
  end.
Proof.
  unfold main, get_db_contextmanager.
  set (w0 := set_session (committed w) (committed w) false w).
  destruct (bind is_db_populated _ w0) as [r w1] eqn:E. simpl.
  apply bind_run in E as [(e & Hpop & ->)|(populated & w2 & Hpop & E)].
  { apply is_db_populated_run in Hpop as (Hc & Hp & _ & -> & Hf). done. }
  apply is_db_populated_run in Hpop as (Hc & Hp & Hfile & -> & Hv).
  change (view w0) with (committed w) in Hv, E.
  change (committed w0) with (committed w) in Hc.
  change (console w0) with (console w) in Hp.
  change (csv_file w0) with (csv_file w) in Hfile.
  destruct (movies (committed w)) as [|mv mvs] eqn:Hm.
  - rewrite bool_decide_eq_false_2 in E by (by intros ?).
    simpl in E. unfold try_except in E.
    destruct (bind seed _ w2) as [[[]|e] w3] eqn:Hseed.
    + injection E as <- <-. left.
      apply bind_Ok in Hseed as (? & w4 & Hseed & Hprint).
      apply seed_run in Hseed.
      unfold print, modify in Hprint. injection Hprint as <-. simpl.
      exists w2, w4. by split_and!.
    + unfold print, modify in E. injection E as <- <-. simpl. right.
      apply bind_run in Hseed as [(e' & Hseed & [= <-])|(? & w4 & _ & Hprint)].
      * apply seed_run in Hseed as (He & Hcons & Hc3).
        exists e, (console (snd (seed_body w2))).
        rewrite Hcons. split_and!; [done..|congruence].
      * unfold print, modify in Hprint. by injection Hprint.
  - rewrite bool_decide_eq_true_2 in E by done.
    simpl in E. unfold print, modify in E. injection E as <- <-. simpl.
    split; [done|congruence].
Qed.

End MainRun.


(** X19.  Seeding happens once: when [main] has reported that seeding
    completed successfully for a file with at least one usable row, the
    committed movie table is not empty, so another run of [main] on that
    database only checks and skips: it commits nothing, and when its check
    succeeds it reports that the database is already populated. *)
Theorem main_seeds_once `{Env} (w : world) (u : unit) (w1 : world) :
  main w = (Ok u, w1) →
  head (console w1) = Some SeedingCompletedSuccessfully →
  preprocessed (csv_file w) ≠ [] →
  movies (committed w1) ≠ [] ∧
  ∀ r2 w2, main w1 = (r2, w2) →
    committed w2 = committed w1 ∧
    (r2 = Ok tt → head (console w2) = Some AlreadyPopulated).
Proof.
  intros Hrun Hhead Hdata.
  pose proof (main_outcome w) as Hmain. rewrite Hrun in Hmain.
  assert (movies (committed w1) ≠ []) as Hmovies.
  { destruct (movies (committed w)) as [|mv mvs] eqn:Hm.
    - destruct Hmain
        as [(w0 & w1' & Hv & Hc & Hfile & Hbody & Hc1 & _)|(e & l & _ & Hl & _)];
        [|by rewrite Hl in Hhead].
      apply seed_body_Ok in Hbody. simpl in Hbody.
      destruct Hbody as (cm & ? & ? & ? & movies_data & ? & ? & ? & Hbody).
      destruct Hbody
        as (_ & _ & _ & _ & _ & _ & _ & _ & _ & Hbuild & _ & Hmovies & _).
      apply traverse_Ok_lookup in Hbuild as [Hlen _].
      rewrite Hc1, Hmovies, Hfile. rewrite Hfile in Hlen.
      destruct (preprocessed (csv_file w)) as [|row data]; [done|].
      destruct movies_data as [|mv md]; [done|].
      simpl. by destruct (movies (committed w0)).
    - destruct Hmain as [Hl _]. by rewrite Hl in Hhead. }
  split; [done|]. intros r2 w2 Hrun2.
  pose proof (main_outcome w1) as Hmain2. rewrite Hrun2 in Hmain2.
  destruct (movies (committed w1)) as [|mv mvs]; [done|].
  destruct r2 as [[]|e]; [by destruct Hmain2|].
  by destruct Hmain2 as (_ & _ & ? & _).
Qed.

(** ** Preprocessing and the reference items *)

Section Strip.
Import PyStr PyStrFacts.

Lemma lstrip_head c (s : str) : isspace c = false → lstrip (c :: s) = c :: s.
Proof. intros Hc. simpl. by rewrite Hc. Qed.

Lemma lstrip_cases (s : str) :
  lstrip s = [] ∨ ∃ c t, lstrip s = c :: t ∧ isspace c = false.
Proof.
  induction s as [|c s IH]; [by left|]. simpl.
  destruct (isspace c) eqn:Hc; [done|]. right. eauto.
Qed.

Lemma lstrip_snoc (l : str) c :
  isspace c = false → ∃ p, lstrip (l ++ [c]) = p ++ [c].
Proof.
  intros Hc. induction l as [|x l IH]; simpl.
  - rewrite Hc. by exists [].
  - destruct (isspace x); [done|]. by exists (x :: l).
Qed.

Lemma rstrip_head c (s : str) :
  isspace c = false → ∃ t, rstrip (c :: s) = c :: t.
Proof.
  intros Hc. unfold rstrip. rewrite reverse_cons.
  destruct (lstrip_snoc (reverse s) c Hc) as [p ->].
  rewrite reverse_app. simpl. eauto.
Qed.

Lemma rstrip_idemp (s : str) : rstrip (rstrip s) = rstrip s.
Proof.
  unfold rstrip. rewrite reverse_involutive. f_equal.
  destruct (lstrip_cases (reverse s)) as [->|(c & t & -> & Hc)]; [done|].
  by apply lstrip_head.
Qed.

Lemma strip_idemp (s : str) : strip (strip s) = strip s.
Proof.
  unfold strip.
  destruct (lstrip_cases s) as [->|(c & t & -> & Hc)]; [done|].
  destruct (rstrip_head c t Hc) as [t' Ht].
  rewrite <- (rstrip_idemp (c :: t)) at 2. f_equal.
  rewrite Ht. by apply lstrip_head.
Qed.

Lemma lstrip_nospace (s : str) :
  Forall (λ c, isspace c = false) s → lstrip s = s.
Proof. destruct 1 as [|c s Hc _]; [done|]. by apply lstrip_head. Qed.

Lemma strip_nospace (s : str) :
  Forall (λ c, isspace c = false) s → strip s = s.
Proof.
  intros Hs. unfold strip, rstrip. rewrite (lstrip_nospace s) by done.
  rewrite lstrip_nospace; [apply reverse_involutive|].
  by apply Forall_reverse.
Qed.

Lemma remove_whitespace_nospace (s : str) :
  Forall (λ c, isspace c = false) (remove_whitespace s).
Proof.
  apply Forall_forall. intros c Hc.
  by apply list_elem_of_filter in Hc as [? _].
Qed.

Lemma StronglySorted_filter {A} (R : relation A) (P : A → Prop)
    `{∀ x, Decision (P x)} (l : list A) :
  StronglySorted R l → StronglySorted R (filter P l).
Proof.
  induction 1 as [|x l Hl IH Hx]; [constructor|].
  rewrite filter_cons. destruct (decide (P x)); [|done].
  constructor; [done|]. apply Forall_forall. intros y Hy.
  apply list_elem_of_filter in Hy as [_ Hy].
  rewrite Forall_forall in Hx. by apply Hx.
Qed.

Lemma crew_canonical_tokens (x : str) :
  nonempty_tokens (crew_canonical x)
  = filter (λ t, t ≠ []) (sorted_set (remove_whitespace <$> split comma x)).
Proof.
  unfold nonempty_tokens. rewrite <- crew_cell_canonical, crew_tokens.
  f_equal. rewrite <- (list_fmap_id (sorted_set _)) at 2.
  apply list_fmap_ext. intros i t Ht. simpl.
  apply list_elem_of_lookup_2 in Ht.
  rewrite sorted_set_elem_of, list_elem_of_fmap in Ht.
  destruct Ht as (t0 & -> & _).
  apply strip_nospace, remove_whitespace_nospace.
Qed.

End Strip.

Section Duplicates.
Context {A K : Type} `{EqDecision K} (key : A → K).

Lemma drop_duplicates_from_spec (seen : list K) (data : list A) :
  let kept := Pandas.drop_duplicates_from key seen data in
  NoDup (key <$> kept) ∧
  kept `sublist_of` data ∧
  (∀ r, r ∈ kept → key r ∉ seen) ∧
  (∀ r, r ∈ data → key r ∈ seen ∨ key r ∈ key <$> kept) ∧
  (∀ r, r ∈ kept → ∃ before after,
      data = before ++ r :: after ∧ key r ∉ key <$> before).
Proof.
  revert seen. induction data as [|x data IH]; intros seen; simpl.
  - split_and!; [constructor | done | | |];
      by intros ? ?%not_elem_of_nil.
  - destruct (IH seen) as (Hnd1 & Hsub1 & Hseen1 & Hcov1 & Hfirst1).
    destruct (IH (key x :: seen)) as (Hnd2 & Hsub2 & Hseen2 & Hcov2 & Hfirst2).
    case_bool_decide as Hx.
    + split_and!; [done | by constructor | done | |].
      * intros r [->|Hr]%elem_of_cons; [by left | by apply Hcov1].
      * intros r Hr. destruct (Hfirst1 r Hr) as (before & after & -> & Hb).
        exists (x :: before), after. split; [done|].
        rewrite fmap_cons. intros [Heq|?]%elem_of_cons; [|done].
        apply (Hseen1 r Hr). by rewrite Heq.
    + split_and!.
      * rewrite fmap_cons. constructor; [|done].
        intros (r & Hkey & Hr)%list_elem_of_fmap.
        apply (Hseen2 r Hr). rewrite <- Hkey. by left.
      * by constructor.
      * intros r [->|Hr]%elem_of_cons; [done|].
        intros ?. apply (Hseen2 r Hr). by right.
      * intros r [->|Hr]%elem_of_cons.
        -- right. rewrite fmap_cons. by left.
        -- destruct (Hcov2 r Hr) as [[Heq|?]%elem_of_cons|?].
           ++ right. rewrite fmap_cons, Heq. by left.
           ++ by left.
           ++ right. rewrite fmap_cons. by right.
      * intros r [->|Hr]%elem_of_cons.
        -- exists [], data. split; [done|]. apply not_elem_of_nil.
        -- destruct (Hfirst2 r Hr) as (before & after & -> & Hb).
           exists (x :: before), after. split; [done|].
           rewrite fmap_cons. intros [Heq|?]%elem_of_cons; [|done].
           apply (Hseen2 r Hr). rewrite Heq. by left.
Qed.

Lemma drop_duplicates_from_fixed (seen : list K) (l : list A) :
  NoDup (key <$> l) → (∀ r, r ∈ l → key r ∉ seen) →
  Pandas.drop_duplicates_from key seen l = l.
Proof.
  revert seen. induction l as [|x l IH]; intros seen Hnd Hseen; [done|].
  rewrite fmap_cons in Hnd. apply NoDup_cons in Hnd as [Hx Hnd]. simpl.
  rewrite bool_decide_eq_false_2 by (apply Hseen; by left).
  f_equal. apply IH; [done|].
  intros r Hr [Heq|?]%elem_of_cons.
  - apply Hx. rewrite <- Heq. apply list_elem_of_fmap. eauto.
  - apply (Hseen r); [by right | done].
Qed.

End Duplicates.

(** X20.  [drop_duplicates(subset=key, keep='first')], as it is applied to
    the file on (names, date_x) and to the country column, keeps the rows in
    their order, keeps for every key of the input exactly one row, and that
    row is the first of the input with its key.  Applying it again changes
    nothing. *)
Theorem drop_duplicates_keeps_first_per_key {A K : Type} `{EqDecision K}
    (key : A → K) (data : list A) :
  let kept := Pandas.drop_duplicates key data in
  NoDup (key <$> kept) ∧
  kept `sublist_of` data ∧
  (∀ r, r ∈ data → key r ∈ key <$> kept) ∧
  (∀ r, r ∈ kept → ∃ before after,
      data = before ++ r :: after ∧ key r ∉ key <$> before) ∧
  Pandas.drop_duplicates key kept = kept.
Proof.
  destruct (drop_duplicates_from_spec key [] data)
    as (Hnd & Hsub & _ & Hcov & Hfirst).
  split_and!; [done..| | done |].
  - intros r Hr. by destruct (Hcov r Hr) as [?%not_elem_of_nil|?].
  - apply drop_duplicates_from_fixed; [done|].
    intros r _. apply not_elem_of_nil.
Qed.

(** X21.  In every row of the preprocessed file the text columns are
    normalised: the genre holds no no-break space, the original language and
    the crew hold no white space at all, so their tokens need no trimming,
    and the status has no white space at either end.  The names of the crew
    cell are pairwise distinct and in [str] order. *)
Theorem preprocessed_text_is_normalised `{Env} (file : list csv_record) :
  Forall (λ row,
      (nbsp ∉ genre row) ∧
      Forall (λ c, PyStr.isspace c = false) (orig_lang row) ∧
      Forall (λ c, PyStr.isspace c = false) (crew row) ∧
      PyStr.strip (status row) = status row ∧
      NoDup (nonempty_tokens (crew row)) ∧
      Sorted PyStr.le (nonempty_tokens (crew row)))
    (preprocessed file).
Proof.
  apply Forall_forall. intros row Hrow. unfold preprocessed in Hrow.
  apply list_elem_of_omap in Hrow as (r & _ & Hrow).
  unfold cleaned in Hrow.
  destruct (date_x r ≫= parse_datetime) as [d|]; [|done].
  injection Hrow as <-. simpl. split_and!.
  - intros Hin%list_elem_of_filter. by destruct Hin.
  - apply remove_whitespace_nospace.
  - apply Forall_forall. intros c Hc.
    apply elem_of_join in Hc as [->|(t & Ht & Hc)]; [done|].
    rewrite PyStrFacts.sorted_set_elem_of, list_elem_of_fmap in Ht.
    destruct Ht as (t0 & -> & _).
    by apply list_elem_of_filter in Hc as [? _].
  - apply strip_idemp.
  - rewrite crew_canonical_tokens. apply NoDup_filter.
    apply PyStrFacts.sorted_set_NoDup.
  - rewrite crew_canonical_tokens.
    apply StronglySorted_Sorted, StronglySorted_filter.
    apply Sorted_StronglySorted; [apply _|].
    apply PyStrFacts.sorted_set_Sorted.
Qed.

(** X22.  The items [_prepare_reference_data] resolves are duplicate-free
    lists: the countries are the distinct values of the country column, and
    the genres, actors and languages are exactly the tokens of the cells of
    their column that are not empty once trimmed; none of them is empty or
    has white space at either end. *)
Theorem reference_items_are_distinct_tokens (column : list str) :
  NoDup (unique column) ∧
  (∀ x, x ∈ unique column ↔ x ∈ column) ∧
  NoDup (elements (stripped_set column)) ∧
  (∀ k, k ∈ elements (stripped_set column) ↔
        ∃ cell, cell ∈ column ∧ k ∈ nonempty_tokens cell) ∧
  (∀ k, k ∈ elements (stripped_set column) →
        k ≠ [] ∧ PyStr.strip k = k).
Proof.
  assert (∀ k, k ∈ elements (stripped_set column) ↔
               ∃ cell, cell ∈ column ∧ k ∈ nonempty_tokens cell) as Htok.
  { intros k. unfold stripped_set, nonempty_tokens.
    rewrite elem_of_elements, elem_of_list_to_set, list_elem_of_bind.
    split; [intros (cell & Hk & Hcell) | intros (cell & Hcell & Hk)];
      exists cell; [split; [done|] | split; [|done]].
    - apply list_elem_of_bind in Hk as (x & Hk & Hx).
      case_bool_decide; [|by apply not_elem_of_nil in Hk].
      apply list_elem_of_singleton in Hk as ->.
      apply list_elem_of_filter. split; [done|].
      apply list_elem_of_fmap. eauto.
    - apply list_elem_of_filter in Hk as [Hne Hk].
      apply list_elem_of_fmap in Hk as (x & -> & Hx).
      apply list_elem_of_bind. exists x. split; [|done].
      rewrite bool_decide_eq_true_2 by done. by left. }
  destruct (drop_duplicates_from_spec (λ x : str, x) [] column)
    as (Hnd & Hsub & _ & Hcov & _).
  rewrite list_fmap_id in Hnd.
  split_and!; [done | | apply NoDup_elements | done |].
  - intros x. split.
    + intros Hx. by eapply elem_of_sublist.
    + intros Hx. destruct (Hcov x Hx) as [?%not_elem_of_nil|Hin]; [done|].
      by rewrite list_fmap_id in Hin.
  - intros k (cell & _ & Hk)%Htok. unfold nonempty_tokens in Hk.
    apply list_elem_of_filter in Hk as [Hne Hk].
    apply list_elem_of_fmap in Hk as (x & -> & _).
    split; [done|]. apply strip_idemp.
Qed.

(** ** The further properties at sample inputs *)

Section MoreSamples.
#[local] Existing Instance demo_env.

Ltac by_decide :=
  match goal with
  | |- ?P => apply (bool_decide_unpack P); vm_compute; exact I
  end.

Lemma seed_user_groups_only_when_empty_witness :
  let run := _seed_user_groups (fresh_world [] None) in
  completes run = true ∧
  committed (snd run) = committed (fresh_world [] None).
Proof.
  intros run.
  assert (completes run = true) as Hok by (vm_compute; reflexivity).
  split; [exact Hok|]. subst run.
  destruct (_seed_user_groups (fresh_world [] None)) as [[u|e] w'] eqn:Hrun;
    [|discriminate Hok].
  exact (proj1 (seed_user_groups_only_when_empty _ u w' Hrun)).
Defined.

Lemma seed_user_groups_idempotent_witness :
  let first := _seed_user_groups (fresh_world [] None) in
  let second := _seed_user_groups (snd first) in
  UserGroupEnum ≠ [] ∧ completes first = true ∧ completes second = true ∧
  view (snd second) = view (snd first).
Proof.
  intros first second.
  assert (UserGroupEnum ≠ []) as Henum by (vm_compute; discriminate).
  assert (completes first = true) as Hok1 by (vm_compute; reflexivity).
  assert (completes second = true) as Hok2 by (vm_compute; reflexivity).
  split; [exact Henum|]. split; [exact Hok1|]. split; [exact Hok2|].
  subst second first.
  destruct (_seed_user_groups (fresh_world [] None)) as [[u1|e] w1] eqn:Hrun1;
    [|discriminate Hok1].
  simpl in *.
  destruct (_seed_user_groups w1) as [[u2|e] w2] eqn:Hrun2;
    [|discriminate Hok2].
  exact (proj1 (proj2 (seed_user_groups_idempotent _ u1 u2 w1 w2 Henum
                         Hrun1 Hrun2))).
Defined.

Lemma get_or_create_bulk_appends_absent_items_witness :
  let run := _get_or_create_bulk GenreModel demo_items (py "name")
               demo_world in
  completes run = true ∧ committed (snd run) = committed demo_world.
Proof.
  intros run.
  assert (completes run = true) as Hok by (vm_compute; reflexivity).
  split; [exact Hok|]. subst run.
  destruct (_get_or_create_bulk GenreModel demo_items (py "name") demo_world)
    as [[d|e] w'] eqn:Hrun; [|discriminate Hok].
  exact (proj2 (get_or_create_bulk_appends_absent_items GenreModel demo_items
                  (py "name") demo_world d w' Hrun)).
Defined.

Lemma get_or_create_bulk_keeps_keys_unique_witness :
  let run := _get_or_create_bulk GenreModel demo_items (py "name")
               demo_world in
  NoDup demo_items ∧
  NoDup (keys_of (py "name") (table GenreModel (view demo_world))) ∧
  completes run = true ∧
  NoDup (keys_of (py "name") (table GenreModel (view (snd run)))).
Proof.
  intros run.
  assert (NoDup demo_items) as Hitems
    by by_decide.
  assert (NoDup (keys_of (py "name") (table GenreModel (view demo_world))))
    as Hkeys by by_decide.
  assert (completes run = true) as Hok by (vm_compute; reflexivity).
  split; [exact Hitems|]. split; [exact Hkeys|]. split; [exact Hok|].
  subst run.
  destruct (_get_or_create_bulk GenreModel demo_items (py "name") demo_world)
    as [[d|e] w'] eqn:Hrun; [|discriminate Hok].
  exact (proj2 (get_or_create_bulk_keeps_keys_unique GenreModel demo_items
                  (py "name") demo_world d w' Hitems Hkeys Hrun)).
Defined.

Lemma get_or_create_bulk_distinct_ids_witness :
  let run := _get_or_create_bulk GenreModel demo_items (py "name")
               demo_world in
  NoDup (id_of <$> table GenreModel (view demo_world)) ∧
  completes run = true ∧
  NoDup (id_of <$> table GenreModel (view (snd run))).
Proof.
  intros run.
  assert (NoDup (id_of <$> table GenreModel (view demo_world))) as Hids
    by by_decide.
  assert (completes run = true) as Hok by (vm_compute; reflexivity).
  split; [exact Hids|]. split; [exact Hok|]. subst run.
  destruct (_get_or_create_bulk GenreModel demo_items (py "name") demo_world)
    as [[d|e] w'] eqn:Hrun; [|discriminate Hok].
  exact (proj1 (get_or_create_bulk_distinct_ids GenreModel demo_items
                  (py "name") demo_world d w' Hids Hrun)).
Defined.

Lemma prepare_associations_raises_witness :
  _prepare_associations [action_row] [] action_genres action_actors
    action_languages = Raise IndexError ∧
  ((IndexError = IndexError ∧ (length ([] : list nat) < length [action_row])%nat) ∨
   ∃ row t,
     row ∈ [action_row] ∧ IndexError = KeyError t ∧
     ((t ∈ nonempty_tokens (genre row) ∧ action_genres !! t = None) ∨
      (t ∈ nonempty_tokens (crew row) ∧ action_actors !! t = None) ∨
      (t ∈ nonempty_tokens (orig_lang row) ∧ action_languages !! t = None))).
Proof.
  assert (_prepare_associations [action_row] [] action_genres action_actors
            action_languages = Raise IndexError) as Hrun
    by (vm_compute; reflexivity).
  split; [exact Hrun|].
  exact (prepare_associations_raises [action_row] [] action_genres
           action_actors action_languages IndexError Hrun).
Defined.

Lemma insert_movies_returns_iff_insertable_witness :
  faults (fresh_world [] None) = None ∧
  (completes (insert_movies demo_movies (fresh_world [] None)) = true ↔
   insertable (movies (view (fresh_world [] None))) demo_movies).
Proof.
  split; [reflexivity|].
  apply (insert_movies_returns_iff_insertable demo_movies
           (fresh_world [] None)).
  reflexivity.
Defined.

Lemma insert_movies_consecutive_ids_witness :
  let run := insert_movies demo_movies (fresh_world [] None) in
  completes run = true ∧
  returned [] run
  = seq (next_id (movies (view (fresh_world [] None)))) (length demo_movies).
Proof.
  intros run.
  assert (completes run = true) as Hok by (vm_compute; reflexivity).
  split; [exact Hok|]. subst run.
  destruct (insert_movies demo_movies (fresh_world [] None))
    as [[movie_ids|e] w'] eqn:Hrun; [|discriminate Hok].
  exact (proj1 (insert_movies_consecutive_ids demo_movies
                  (fresh_world [] None) movie_ids w' Hrun)).
Defined.

Lemma seed_returns_iff_rows_insertable_witness :
  faults (fresh_world demo_csv None) = None ∧
  (completes (seed (fresh_world demo_csv None)) = true ↔
   frame_insertable (movies (committed (fresh_world demo_csv None)))
     (preprocessed (csv_file (fresh_world demo_csv None)))).
Proof.
  split; [reflexivity|].
  apply (seed_returns_iff_rows_insertable (fresh_world demo_csv None)).
  reflexivity.
Defined.


Lemma seed_inserts_one_movie_per_row_witness :
  let run := seed (fresh_world demo_csv None) in
  completes run = true ∧
  ∃ new_rows,
    movies (committed (snd run))
    = movies (committed (fresh_world demo_csv None)) ++ new_rows ∧
    length new_rows
    = length (preprocessed (csv_file (fresh_world demo_csv None))).
Proof.
  intros run.
  assert (completes run = true) as Hok by (vm_compute; reflexivity).
  split; [exact Hok|]. subst run.
  destruct (seed (fresh_world demo_csv None)) as [[u|e] w'] eqn:Hrun;
    [|discriminate Hok].
  destruct (seed_inserts_one_movie_per_row (fresh_world demo_csv None) u w'
              Hrun) as (new_rows & Hmovies & Hlen & _).
  exists new_rows. split; [exact Hmovies | exact Hlen].
Defined.

Lemma seed_associations_reference_rows_witness :
  let run := seed (fresh_world demo_csv None) in
  completes run = true ∧
  ∃ mg,
    movies_genres (committed (snd run))
    = movies_genres (committed (fresh_world demo_csv None)) ++ mg.
Proof.
  intros run.
  assert (completes run = true) as Hok by (vm_compute; reflexivity).
  split; [exact Hok|]. subst run.
  destruct (seed (fresh_world demo_csv None)) as [[u|e] w'] eqn:Hrun;
    [|discriminate Hok].
  destruct (seed_associations_reference_rows (fresh_world demo_csv None) u w'
              Hrun) as (mg & ma & ml & Hmg & _).
  exists mg. exact Hmg.
Defined.

Lemma main_seeds_once_witness :
  let run := main (fresh_world demo_csv None) in
  completes run = true ∧
  head (console (snd run)) = Some SeedingCompletedSuccessfully ∧
  preprocessed (csv_file (fresh_world demo_csv None)) ≠ [] ∧
  movies (committed (snd run)) ≠ [].
Proof.
  intros run.
  assert (completes run = true) as Hok by (vm_compute; reflexivity).
  assert (head (console (snd run)) = Some SeedingCompletedSuccessfully)
    as Hhead by (vm_compute; reflexivity).
  assert (preprocessed (csv_file (fresh_world demo_csv None)) ≠ [])
    as Hdata by (vm_compute; discriminate).
  split; [exact Hok|]. split; [exact Hhead|]. split; [exact Hdata|].
  subst run.
  destruct (main (fresh_world demo_csv None)) as [[u|e] w1] eqn:Hrun;
    [|discriminate Hok].
  exact (proj1 (main_seeds_once (fresh_world demo_csv None) u w1 Hrun Hhead
                  Hdata)).
Defined.

Lemma seed_rolls_back_pending_work_witness :
  in_tx pending_world = true ∧
  seed pending_world
  = seed (World (committed pending_world) (committed pending_world) false
                (faults pending_world) (ROLLBACK :: log pending_world)
                (console pending_world) (csv_file pending_world)
                (csv_saved pending_world)).
Proof.
  split; [reflexivity|].
  apply (seed_rolls_back_pending_work pending_world). reflexivity.
Defined.

End MoreSamples.
